(** * WebStack Manager (cp.py): process lifecycle, environment resolution
      and configuration rewriting, embedded and verified.

    The development follows the Python source function by function.
    Python [str] values are Rocq strings, read as sequences of code points
    below 256; Python [int] is [Z]; [pathlib.Path] values are lists of path
    components counted from the filesystem root; [os.environ] and the
    environment dictionaries are finite maps from names to values.  The
    state the program acts upon (file tree, audit log, signals sent,
    processes spawned, pending [QTimer.singleShot] timers, widgets) is
    threaded explicitly through a state-and-exception monad. *)

From stdpp Require Import base option list gmap strings fin_maps.
From Stdlib Require Import Ascii String ZArith Lia DecimalString DecimalZ DecimalPos.

Open Scope string_scope.

(* String concatenation computes on literals. *)
#[global] Arguments String.append !_ _ : simpl nomatch.

(** ** Text *)

Module Text.

Definition code (c : ascii) : nat := nat_of_ascii c.

(** Whitespace as [str.isspace], [str.strip] and the regex class [\s]
    see it, for code points below 256. *)
Definition is_space (c : ascii) : bool :=
  let n := code c in
  (((9 <=? n) && (n <=? 13)) || ((28 <=? n) && (n <=? 32))
   || (n =? 133) || (n =? 160))%nat.

(** The regex class [\d] (decimal digits; below 256 these are 0-9). *)
Definition re_digit (c : ascii) : bool :=
  let n := code c in ((48 <=? n) && (n <=? 57))%nat.

(** [str.isdigit] also accepts the superscript digits of Latin-1. *)
Definition is_digit_char (c : ascii) : bool :=
  let n := code c in
  re_digit c || ((n =? 178) || (n =? 179) || (n =? 185))%nat.

Fixpoint forallb_str (p : ascii -> bool) (s : string) : bool :=
  match s with
  | EmptyString => true
  | String c s' => p c && forallb_str p s'
  end.

Fixpoint existsb_str (p : ascii -> bool) (s : string) : bool :=
  match s with
  | EmptyString => false
  | String c s' => p c || existsb_str p s'
  end.

(** [c in s] for a one-character [c]. *)
Definition contains (c : ascii) (s : string) : bool :=
  existsb_str (Ascii.eqb c) s.

(** [s.isdigit()]: non-empty and made of digits only. *)
Definition isdigit (s : string) : bool :=
  match s with
  | EmptyString => false
  | _ => forallb_str is_digit_char s
  end.

(** [s.replace(c, '')] for a one-character [c]. *)
Fixpoint remove_char (c : ascii) (s : string) : string :=
  match s with
  | EmptyString => EmptyString
  | String c' s' =>
      if Ascii.eqb c c' then remove_char c s' else String c' (remove_char c s')
  end.

(** Longest prefix made of characters of a class, and what follows it. *)
Fixpoint span (p : ascii -> bool) (s : string) : string * string :=
  match s with
  | EmptyString => (EmptyString, EmptyString)
  | String c s' =>
      if p c then (let '(a, b) := span p s' in (String c a, b))
      else (EmptyString, s)
  end.

(** [line.split(sep, 1)] on a line known to contain [sep]: the text
    before the first separator and the text after it. *)
Fixpoint split1 (sep : ascii) (s : string) : string * string :=
  match s with
  | EmptyString => (EmptyString, EmptyString)
  | String c s' =>
      if Ascii.eqb sep c then (EmptyString, s')
      else (let '(a, b) := split1 sep s' in (String c a, b))
  end.

(** Line boundaries of [str.splitlines] below code point 256. *)
Definition is_linebreak (c : ascii) : bool :=
  let n := code c in
  (((10 <=? n) && (n <=? 13)) || ((28 <=? n) && (n <=? 30)) || (n =? 133))%nat.

(** [s.splitlines()]: a carriage return directly followed by a line feed
    is one boundary; no empty last line is produced. *)
Fixpoint splitlines_acc (acc : string) (s : string) : list string :=
  match s with
  | EmptyString =>
      match acc with EmptyString => [] | _ => [acc] end
  | String c s' =>
      if is_linebreak c then
        match s' with
        | String c' s'' =>
            if ((code c =? 13) && (code c' =? 10))%nat
            then acc :: splitlines_acc EmptyString s''
            else acc :: splitlines_acc EmptyString s'
        | EmptyString => [acc]
        end
      else splitlines_acc (acc +:+ String c EmptyString) s'
  end.

Definition splitlines (s : string) : list string :=
  splitlines_acc EmptyString s.

(** [s.split(sep)] for a one-character [sep]. *)
Fixpoint split_on (sep : ascii) (s : string) : list string :=
  match s with
  | EmptyString => [EmptyString]
  | String c s' =>
      if Ascii.eqb sep c then EmptyString :: split_on sep s'
      else match split_on sep s' with
           | x :: l => String c x :: l
           | [] => [String c EmptyString]
           end
  end.

(** [f'{n}'] for an [int]. *)
Definition fmt_int (n : Z) : string :=
  NilZero.string_of_int (Z.to_int n).

(** Reading a decimal numeral back. *)
Definition parse_int (s : string) : option Z :=
  Z.of_int <$> NilZero.int_of_string s.

End Text.

(** ** Regular expressions, as far as [re.sub] is used

    Both patterns of the source, [listen\s+\d+;] and [port\s*=\s*\d+], are
    sequences of literal characters and greedy repetitions of a character
    class, and every repetition is followed by something its class
    excludes, so that greedy matching never has to back off. *)

Module Regex.

Inductive atom :=
| Lit (c : ascii)                              (* one literal character *)
| Rep (at_least_one : bool) (cls : ascii -> bool). (* [cls+] or [cls*] *)

Definition lits (s : string) : list atom :=
  Lit <$> list_ascii_of_string s.

(** Match at the head of [s]: the text taken by each atom and the rest. *)
Fixpoint match_here (pat : list atom) (s : string)
  : option (list string * string) :=
  match pat with
  | [] => Some ([], s)
  | Lit c :: pat' =>
      match s with
      | String c' s' =>
          if Ascii.eqb c c' then
            match match_here pat' s' with
            | Some (caps, r) => Some (String c EmptyString :: caps, r)
            | None => None
            end
          else None
      | EmptyString => None
      end
  | Rep one cls :: pat' =>
      let '(a, b) := Text.span cls s in
      match one, a with
      | true, EmptyString => None
      | _, _ =>
          match match_here pat' b with
          | Some (caps, r) => Some (a :: caps, r)
          | None => None
          end
      end
  end.

(** [re.sub(pat, repl, s)]: scan from the left; where the pattern matches,
    emit the replacement and go on after the match, otherwise keep the
    character.  The patterns used never match the empty string; the first
    argument bounds the number of steps and [String.length s] suffices. *)
Fixpoint sub_steps (n : nat) (pat : list atom) (repl s : string) : string :=
  match n with
  | O => s
  | S n' =>
      match s with
      | EmptyString => EmptyString
      | String c s' =>
          match match_here pat s with
          | Some (_, r) => repl +:+ sub_steps n' pat repl r
          | None => String c (sub_steps n' pat repl s')
          end
      end
  end.

Definition sub (pat : list atom) (repl s : string) : string :=
  sub_steps (String.length s) pat repl s.

(** [re.findall]-like: the captures of every match met by the same scan. *)
Fixpoint findall_steps (n : nat) (pat : list atom) (s : string)
  : list (list string) :=
  match n with
  | O => []
  | S n' =>
      match s with
      | EmptyString => []
      | String c s' =>
          match match_here pat s with
          | Some (caps, r) => caps :: findall_steps n' pat r
          | None => findall_steps n' pat s'
          end
      end
  end.

Definition findall (pat : list atom) (s : string) : list (list string) :=
  findall_steps (String.length s) pat s.

(** Does atom [a] refuse character [c]? *)
Definition rejects (c : ascii) (a : atom) : bool :=
  match a with
  | Lit c' => negb (Ascii.eqb c' c)
  | Rep _ cls => negb (cls c)
  end.

(** Two texts that agree up to the first place where both show the
    character [c0]; what follows that place is unconstrained. *)
Inductive sim (c0 : ascii) : string -> string -> Prop :=
| sim_nil : sim c0 EmptyString EmptyString
| sim_mark s t : sim c0 (String c0 s) (String c0 t)
| sim_cons c s t : sim c0 s t -> sim c0 (String c s) (String c t).

(** A text that does not begin with a character of the class. *)
Definition stops (cls : ascii -> bool) (s : string) : Prop :=
  match s with
  | EmptyString => True
  | String c _ => cls c = false
  end.

(** [r'listen\s+\d+;'] *)
Definition listen_re : list atom :=
  (lits "listen" ++ [Rep true Text.is_space; Rep true Text.re_digit; Lit ";"])%list.

(** [r'port\s*=\s*\d+'] *)
Definition port_re : list atom :=
  (lits "port" ++ [Rep false Text.is_space; Lit "="; Rep false Text.is_space;
                   Rep true Text.re_digit])%list.

(** The port text of each [listen <port>;] directive, in order. *)
Definition listen_ports (conf : string) : list string :=
  (fun caps => default EmptyString (caps !! 7%nat)) <$> findall listen_re conf.

(** The port text of each [port = <port>] directive, in order. *)
Definition port_values (cnf : string) : list string :=
  (fun caps => default EmptyString (caps !! 7%nat)) <$> findall port_re cnf.

End Regex.

(** ** The file tree

    A path is the list of its components below the filesystem root.  The
    tree maps the real location of every entry to its node; the root itself
    is a directory and needs no entry.  Link targets are absolute. *)

Abbreviation path := (list string).

Inductive node :=
| File (content : string)
| Dir
| Symlink (target : path).

Module FS.

(** [str(p)] *)
Definition path_str (p : path) : string :=
  "/" +:+ String.concat "/" p.

Fixpoint split_last (p : path) : option (path * string) :=
  match p with
  | [] => None
  | c :: p' =>
      match split_last p' with
      | None => Some ([], c)
      | Some (d, l) => Some (c :: d, l)
      end
  end.

(** [p.name] *)
Definition name (p : path) : string :=
  match split_last p with Some (_, c) => c | None => EmptyString end.

Definition node_at (t : gmap path node) (p : path) : option node :=
  match p with [] => Some Dir | _ => t !! p end.

(** Number of links one resolution may follow. *)
Definition max_links : nat := 40.

(** Resolution of [rest] below the real directory [cur], following every
    link, the last component included.  The result is the real location
    the path designates; nothing need exist there yet, but everything
    above it does. *)
Fixpoint locate (n : nat) (t : gmap path node) : path -> path -> option path :=
  fix go (cur rest : path) {struct rest} : option path :=
    match rest with
    | [] => Some cur
    | c :: rest' =>
        match t !! (cur ++ [c])%list with
        | Some (Symlink tg) =>
            match n with
            | O => None
            | S n' => locate n' t [] (tg ++ rest')%list
            end
        | Some Dir => go (cur ++ [c])%list rest'
        | Some (File _) | None =>
            match rest' with
            | [] => Some (cur ++ [c])%list
            | _ => None
            end
        end
    end.

Definition realpath (t : gmap path node) (p : path) : option path :=
  locate max_links t [] p.

(** [os.stat]: the node a path leads to, links followed. *)
Definition stat (t : gmap path node) (p : path) : option node :=
  q ← realpath t p; node_at t q.

(** [p.exists()] *)
Definition path_exists (t : gmap path node) (p : path) : bool :=
  match stat t p with Some _ => true | None => false end.

(** [p.is_dir()] *)
Definition is_dir (t : gmap path node) (p : path) : bool :=
  match stat t p with Some Dir => true | _ => false end.

(** The real location of the directory entry [p] itself: the parent is
    resolved and has to be a directory, the last component is not
    followed. *)
Definition lpath (t : gmap path node) (p : path) : option path :=
  match split_last p with
  | None => Some []
  | Some (parent, c) =>
      d ← realpath t parent;
      match node_at t d with
      | Some Dir => Some (d ++ [c])%list
      | _ => None
      end
  end.

(** [os.lstat] *)
Definition lstat (t : gmap path node) (p : path) : option node :=
  q ← lpath t p; node_at t q.

(** [p.is_symlink()] *)
Definition is_symlink (t : gmap path node) (p : path) : bool :=
  match lstat t p with Some (Symlink _) => true | _ => false end.

(** [open(p).read()] *)
Definition read_file (t : gmap path node) (p : path) : option string :=
  q ← realpath t p;
  match node_at t q with Some (File c) => Some c | _ => None end.

(** [open(p, 'w').write(content)] *)
Definition write_file (t : gmap path node) (p : path) (content : string)
  : option (gmap path node) :=
  q ← realpath t p;
  match node_at t q with
  | Some (File _) | None => Some (<[q := File content]> t)
  | Some _ => None
  end.

(** [p.unlink()] *)
Definition unlink (t : gmap path node) (p : path) : option (gmap path node) :=
  q ← lpath t p;
  match node_at t q with
  | Some (File _) | Some (Symlink _) => Some (delete q t)
  | _ => None
  end.

(** [p.symlink_to(target)] *)
Definition symlink_to (t : gmap path node) (p target : path)
  : option (gmap path node) :=
  q ← lpath t p;
  match node_at t q with
  | None => Some (<[q := Symlink target]> t)
  | Some _ => None
  end.

Fixpoint is_prefix (p q : path) : bool :=
  match p, q with
  | [], _ => true
  | c :: p', c' :: q' => bool_decide (c = c') && is_prefix p' q'
  | _ :: _, [] => false
  end.

(** [shutil.rmtree(p)]: refuses links and anything but a directory. *)
Definition rmtree (t : gmap path node) (p : path) : option (gmap path node) :=
  q ← lpath t p;
  match q, node_at t q with
  | _ :: _, Some Dir => Some (filter (fun kv => is_prefix q kv.1 = false) t)
  | _, _ => None
  end.

(** One [os.mkdir], tolerated when the directory is already there. *)
Definition mkdir1 (t : gmap path node) (p : path) : option (gmap path node) :=
  if is_dir t p then Some t
  else
    q ← lpath t p;
    match node_at t q with
    | None => Some (<[q := Dir]> t)
    | Some _ => None
    end.

Fixpoint prefixes (p : path) : list path :=
  match p with
  | [] => []
  | c :: p' => [c] :: ((c ::.) <$> prefixes p')
  end.

(** [p.mkdir(parents=True, exist_ok=True)] *)
Definition mkdir_p (t : gmap path node) (p : path) : option (gmap path node) :=
  foldl (fun acc d => t' ← acc; mkdir1 t' d) (Some t) (prefixes p).

(** [p.iterdir()]: the names found in a directory.  The order is the
    enumeration order of the tree, standing for whatever order the system
    returns them in. *)
Definition iterdir (t : gmap path node) (p : path) : option (list string) :=
  q ← realpath t p;
  match node_at t q with
  | Some Dir =>
      Some (omap (fun kv =>
              match split_last kv.1 with
              | Some (d, c) => if decide (d = q) then Some c else None
              | None => None
              end) (map_to_list t))
  | _ => None
  end.

End FS.

(* The file operations are used through their lemmas, not unfolded. *)
#[global] Arguments FS.path_str : simpl never.
#[global] Arguments FS.realpath : simpl never.
#[global] Arguments FS.stat : simpl never.
#[global] Arguments FS.lpath : simpl never.
#[global] Arguments FS.lstat : simpl never.
#[global] Arguments FS.path_exists : simpl never.
#[global] Arguments FS.is_dir : simpl never.
#[global] Arguments FS.is_symlink : simpl never.
#[global] Arguments FS.read_file : simpl never.
#[global] Arguments FS.write_file : simpl never.
#[global] Arguments FS.unlink : simpl never.
#[global] Arguments FS.symlink_to : simpl never.
#[global] Arguments FS.rmtree : simpl never.
#[global] Arguments FS.mkdir_p : simpl never.
#[global] Arguments FS.iterdir : simpl never.
#[global] Arguments Text.fmt_int : simpl never.
#[global] Arguments Regex.sub : simpl never.
#[global] Arguments Regex.findall : simpl never.

(** ** The world the manager acts upon *)

Inductive service := Nginx | Php | Mysql.

(** The service names as the source spells them. *)
Definition service_name (s : service) : string :=
  match s with Nginx => "nginx" | Php => "php" | Mysql => "mysql" end.

Inductive exn :=
| CalledProcessError (cmd : string) (code : Z)
| OSError (msg : string)
| ValueError (msg : string).

(** [str(e)] *)
Definition str_exn (e : exn) : string :=
  match e with
  | CalledProcessError cmd code =>
      "Command '" +:+ cmd +:+ "' returned non-zero exit status "
      +:+ Text.fmt_int code +:+ "."
  | OSError msg => msg
  | ValueError msg => msg
  end.

(** How a [subprocess.run] ends: with an exit status and the captured
    output, or without the program ever starting. *)
Inductive proc_outcome :=
| Exited (code : Z) (out err : string)
| NotStarted (msg : string).

(** What lies outside the program: the outcome of the commands it runs,
    of the signals it sends, Python's [int()] on the text of a PID file and
    the rendering of the clock.  The program cannot change any of it. *)
Record host_model := Host {
  h_source_env : proc_outcome;           (* bash -c 'source env.sh && env' *)
  h_admin_ping : proc_outcome;           (* mariadb-admin --socket=... ping *)
  h_admin_shutdown : proc_outcome;       (* mariadb-admin --socket=... shutdown *)
  h_popen : list string -> option string;  (* [Some msg]: Popen raises OSError *)
  h_kill : Z -> option string;           (* [Some msg]: os.kill raises OSError *)
  h_int : string -> option Z;            (* int(text.strip()), [None]: ValueError *)
  h_strftime : nat -> string             (* '%Y-%m-%d %H:%M:%S' of the clock *)
}.

(** The callbacks handed to [QTimer.singleShot]: the start of one
    service, the start of all of them, and the two cleanings. *)
Inductive callback :=
| CbStartService (s : service)
| CbStartAllServices
| CbCleanLogs
| CbCleanTempFiles.

Inductive dialog :=
| Warning (title text : string)
| Critical (title text : string)
| Information (title text : string).

(** Entries into the start and stop primitives, with the clock reading;
    the program keeps no such record, the model does, to speak about the
    order in which requests are issued. *)
Inductive call := StartCall (s : service) | StopCall (s : service).

Record widgets := Widgets {
  nginx_status : string;
  php_status : string;
  mysql_status : string;
  php_version : string;
  stack_health : string;
  php_version_combo : list string;
  mysql_port : Z;
  auto_load_env : bool;
  lib_path_display : string;
  env_status : string
}.

Record world := World {
  stack_dir : path;                    (* self.stack_dir *)
  fs : gmap path node;                 (* every file but the audit log *)
  applog : list string;                (* webstack_manager.log, one entry per write *)
  environ : gmap string string;        (* os.environ *)
  now : nat;                           (* clock, in milliseconds *)
  signals : list Z;                    (* PIDs sent SIGTERM, oldest first *)
  spawned : list (list string);        (* argument vectors handed to Popen *)
  timers : list (nat * callback);      (* pending single-shot timers, with due time *)
  dialogs : list dialog;               (* message boxes shown *)
  gui : widgets;
  calls : list (nat * call);
  host : host_model
}.

Definition set_fs (t : gmap path node) (w : world) : world :=
  World (stack_dir w) t (applog w) (environ w) (now w) (signals w) (spawned w)
        (timers w) (dialogs w) (gui w) (calls w) (host w).
Definition set_applog (l : list string) (w : world) : world :=
  World (stack_dir w) (fs w) l (environ w) (now w) (signals w) (spawned w)
        (timers w) (dialogs w) (gui w) (calls w) (host w).
Definition set_now (n : nat) (w : world) : world :=
  World (stack_dir w) (fs w) (applog w) (environ w) n (signals w) (spawned w)
        (timers w) (dialogs w) (gui w) (calls w) (host w).
Definition set_signals (l : list Z) (w : world) : world :=
  World (stack_dir w) (fs w) (applog w) (environ w) (now w) l (spawned w)
        (timers w) (dialogs w) (gui w) (calls w) (host w).
Definition set_spawned (l : list (list string)) (w : world) : world :=
  World (stack_dir w) (fs w) (applog w) (environ w) (now w) (signals w) l
        (timers w) (dialogs w) (gui w) (calls w) (host w).
Definition set_timers (l : list (nat * callback)) (w : world) : world :=
  World (stack_dir w) (fs w) (applog w) (environ w) (now w) (signals w) (spawned w)
        l (dialogs w) (gui w) (calls w) (host w).
Definition set_dialogs (l : list dialog) (w : world) : world :=
  World (stack_dir w) (fs w) (applog w) (environ w) (now w) (signals w) (spawned w)
        (timers w) l (gui w) (calls w) (host w).
Definition set_gui (g : widgets) (w : world) : world :=
  World (stack_dir w) (fs w) (applog w) (environ w) (now w) (signals w) (spawned w)
        (timers w) (dialogs w) g (calls w) (host w).
Definition set_calls (l : list (nat * call)) (w : world) : world :=
  World (stack_dir w) (fs w) (applog w) (environ w) (now w) (signals w) (spawned w)
        (timers w) (dialogs w) (gui w) l (host w).

Definition set_nginx_status (s : string) (g : widgets) : widgets :=
  Widgets s (php_status g) (mysql_status g) (php_version g) (stack_health g)
          (php_version_combo g) (mysql_port g) (auto_load_env g)
          (lib_path_display g) (env_status g).
Definition set_php_status (s : string) (g : widgets) : widgets :=
  Widgets (nginx_status g) s (mysql_status g) (php_version g) (stack_health g)
          (php_version_combo g) (mysql_port g) (auto_load_env g)
          (lib_path_display g) (env_status g).
Definition set_mysql_status (s : string) (g : widgets) : widgets :=
  Widgets (nginx_status g) (php_status g) s (php_version g) (stack_health g)
          (php_version_combo g) (mysql_port g) (auto_load_env g)
          (lib_path_display g) (env_status g).
Definition set_php_version (s : string) (g : widgets) : widgets :=
  Widgets (nginx_status g) (php_status g) (mysql_status g) s (stack_health g)
          (php_version_combo g) (mysql_port g) (auto_load_env g)
          (lib_path_display g) (env_status g).
Definition set_stack_health (s : string) (g : widgets) : widgets :=
  Widgets (nginx_status g) (php_status g) (mysql_status g) (php_version g) s
          (php_version_combo g) (mysql_port g) (auto_load_env g)
          (lib_path_display g) (env_status g).
Definition set_php_version_combo (l : list string) (g : widgets) : widgets :=
  Widgets (nginx_status g) (php_status g) (mysql_status g) (php_version g)
          (stack_health g) l (mysql_port g) (auto_load_env g)
          (lib_path_display g) (env_status g).
Definition set_env_display (shown status : string) (g : widgets) : widgets :=
  Widgets (nginx_status g) (php_status g) (mysql_status g) (php_version g)
          (stack_health g) (php_version_combo g) (mysql_port g) (auto_load_env g)
          shown status.

(** ** State and exceptions *)

Inductive outcome (A : Type) :=
| Ret (a : A)
| Raise (e : exn).
Arguments Ret {A} a.
Arguments Raise {A} e.

Definition M (A : Type) : Type := world -> outcome A * world.

#[global] Instance M_ret : MRet M := fun A a w => (Ret a, w).
#[global] Instance M_bind : MBind M := fun A B f m w =>
  match m w with
  | (Ret a, w') => f a w'
  | (Raise e, w') => (Raise e, w')
  end.

Definition get_world : M world := fun w => (Ret w, w).
Definition modify (f : world -> world) : M unit := fun w => (Ret tt, f w).
Definition raise {A} (e : exn) : M A := fun w => (Raise e, w).

(** [try: body except <caught classes> as e: handler(e)]; what the body
    did before raising stays done. *)
Definition try_except {A} (caught : exn -> bool) (body : M A)
    (handler : exn -> M A) : M A := fun w =>
  match body w with
  | (Ret a, w') => (Ret a, w')
  | (Raise e, w') => if caught e then handler e w' else (Raise e, w')
  end.

(** [except Exception] *)
Definition any_exception (e : exn) : bool := true.

(** [except subprocess.CalledProcessError] *)
Definition is_called_process_error (e : exn) : bool :=
  match e with CalledProcessError _ _ => true | _ => false end.

(** Whether a block ran to its end or left the function by [return]. *)
Inductive flow := Next | Return.

(** A file operation that either yields a new tree or raises [OSError]. *)
Definition fs_update (op : gmap path node -> option (gmap path node))
    (msg : string) : M unit := fun w =>
  match op (fs w) with
  | Some t => (Ret tt, set_fs t w)
  | None => (Raise (OSError msg), w)
  end.

Definition fs_read (p : path) : M string := fun w =>
  match FS.read_file (fs w) p with
  | Some c => (Ret c, w)
  | None => (Raise (OSError ("cannot read " +:+ FS.path_str p)), w)
  end.

Definition fs_iterdir (p : path) : M (list string) := fun w =>
  match FS.iterdir (fs w) p with
  | Some l => (Ret l, w)
  | None => (Raise (OSError ("cannot list " +:+ FS.path_str p)), w)
  end.

(** [subprocess.run(cmd, capture_output=True, text=True, check=check)] *)
Definition subprocess_run (cmd : string) (check : bool) (o : proc_outcome)
  : M (Z * string * string) :=
  match o with
  | NotStarted msg => raise (OSError msg)
  | Exited code out err =>
      if check && negb (code =? 0)%Z then raise (CalledProcessError cmd code)
      else mret (code, out, err)
  end.

(** [subprocess.Popen(argv, ...)] *)
Definition popen (argv : list string) : M unit := fun w =>
  match h_popen (host w) argv with
  | Some msg => (Raise (OSError msg), w)
  | None => (Ret tt, set_spawned (spawned w ++ [argv]) w)
  end.

(** [os.kill(pid, signal.SIGTERM)] *)
Definition os_kill (pid : Z) : M unit := fun w =>
  match h_kill (host w) pid with
  | Some msg => (Raise (OSError msg), w)
  | None => (Ret tt, set_signals (signals w ++ [pid]) w)
  end.

(** [int(f.read().strip())] *)
Definition py_int (text : string) : M Z := fun w =>
  match h_int (host w) text with
  | Some n => (Ret n, w)
  | None => (Raise (ValueError ("invalid literal for int(): " +:+ text)), w)
  end.

(** [QTimer.singleShot(ms, cb)] *)
Definition single_shot (ms : nat) (cb : callback) : M unit :=
  modify (fun w => set_timers (timers w ++ [(now w + ms, cb)]) w).

Definition message_box (d : dialog) : M unit :=
  modify (fun w => set_dialogs (dialogs w ++ [d]) w).

Definition note_call (c : call) : M unit :=
  modify (fun w => set_calls (calls w ++ [(now w, c)]) w).

Definition set_widgets (f : widgets -> widgets) : M unit :=
  modify (fun w => set_gui (f (gui w)) w).

(** ** The manager *)

Definition deps_dir (w : world) : path := (stack_dir w ++ ["deps"])%list.

(** [log_message]: one timestamped entry appended to the audit log under
    the stack root.  Opening the log for append fails when the stack root
    is not a directory. *)
Definition log_entry (w : world) (message : string) : string :=
  "[" +:+ h_strftime (host w) (now w) +:+ "] " +:+ message +:+ "
".

Definition log_message (message : string) : M unit := fun w =>
  if FS.is_dir (fs w) (stack_dir w)
  then (Ret tt, set_applog (applog w ++ [log_entry w message]) w)
  else (Raise (OSError ("cannot open "
          +:+ FS.path_str (stack_dir w ++ ["webstack_manager.log"])%list)), w).

#[global] Arguments log_entry : simpl never.

(** The candidate directories of the fallback resolver, in source order. *)
Definition lib_paths (w : world) : list path :=
  [ (deps_dir w ++ ["lib"])%list; (deps_dir w ++ ["lib64"])%list;
    ["usr"; "lib"]; ["usr"; "lib64"]; ["lib"]; ["lib64"] ].

Definition bin_paths (w : world) : list path :=
  [ (deps_dir w ++ ["bin"])%list; (stack_dir w ++ ["bin"])%list;
    ["usr"; "bin"]; ["bin"] ].

(** [[p for p in paths if os.path.exists(p)]] *)
Definition existing (w : world) (paths : list path) : list path :=
  List.filter (FS.path_exists (fs w)) paths.

(** [":".join(paths)] *)
Definition join_paths (paths : list path) : string :=
  String.concat ":" (FS.path_str <$> paths).

Definition get_fallback_environment (w : world) : gmap string string :=
  let env := environ w in
  let existing_lib_paths := existing w (lib_paths w) in
  let ld_library_path := join_paths existing_lib_paths in
  let env :=
    match env !! "LD_LIBRARY_PATH" with
    | Some old => <["LD_LIBRARY_PATH" := ld_library_path +:+ ":" +:+ old]> env
    | None => <["LD_LIBRARY_PATH" := ld_library_path]> env
    end in
  let existing_bin_paths := existing w (bin_paths w) in
  let path := join_paths existing_bin_paths in
  let env :=
    match env !! "PATH" with
    | Some old => <["PATH" := path +:+ ":" +:+ old]> env
    | None => <["PATH" := path]> env
    end in
  let env := <["WEBSTACK_HOME" := FS.path_str (stack_dir w)]> env in
  <["PKG_CONFIG_PATH" := FS.path_str (deps_dir w ++ ["lib"; "pkgconfig"])%list]> env.

#[global] Arguments get_fallback_environment : simpl never.

(** The loop over the lines printed by [env]: every line with an equals
    sign assigns what precedes the first one. *)
Definition parse_env_output (stdout : string) (env : gmap string string)
  : gmap string string :=
  foldl (fun env line =>
           if Text.contains "=" line
           then (let '(key, value) := Text.split1 "=" line in <[key := value]> env)
           else env)
        env (Text.splitlines stdout).

Definition get_environment : M (gmap string string) :=
  w ← get_world;
  let env := environ w in
  let env_sh_path := (stack_dir w ++ ["env.sh"])%list in
  if FS.path_exists (fs w) env_sh_path then
    try_except is_called_process_error
      (result ← subprocess_run
                  ("['bash', '-c', 'source " +:+ FS.path_str env_sh_path +:+ " && env']")
                  true (h_source_env (host w));
       let env := parse_env_output result.1.2 env in
       log_message "Environment loaded from env.sh";;
       mret env)
      (fun e =>
         log_message ("Error sourcing env.sh: " +:+ str_exn e);;
         w' ← get_world;
         mret (get_fallback_environment w'))
  else
    log_message "env.sh not found, using fallback environment";;
    w' ← get_world;
    mret (get_fallback_environment w').

Definition load_environment : M (gmap string string) :=
  env ← get_environment;
  let lib_path := default "Not set" (env !! "LD_LIBRARY_PATH") in
  let path := default "Not set" (env !! "PATH") in
  set_widgets (set_env_display
     ("LD_LIBRARY_PATH:
" +:+ lib_path +:+ "

PATH:
" +:+ path) "Environment: Loaded");;
  log_message "WebStack environment loaded";;
  mret env.

(** *** Status probes *)

Definition check_mysql_status : M bool :=
  w ← get_world;
  let mysql_socket := (stack_dir w ++ ["mariadb"; "mariadb.sock"])%list in
  if negb (FS.path_exists (fs w) mysql_socket) then mret false
  else
    try_except any_exception
      (env ← get_environment;
       w ← get_world;
       let mysql_admin := (stack_dir w ++ ["mariadb"; "bin"; "mariadb-admin"])%list in
       if negb (FS.path_exists (fs w) mysql_admin) then mret false
       else
         result ← subprocess_run (FS.path_str mysql_admin) false
                    (h_admin_ping (host w));
         mret (result.1.1 =? 0)%Z)
      (fun _ => mret false).

(** A directory name that looks like a PHP version (8.4, 8.3, ...):
    [name.replace('.', '').isdigit() and len(name) <= 4]. *)
Definition looks_like_version (name : string) : bool :=
  Text.isdigit (Text.remove_char "." name) && (String.length name <=? 4)%nat.

Definition check_stack_health : M unit :=
  w ← get_world;
  if negb (FS.path_exists (fs w) (stack_dir w)) then
    set_widgets (set_stack_health "Missing")
  else
    let issues1 :=
      if negb (FS.path_exists (fs w) (stack_dir w ++ ["nginx"; "nginx"])%list)
      then ["Nginx missing"] else [] in
    let issues2 :=
      if negb (FS.path_exists (fs w) (stack_dir w ++ ["mariadb"; "bin"; "mariadbd-safe"])%list)
      then ["MariaDB missing"] else [] in
    let php_dir := (stack_dir w ++ ["php"])%list in
    php_installed ←
      (if FS.path_exists (fs w) php_dir then
         items ← fs_iterdir php_dir;
         mret (existsb (fun item =>
                 FS.is_dir (fs w) (php_dir ++ [item])%list
                 && Text.isdigit (Text.remove_char "." item)
                 && FS.path_exists (fs w) (php_dir ++ [item; "bin"; "php"])%list)
               items)
       else mret false);
    let issues3 := if negb php_installed then ["PHP missing"] else [] in
    let issues4 :=
      if negb (FS.path_exists (fs w) (stack_dir w ++ ["deps"; "lib"])%list)
      then ["Libraries missing"] else [] in
    let issues := (issues1 ++ issues2 ++ issues3 ++ issues4)%list in
    match issues with
    | [] => set_widgets (set_stack_health "Healthy")
    | _ => set_widgets (set_stack_health ("Issues: " +:+ String.concat ", " issues))
    end.

Definition update_status : M unit :=
  check_stack_health;;
  w ← get_world;
  let nginx_pid_file := (stack_dir w ++ ["nginx"; "nginx.pid"])%list in
  (if FS.path_exists (fs w) nginx_pid_file
   then set_widgets (set_nginx_status "Running")
   else set_widgets (set_nginx_status "Stopped"));;
  let php_current_link := (stack_dir w ++ ["php"; "current"])%list in
  (if FS.path_exists (fs w) php_current_link then
     let php_pid_file := (php_current_link ++ ["php-fpm.pid"])%list in
     (if FS.path_exists (fs w) php_pid_file
      then set_widgets (set_php_status "Running")
      else set_widgets (set_php_status "Stopped"));;
     match FS.realpath (fs w) php_current_link with
     | Some q => set_widgets (set_php_version (FS.name q))
     | None => set_widgets (set_php_version "Broken symlink")
     end
   else
     set_widgets (set_php_status "Not installed");;
     set_widgets (set_php_version "Unknown"));;
  running ← check_mysql_status;
  if (running : bool)
  then set_widgets (set_mysql_status "Running")
  else set_widgets (set_mysql_status "Stopped").

(** *** Starting and stopping *)

(** [with open(pid_file) as f: pid = int(f.read().strip())] and
    [os.kill(pid, signal.SIGTERM)] *)
Definition kill_from_pid_file (pid_file : path) : M unit :=
  text ← fs_read pid_file;
  pid ← py_int text;
  os_kill pid.

Definition start_service (service : service) : M unit :=
  note_call (StartCall service);;
  try_except any_exception
    (env ← get_environment;
     w ← get_world;
     f ← match service with
         | Nginx =>
             let nginx_binary := (stack_dir w ++ ["nginx"; "nginx"])%list in
             if negb (FS.path_exists (fs w) nginx_binary) then
               message_box (Warning "Start Nginx" "Nginx binary not found!");;
               mret Return
             else
               popen [FS.path_str nginx_binary];;
               mret Next
         | Php =>
             let php_current := (stack_dir w ++ ["php"; "current"])%list in
             let php_fpm := (php_current ++ ["sbin"; "php-fpm"])%list in
             if negb (FS.path_exists (fs w) php_current) then
               message_box (Warning "Start PHP"
                 "PHP 'current' symlink not found! Use 'Fix Symlinks' button.");;
               mret Return
             else if negb (FS.path_exists (fs w) php_fpm) then
               message_box (Warning "Start PHP"
                 ("PHP-FPM binary not found at " +:+ FS.path_str php_fpm));;
               mret Return
             else
               popen [FS.path_str php_fpm; "-y";
                      FS.path_str (php_current ++ ["etc"; "php-fpm.conf"])%list];;
               mret Next
         | Mysql =>
             let mariadb := (stack_dir w ++ ["mariadb"])%list in
             let mysql_safe := (mariadb ++ ["bin"; "mariadbd-safe"])%list in
             if negb (FS.path_exists (fs w) mysql_safe) then
               message_box (Warning "Start MySQL" "MariaDB binary not found!");;
               mret Return
             else
               let mysql_socket := (mariadb ++ ["mariadb.sock"])%list in
               fs_update (fun t => FS.mkdir_p t mariadb)
                         ("cannot create " +:+ FS.path_str mariadb);;
               let startup_log := (mariadb ++ ["logs"; "startup.log"])%list in
               fs_update (fun t => FS.write_file t startup_log EmptyString)
                         ("cannot open " +:+ FS.path_str startup_log);;
               popen [FS.path_str mysql_safe;
                      "--socket=" +:+ FS.path_str mysql_socket;
                      "--pid-file=" +:+ FS.path_str (mariadb ++ ["mariadb.pid"])%list;
                      "--datadir=" +:+ FS.path_str (mariadb ++ ["data"])%list];;
               mret Next
         end;
     match f with
     | Return => mret tt
     | Next => log_message ("Started " +:+ service_name service +:+ " service")
     end)
    (fun e =>
       log_message ("Error starting " +:+ service_name service +:+ ": " +:+ str_exn e);;
       message_box (Critical ("Start " +:+ service_name service)
                      ("Failed to start " +:+ service_name service +:+ ": " +:+ str_exn e))).

Definition stop_service (service : service) : M unit :=
  note_call (StopCall service);;
  try_except any_exception
    (env ← get_environment;
     w ← get_world;
     match service with
     | Nginx =>
         let nginx_pid_file := (stack_dir w ++ ["nginx"; "nginx.pid"])%list in
         if FS.path_exists (fs w) nginx_pid_file
         then kill_from_pid_file nginx_pid_file
         else mret tt
     | Php =>
         let php_pid_file := (stack_dir w ++ ["php"; "current"; "php-fpm.pid"])%list in
         if FS.path_exists (fs w) php_pid_file
         then kill_from_pid_file php_pid_file
         else mret tt
     | Mysql =>
         let mysql_admin := (stack_dir w ++ ["mariadb"; "bin"; "mariadb-admin"])%list in
         if FS.path_exists (fs w) mysql_admin then
           result ← subprocess_run (FS.path_str mysql_admin) false
                      (h_admin_shutdown (host w));
           if negb (result.1.1 =? 0)%Z then
             log_message ("Graceful shutdown failed, trying force kill: " +:+ result.2);;
             let mysql_pid_file := (stack_dir w ++ ["mariadb"; "mariadb.pid"])%list in
             if FS.path_exists (fs w) mysql_pid_file
             then kill_from_pid_file mysql_pid_file
             else mret tt
           else mret tt
         else
           log_message "MySQL admin not found, cannot stop gracefully"
     end;;
     log_message ("Stopped " +:+ service_name service +:+ " service"))
    (fun e =>
       log_message ("Error stopping " +:+ service_name service +:+ ": " +:+ str_exn e);;
       message_box (Critical ("Stop " +:+ service_name service)
                      ("Failed to stop " +:+ service_name service +:+ ": " +:+ str_exn e))).

Definition start_all_services : M unit :=
  log_message "Starting all services...";;
  w ← get_world;
  (if auto_load_env (gui w) then load_environment;; mret tt else mret tt);;
  start_service Mysql;;
  single_shot 2000 (CbStartService Php);;
  single_shot 4000 (CbStartService Nginx).


(** *** Cleaning *)

(** [p.is_file()] *)
Definition is_file (t : gmap path node) (p : path) : bool :=
  match FS.stat t p with Some (File _) => true | _ => false end.

(** [name.endswith(suffix)]: how the one-component pattern [*suffix] of
    [fnmatch] matches a name. *)
Definition ends_with (suffix s : string) : bool :=
  (String.length suffix <=? String.length s)%nat
  && String.eqb (String.substring (String.length s - String.length suffix)
                                  (String.length suffix) s) suffix.

(** [dir.glob(pattern)] for a pattern of one component: the names in the
    directory that match, listed once when the loop starts; nothing when
    [dir] is no directory. *)
Definition glob (t : gmap path node) (dir : path) (matches : string -> bool)
  : list string :=
  if FS.is_dir t dir then
    match FS.iterdir t dir with
    | Some names => List.filter matches names
    | None => []
    end
  else [].

(** A [for] loop that carries a local variable through its rounds. *)
Fixpoint for_each {A S} (body : S -> A -> M S) (l : list A) (s : S) : M S :=
  match l with
  | [] => mret s
  | x :: l' => s' ← body s x; for_each body l' s'
  end.

(** [st_size] of what [stat] returns; [dir_size] is what the file system
    reports for a directory. *)
Definition st_size (dir_size : Z) (nd : node) : Z :=
  match nd with
  | File c => Z.of_nat (String.length c)
  | _ => dir_size
  end.

Definition clean_logs (dir_size : Z) : M unit :=
  try_except any_exception
    (w ← get_world;
     let php_dir := (stack_dir w ++ ["php"])%list in
     php_log_dirs ←
       (if FS.path_exists (fs w) php_dir then
          items ← fs_iterdir php_dir;
          mret ((fun item => (php_dir ++ [item; "logs"])%list)
                  <$> List.filter (fun item => FS.is_dir (fs w) (php_dir ++ [item])%list)
                                  items)
        else mret []);
     let log_dirs :=
       ([ (stack_dir w ++ ["nginx"; "logs"])%list;
          (stack_dir w ++ ["mariadb"; "logs"])%list ] ++ php_log_dirs)%list in
     cleaned_files ←
       for_each (fun cleaned_files log_dir =>
           w ← get_world;
           if FS.path_exists (fs w) log_dir then
             for_each (fun cleaned_files name =>
                 let log_file := (log_dir ++ [name])%list in
                 w ← get_world;
                 match FS.stat (fs w) log_file with
                 | None => raise (OSError ("cannot stat " +:+ FS.path_str log_file))
                 | Some nd =>
                     if (0 <? st_size dir_size nd)%Z then
                       fs_update (fun t => FS.unlink t log_file)
                                 ("cannot unlink " +:+ FS.path_str log_file);;
                       mret (cleaned_files + 1)%Z
                     else mret cleaned_files
                 end)
               (glob (fs w) log_dir (ends_with ".log")) cleaned_files
           else mret cleaned_files)
         log_dirs 0%Z;
     log_message ("Cleaned " +:+ Text.fmt_int cleaned_files +:+ " log files");;
     message_box (Information "Clean Logs"
                    ("Cleaned " +:+ Text.fmt_int cleaned_files +:+ " log files")))
    (fun e =>
       log_message ("Error cleaning logs: " +:+ str_exn e);;
       message_box (Critical "Clean Logs" ("Failed to clean logs: " +:+ str_exn e))).

Definition clean_temp_files : M unit :=
  try_except any_exception
    (w ← get_world;
     let temp_dirs :=
       [ (stack_dir w ++ ["tmp"])%list; (stack_dir w ++ ["mariadb"; "tmp"])%list ] in
     cleaned_files ←
       for_each (fun cleaned_files temp_dir =>
           w ← get_world;
           if FS.path_exists (fs w) temp_dir then
             for_each (fun cleaned_files name =>
                 let temp_file := (temp_dir ++ [name])%list in
                 w ← get_world;
                 if is_file (fs w) temp_file then
                   fs_update (fun t => FS.unlink t temp_file)
                             ("cannot unlink " +:+ FS.path_str temp_file);;
                   mret (cleaned_files + 1)%Z
                 else mret cleaned_files)
               (glob (fs w) temp_dir (fun _ => true)) cleaned_files
           else mret cleaned_files)
         temp_dirs 0%Z;
     log_message ("Cleaned " +:+ Text.fmt_int cleaned_files +:+ " temporary files"))
    (fun e => log_message ("Error cleaning temp files: " +:+ str_exn e)).

(** *** The event loop, as far as single-shot timers go

    The loop has one thread: it gets to a pending timer when it gets to
    it, never before the timer is due and possibly later.  Among the
    pending timers the one due earliest fires first and, at equal due
    times, the one set first.  [lags] says, firing by firing, how long
    after the earliest possible moment the loop gets there; the loop ends
    when no timer is pending, or when [lags] is used up.  An exception
    escaping a callback is reported by the toolkit and the loop goes on.
    With the world it leaves, the loop gives the record of its firings:
    the time of each, and the timer fired. *)

Fixpoint pick_timer (best : nat * callback) (before after : list (nat * callback))
    (l : list (nat * callback)) : (nat * callback) * list (nat * callback) :=
  match l with
  | [] => (best, (before ++ after)%list)
  | t :: l' =>
      if (t.1 <? best.1)%nat
      then pick_timer t (before ++ best :: after)%list [] l'
      else pick_timer best before (after ++ [t])%list l'
  end.

Definition run_callback (dir_size : Z) (cb : callback) : M unit :=
  match cb with
  | CbStartService s => start_service s
  | CbStartAllServices => start_all_services
  | CbCleanLogs => clean_logs dir_size
  | CbCleanTempFiles => clean_temp_files
  end.

Fixpoint run_timers (dir_size : Z) (lags : list nat) (w : world)
  : list (nat * (nat * callback)) * world :=
  match lags with
  | [] => ([], w)
  | lag :: lags' =>
      match timers w with
      | [] => ([], w)
      | t :: l =>
          let '((due, cb), rest) := pick_timer t [] [] l in
          let time := (Nat.max (now w) due + lag)%nat in
          let w1 := set_now time (set_timers rest w) in
          let '(fired, w2) := run_timers dir_size lags' (run_callback dir_size cb w1).2 in
          ((time, (due, cb)) :: fired, w2)
      end
  end.

(** The services whose start was requested, with the time of the request. *)
Definition start_requests (cs : list (nat * call)) : list (nat * service) :=
  omap (fun c => match c.2 with StartCall s => Some (c.1, s) | StopCall _ => None end) cs.

(** *** Configuration files *)

Definition nginx_conf (w : world) : path :=
  (stack_dir w ++ ["nginx"; "conf"; "nginx.conf"])%list.

Definition nginx_config_content (root : string) (port : Z) : string :=
  "worker_processes auto;
error_log logs/error.log;
pid nginx.pid;

events {
    worker_connections 1024;
}

http {
    include mime.types;
    default_type application/octet-stream;

    sendfile on;
    keepalive_timeout 65;

    server {
        listen " +:+ Text.fmt_int port +:+ ";
        server_name localhost;
        root " +:+ root +:+ "/www;
        index index.php index.html index.htm;

        location / {
            try_files $uri $uri/ /index.php?$query_string;
        }

        location ~ \.php$ {
            fastcgi_pass unix:" +:+ root +:+ "/php/current/php-fpm.sock;
            fastcgi_index index.php;
            fastcgi_param SCRIPT_FILENAME $document_root$fastcgi_script_name;
            include fastcgi_params;
        }

        location ~ /\.ht {
            deny all;
        }
    }
}
".

Definition create_nginx_config (port : Z) : M unit :=
  w ← get_world;
  let conf_dir := (stack_dir w ++ ["nginx"; "conf"])%list in
  fs_update (fun t => FS.mkdir_p t conf_dir)
            ("cannot create " +:+ FS.path_str conf_dir);;
  let config_content := nginx_config_content (FS.path_str (stack_dir w)) port in
  fs_update (fun t => FS.write_file t (nginx_conf w) config_content)
            ("cannot open " +:+ FS.path_str (nginx_conf w));;
  log_message ("Created Nginx configuration with port " +:+ Text.fmt_int port).

Definition update_nginx_port (port : Z) : M unit :=
  w ← get_world;
  if negb (FS.path_exists (fs w) (nginx_conf w)) then
    create_nginx_config port
  else
    content ← fs_read (nginx_conf w);
    let content :=
      Regex.sub Regex.listen_re ("listen " +:+ Text.fmt_int port +:+ ";") content in
    fs_update (fun t => FS.write_file t (nginx_conf w) content)
              ("cannot open " +:+ FS.path_str (nginx_conf w));;
    log_message ("Updated Nginx port to " +:+ Text.fmt_int port).

Definition mysql_cnf (w : world) : path :=
  (stack_dir w ++ ["mariadb"; "my.cnf"])%list.

Definition my_cnf_content (mysql_dir : string) (current_port : Z) : string :=
  "[client]
port=" +:+ Text.fmt_int current_port +:+ "
socket=" +:+ mysql_dir +:+ "/mariadb.sock

[mysqld]
basedir=" +:+ mysql_dir +:+ "
datadir=" +:+ mysql_dir +:+ "/data
port=" +:+ Text.fmt_int current_port +:+ "
socket=" +:+ mysql_dir +:+ "/mariadb.sock
pid-file=" +:+ mysql_dir +:+ "/mariadb.pid
log-error=" +:+ mysql_dir +:+ "/logs/error.log
tmpdir=" +:+ mysql_dir +:+ "/tmp

# Security - prevent using system socket
skip-networking
bind-address=127.0.0.1

# Performance
innodb_buffer_pool_size=16M
innodb_log_file_size=48M

# Explicitly disable system socket usage
loose-skip-symbolic-links=1

[mariadb]
socket=" +:+ mysql_dir +:+ "/mariadb.sock

[mariadbd]
socket=" +:+ mysql_dir +:+ "/mariadb.sock

[mysql]
socket=" +:+ mysql_dir +:+ "/mariadb.sock

[mysqladmin]
socket=" +:+ mysql_dir +:+ "/mariadb.sock

[mysqldump]
socket=" +:+ mysql_dir +:+ "/mariadb.sock

[mysqlimport]
socket=" +:+ mysql_dir +:+ "/mariadb.sock

[mysqlshow]
socket=" +:+ mysql_dir +:+ "/mariadb.sock

[mysqlcheck]
socket=" +:+ mysql_dir +:+ "/mariadb.sock
".

Definition fix_mysql_socket : M unit :=
  try_except any_exception
    (w ← get_world;
     let mysql_dir := (stack_dir w ++ ["mariadb"])%list in
     let my_cnf := (mysql_dir ++ ["my.cnf"])%list in
     let current_port := mysql_port (gui w) in
     let my_cnf_content := my_cnf_content (FS.path_str mysql_dir) current_port in
     fs_update (fun t => FS.write_file t my_cnf my_cnf_content)
               ("cannot open " +:+ FS.path_str my_cnf);;
     log_message "Created comprehensive MySQL configuration file";;
     fs_update (fun t => FS.mkdir_p t (mysql_dir ++ ["logs"])%list)
               ("cannot create " +:+ FS.path_str (mysql_dir ++ ["logs"])%list);;
     fs_update (fun t => FS.mkdir_p t (mysql_dir ++ ["tmp"])%list)
               ("cannot create " +:+ FS.path_str (mysql_dir ++ ["tmp"])%list);;
     fs_update (fun t => FS.mkdir_p t (mysql_dir ++ ["data"])%list)
               ("cannot create " +:+ FS.path_str (mysql_dir ++ ["data"])%list);;
     message_box (Information "Fix MySQL Socket"
                    "MySQL socket configuration completely fixed!"))
    (fun e =>
       log_message ("Error fixing MySQL socket: " +:+ str_exn e);;
       message_box (Critical "Fix MySQL Socket"
                      ("Failed to fix MySQL socket: " +:+ str_exn e))).

Definition update_mysql_port (port : Z) : M unit :=
  w ← get_world;
  if negb (FS.path_exists (fs w) (mysql_cnf w)) then
    fix_mysql_socket
  else
    content ← fs_read (mysql_cnf w);
    let content :=
      Regex.sub Regex.port_re ("port = " +:+ Text.fmt_int port) content in
    let content :=
      Regex.sub Regex.port_re ("port = " +:+ Text.fmt_int port) content in
    fs_update (fun t => FS.write_file t (mysql_cnf w) content)
              ("cannot open " +:+ FS.path_str (mysql_cnf w));;
    log_message ("Updated MySQL port to " +:+ Text.fmt_int port).

(** *** PHP versions *)

(** The loop shared by [populate_php_versions] and [fix_php_symlinks]:
    of the entries of the PHP directory, in listing order, those that are
    directories, look like a version and hold [bin/php]. *)
Definition installed_versions (w : world) (items : list string) : list string :=
  let php_dir := (stack_dir w ++ ["php"])%list in
  List.filter (fun item =>
      FS.is_dir (fs w) (php_dir ++ [item])%list
      && looks_like_version item
      && FS.path_exists (fs w) (php_dir ++ [item; "bin"; "php"])%list)
    items.

Definition populate_php_versions : M unit :=
  set_widgets (set_php_version_combo []);;
  w ← get_world;
  let php_dir := (stack_dir w ++ ["php"])%list in
  (if FS.path_exists (fs w) php_dir then
     items ← fs_iterdir php_dir;
     set_widgets (set_php_version_combo (installed_versions w items))
   else mret tt);;
  w ← get_world;
  match php_version_combo (gui w) with
  | [] =>
      let current_link := (php_dir ++ ["current"])%list in
      if FS.path_exists (fs w) current_link && FS.is_symlink (fs w) current_link then
        match FS.realpath (fs w) current_link with
        | Some q => set_widgets (set_php_version_combo [FS.name q])
        | None => mret tt
        end
      else mret tt
  | _ => mret tt
  end.

Definition fix_php_symlinks : M unit :=
  w ← get_world;
  let php_dir := (stack_dir w ++ ["php"])%list in
  let current_link := (php_dir ++ ["current"])%list in
  if negb (FS.path_exists (fs w) php_dir) then
    message_box (Warning "Fix Symlinks" "PHP directory not found!")
  else
    items ← fs_iterdir php_dir;
    let php_versions := installed_versions w items in
    match php_versions with
    | [] => message_box (Warning "Fix Symlinks" "No valid PHP installations found!")
    | target_version :: _ =>
        (if FS.path_exists (fs w) current_link || FS.is_symlink (fs w) current_link then
           try_except any_exception
             (if FS.is_symlink (fs w) current_link
              then fs_update (fun t => FS.unlink t current_link)
                             ("cannot unlink " +:+ FS.path_str current_link)
              else fs_update (fun t => FS.rmtree t current_link)
                             ("cannot remove " +:+ FS.path_str current_link))
             (fun e => log_message ("Error removing old symlink: " +:+ str_exn e))
         else mret tt);;
        try_except any_exception
          (fs_update (fun t => FS.symlink_to t current_link (php_dir ++ [target_version])%list)
                     ("cannot create link " +:+ FS.path_str current_link);;
           log_message ("Fixed PHP symlink to version " +:+ target_version);;
           message_box (Information "Fix Symlinks"
                          ("PHP symlink fixed to version " +:+ target_version)))
          (fun e =>
             log_message ("Error creating symlink: " +:+ str_exn e);;
             message_box (Critical "Fix Symlinks"
                            ("Failed to create symlink: " +:+ str_exn e)))
    end.

(** ** Notions used in the statements *)

(** A line of [env]'s output assigns [key]. *)
Definition defines (out key : string) : Prop :=
  exists line, line ∈ Text.splitlines out /\ Text.contains "=" line = true
               /\ (Text.split1 "=" line).1 = key.

(** [m] moves every world to one that [R] relates to it, whether it
    returns or raises. *)
Definition keeps {A} (R : world -> world -> Prop) (m : M A) : Prop :=
  forall w, R w (m w).2.

(** The component [proj] of the world is left as it was. *)
Definition same {B} (proj : world -> B) : world -> world -> Prop :=
  fun w w' => proj w' = proj w.

(** The audit log can be opened: the stack root is a directory. *)
Definition log_writable (w : world) : Prop :=
  FS.is_dir (fs w) (stack_dir w) = true.

Definition stays_writable : world -> world -> Prop :=
  fun w w' => stack_dir w' = stack_dir w /\ (log_writable w -> log_writable w').

(** The three status labels. *)
Definition status_labels (g : widgets) : string * string * string :=
  (nginx_status g, php_status g, mysql_status g).


(** Environment resolution returns (it raises only when the helper shell
    cannot be started). *)
Definition env_resolves (w : world) : Prop :=
  FS.path_exists (fs w) (stack_dir w ++ ["env.sh"])%list = false
  \/ exists code out err, h_source_env (host w) = Exited code out err.

(** The world after [n] further rounds of the status timer. *)
Fixpoint after_probes (n : nat) (w : world) : world :=
  match n with
  | O => w
  | S n' => after_probes n' (update_status w).2
  end.

(** Two worlds that offer the same to read: stack root, file tree,
    inherited environment and surroundings. *)
Definition same_inputs (w1 w2 : world) : Prop :=
  stack_dir w1 = stack_dir w2 /\ fs w1 = fs w2
  /\ environ w1 = environ w2 /\ host w1 = host w2.

Definition mysql_socket (w : world) : path :=
  (stack_dir w ++ ["mariadb"; "mariadb.sock"])%list.

(** Every port directive of a database configuration carries one value. *)
Definition ports_agree (content : string) : Prop :=
  forall x y, x ∈ Regex.port_values content -> y ∈ Regex.port_values content -> x = y.

(** The stack root as it is spelled in front of a further component. *)
Definition root_prefix (w : world) : string :=
  match stack_dir w with
  | [] => EmptyString
  | _ => FS.path_str (stack_dir w)
  end.

(** Names made of digits and dots only. *)
Definition digits_and_dots (s : string) : bool :=
  Text.forallb_str (fun c => Text.is_digit_char c || Ascii.eqb "." c) s.

(** The directory the PHP versions live in. *)
Definition php_dir (w : world) : path := (stack_dir w ++ ["php"])%list.

(** Every link of [w'] was there in [w] or points to [target]. *)
Definition links_from (target : path) (w w' : world) : Prop :=
  forall k tg, fs w' !! k = Some (Symlink tg) ->
               fs w !! k = Some (Symlink tg) \/ tg = target.

(** What the two patterns capture in the text they are replaced by, and
    a text before which a run of digits ends. *)
Definition listen_caps (n : Z) : list string :=
  ["l"; "i"; "s"; "t"; "e"; "n"; " "; Text.fmt_int n; ";"].

Definition stops_digit (t : string) : Prop :=
  match t with String c _ => Text.re_digit c = false | EmptyString => True end.

Definition port_caps (n : Z) : list string :=
  ["p"; "o"; "r"; "t"; " "; "="; " "; Text.fmt_int n].

(** ** Sample worlds *)

Module Examples.

Definition root : path := ["home"; "dev"; "webstack"].

(** Surroundings in which nothing answers: sourcing succeeds with the
    given output, the database client reports failure, signals and
    spawns go through. *)
Definition host_with (env_out : string) : host_model :=
  Host (Exited 0 env_out EmptyString)
       (Exited 1 EmptyString "mariadb-admin: connect to server failed")
       (Exited 1 EmptyString "mariadb-admin: connect to server failed")
       (fun _ => None) (fun _ => None) Text.parse_int
       (fun _ => "2024-01-01 00:00:00").

Definition blank : widgets :=
  Widgets "Stopped" "Stopped" "Stopped" EmptyString EmptyString [] 3306 false
          EmptyString EmptyString.

Definition world_of (t : list (path * node)) (h : host_model) : world :=
  World root (list_to_map t) [] ∅ 0 [] [] [] [] blank [] h.

Definition base : list (path * node) :=
  [ (["home"], Dir); (["home"; "dev"], Dir); (root, Dir) ].

(** Nothing installed, nothing running. *)
Definition idle : world := world_of base (host_with EmptyString).

(** The database socket file is there. *)
Definition with_socket : world :=
  world_of (base ++ [ ((root ++ ["mariadb"])%list, Dir);
                      ((root ++ ["mariadb"; "mariadb.sock"])%list, File EmptyString) ])
           (host_with EmptyString).

(** An [env.sh] whose environment has no stack variables. *)
Definition with_env_sh : world :=
  world_of (base ++ [ ((root ++ ["env.sh"])%list, File "export FOO=bar") ])
           (host_with "FOO=bar").

Definition php_install (version : string) : list (path * node) :=
  [ ((root ++ ["php"; version])%list, Dir);
    ((root ++ ["php"; version; "bin"])%list, Dir);
    ((root ++ ["php"; version; "bin"; "php"])%list, File EmptyString) ].

(** PHP 8.3 installed and current. *)
Definition with_php : world :=
  world_of (base ++ [ ((root ++ ["php"])%list, Dir) ] ++ php_install "8.3"
              ++ [ ((root ++ ["php"; "current"])%list,
                    Symlink (root ++ ["php"; "8.3"])%list) ])%list
           (host_with EmptyString).

(** The only PHP directory carries a three-part version number. *)
Definition with_long_version : world :=
  world_of (base ++ [ ((root ++ ["php"])%list, Dir) ] ++ php_install "8.3.10"
              ++ [ ((root ++ ["php"; "current"])%list,
                    Symlink (root ++ ["php"; "8.3.10"])%list) ])%list
           (host_with EmptyString).

(** A database PID file, and no administrative client. *)
Definition with_mysql_pid : world :=
  world_of (base ++ [ ((root ++ ["mariadb"])%list, Dir);
                      ((root ++ ["mariadb"; "mariadb.pid"])%list, File "4242") ])
           (host_with EmptyString).

(** A gateway configuration with one [listen] directive. *)
Definition with_nginx_conf : world :=
  world_of (base ++ [ ((root ++ ["nginx"])%list, Dir);
                      ((root ++ ["nginx"; "conf"])%list, Dir);
                      ((root ++ ["nginx"; "conf"; "nginx.conf"])%list,
                       File "server { listen 80; }") ])
           (host_with EmptyString).

(** No [env.sh]; the private [lib] and [bin] and the system [bin]
    exist. *)
Definition with_deps : world :=
  world_of (base ++ [ ((root ++ ["deps"])%list, Dir);
                      ((root ++ ["deps"; "lib"])%list, Dir);
                      ((root ++ ["deps"; "bin"])%list, Dir);
                      (["usr"], Dir); (["usr"; "bin"], Dir) ])
           (host_with EmptyString).

(** [with_env_sh], with the environment loaded on every start. *)
Definition autoload : world :=
  set_gui (Widgets "Stopped" "Stopped" "Stopped" EmptyString EmptyString [] 3306 true
                   EmptyString EmptyString)
          with_env_sh.

(** A database configuration whose two sections disagree. *)
Definition with_my_cnf : world :=
  world_of (base ++ [ ((root ++ ["mariadb"])%list, Dir);
                      ((root ++ ["mariadb"; "my.cnf"])%list,
                       File "[client] port=3306 [mysqld] port = 3307") ])
           (host_with EmptyString).

End Examples.

(** The entries of a search-path variable, as the loader and the shell
    read it: the pieces between the colons. *)
Definition search_path_entries (value : string) : list string :=
  Text.split_on ":" value.

(** [value] holds the directories [dirs], in that order, as its first
    entries, and after them the entries of the inherited value [old],
    where there is one.  With no directory to hold, [value] is empty, or
    a colon and the inherited value. *)
Definition holds_prepended (value : string) (dirs : list path) (old : option string)
  : Prop :=
  match dirs with
  | [] => value = match old with Some o => ":" +:+ o | None => EmptyString end
  | _ =>
      search_path_entries value
      = ((FS.path_str <$> dirs)
         ++ match old with Some o => search_path_entries o | None => [] end)%list
  end.

(** Whether a timer is one for [start_all_services]. *)
Definition is_start_all (t : nat * callback) : bool :=
  match t.2 with CbStartAllServices => true | _ => false end.

(** Firings after which no timer now pending, and none armed by one of
    them, is still pending: each pending timer fires once, and a pending
    [start_all_services] arms two more. *)
Definition rounds_needed (w : world) : nat :=
  (List.length (timers w) + 2 * List.length (List.filter is_start_all (timers w)))%nat.

(** The start requests that the firings of a record stand for. *)
Definition start_calls_of (fired : list (nat * (nat * callback))) : list (nat * call) :=
  omap (fun f => match f.2.2 with
                 | CbStartService s => Some (f.1, StartCall s)
                 | _ => None
                 end) fired.

(** The [current] indirection: [<root>/php/current]. *)
Definition current_link (w : world) : path :=
  (stack_dir w ++ ["php"; "current"])%list.

(** Between two worlds, no entry of the file tree differs except the
    [current] indirection itself: the one entry that [<root>/php/current]
    names in the first world, its directory part resolved and its last
    component not followed.  Where the path names no entry, nothing
    differs at all. *)
Definition only_current_differs (w w' : world) : Prop :=
  forall k, FS.lpath (fs w) (current_link w) <> Some k -> fs w' !! k = fs w !! k.

(** The same, with what makes it compose: the root is the same and the
    path names no other entry afterwards. *)
Definition current_frame (w w' : world) : Prop :=
  stack_dir w' = stack_dir w
  /\ only_current_differs w w'
  /\ forall q, FS.lpath (fs w') (current_link w') = Some q ->
               FS.lpath (fs w) (current_link w) = Some q.

(** [current_frame], from the worlds whose root is [root]. *)
Definition current_frame_at (root : path) (w w' : world) : Prop :=
  stack_dir w = root -> current_frame w w'.

(** * Proofs *)

(** * Facts about texts *)

Module TextFacts.
Import Text.

Lemma append_assoc (a b c : string) : (a +:+ b) +:+ c = a +:+ (b +:+ c).
Proof. induction a as [|x a IH]; simpl; [reflexivity | by rewrite IH]. Qed.

Lemma append_nil_r (a : string) : a +:+ "" = a.
Proof. induction a as [|x a IH]; simpl; [reflexivity | by rewrite IH]. Qed.

Lemma length_append (a b : string) :
  String.length (a +:+ b) = (String.length a + String.length b)%nat.
Proof. induction a as [|x a IH]; simpl; [reflexivity | by rewrite IH]. Qed.

Lemma span_spec p s a b :
  span p s = (a, b) ->
  s = a +:+ b /\ forallb_str p a = true /\
  match b with String c _ => p c = false | EmptyString => True end.
Proof.
  revert a b. induction s as [|c s IH]; simpl; intros a b H.
  - inversion H; subst. auto.
  - destruct (p c) eqn:Hc.
    + destruct (span p s) as [a' b'] eqn:E. inversion H; subst.
      destruct (IH _ _ eq_refl) as (-> & Ha & Hb). simpl. rewrite Hc. auto.
    + inversion H; subst. simpl. auto.
Qed.

Lemma span_length p s a b :
  span p s = (a, b) -> (String.length b <= String.length s)%nat.
Proof.
  intros H. apply span_spec in H as (-> & _ & _). rewrite length_append. lia.
Qed.

Lemma span_append p a b :
  forallb_str p a = true ->
  match b with String c _ => p c = false | EmptyString => True end ->
  span p (a +:+ b) = (a, b).
Proof.
  induction a as [|c a IH]; simpl; intros Ha Hb.
  - destruct b as [|c b]; simpl; [reflexivity | by rewrite Hb].
  - apply andb_prop in Ha as [Hc Ha]. rewrite Hc, (IH Ha Hb). reflexivity.
Qed.

(** Decimal rendering of a natural number: digits only, at least one. *)
Lemma string_of_uint_digits d :
  forallb_str re_digit (NilEmpty.string_of_uint d) = true.
Proof. induction d; simpl; auto. Qed.

Lemma string_of_uint_nonempty d :
  d <> Decimal.Nil -> NilEmpty.string_of_uint d <> "".
Proof. destruct d; simpl; congruence. Qed.

Lemma pos_to_uint_nonnil p : Pos.to_uint p <> Decimal.Nil.
Proof.
  intros H. pose proof (Unsigned.of_to p) as E. rewrite H in E. simpl in E.
  discriminate.
Qed.

Lemma fmt_int_digits (n : Z) :
  (0 <= n)%Z ->
  fmt_int n <> "" /\ forallb_str re_digit (fmt_int n) = true.
Proof.
  intros Hn. unfold fmt_int. destruct n as [|p|p]; simpl; [split; [discriminate | reflexivity] | | lia].
  pose proof (pos_to_uint_nonnil p) as Hp.
  destruct (Pos.to_uint p) eqn:E; try congruence; simpl;
    (split; [discriminate | apply (string_of_uint_digits)]).
Qed.

Lemma parse_fmt_int (n : Z) : parse_int (fmt_int n) = Some n.
Proof.
  unfold parse_int, fmt_int. rewrite NilZero.isi.
  - simpl. by rewrite DecimalZ.of_to.
  - destruct n; simpl; try discriminate. intros H. inversion H.
    by apply pos_to_uint_nonnil in H1.
  - destruct n; simpl; try discriminate. intros H. inversion H.
    by apply pos_to_uint_nonnil in H1.
Qed.

(** *** Splitting at a separator *)

Lemma split_on_cons sep s : exists x l, split_on sep s = x :: l.
Proof.
  destruct s as [|c s]; simpl; [by eexists _, _|].
  destruct (Ascii.eqb sep c); [by eexists _, _|].
  destruct (split_on sep s); by eexists _, _.
Qed.

Lemma split_on_free sep s : contains sep s = false -> split_on sep s = [s].
Proof.
  unfold contains. induction s as [|c s IH]; simpl; [done|].
  intros H. apply orb_false_iff in H as [Hc Hs]. rewrite Hc, (IH Hs). done.
Qed.

Lemma split_on_app sep a b :
  split_on sep (a +:+ String sep b) = (split_on sep a ++ split_on sep b)%list.
Proof.
  induction a as [|c a IH]; simpl.
  - by rewrite Ascii.eqb_refl.
  - destruct (Ascii.eqb sep c); [by rewrite IH|].
    rewrite IH. destruct (split_on_cons sep a) as (x & l & ->). done.
Qed.

End TextFacts.

(** * Facts about matching and substitution *)

Module RegexFacts.
Import Text Regex TextFacts.

Lemma match_here_length pat : forall s caps r,
  match_here pat s = Some (caps, r) ->
  (String.length r <= String.length s)%nat.
Proof.
  induction pat as [|[c|one cls] pat IH]; simpl; intros s caps r H.
  - inversion H; subst. lia.
  - destruct s as [|c' s]; [discriminate|].
    destruct (Ascii.eqb c c'); [|discriminate].
    destruct (match_here pat s) as [[caps' r']|] eqn:E; [|discriminate].
    inversion H; subst. apply IH in E. simpl. lia.
  - destruct (span cls s) as [a b] eqn:Es.
    apply span_length in Es.
    assert (forall x, match match_here pat b with
                      | Some (caps0, r0) => Some (a :: caps0, r0)
                      | None => None end = Some x ->
                      (String.length x.2 <= String.length s)%nat) as Hx.
    { intros [caps' r'] Hm. destruct (match_here pat b) as [[c1 r1]|] eqn:E;
        [|discriminate]. inversion Hm; subst. apply IH in E. simpl. lia. }
    destruct one, a; try discriminate; apply (Hx _ H).
Qed.

(** A pattern that starts with a literal consumes something. *)
Lemma match_lit_shorter c pat s caps r :
  match_here (Lit c :: pat) s = Some (caps, r) ->
  (String.length r < String.length s)%nat.
Proof.
  simpl. destruct s as [|c' s]; [discriminate|].
  destruct (Ascii.eqb c c'); [|discriminate].
  destruct (match_here pat s) as [[caps' r']|] eqn:E; [|discriminate].
  intros H; inversion H; subst. apply match_here_length in E. simpl. lia.
Qed.

Lemma match_lit_head c pat c' s caps r :
  match_here (Lit c :: pat) (String c' s) = Some (caps, r) -> c' = c.
Proof.
  simpl. destruct (Ascii.eqb c c') eqn:E; [|discriminate].
  intros _. by apply Ascii.eqb_eq in E.
Qed.

Section Scan.
Variables (c0 : ascii) (tail : list atom) (repl : string).
Let pat := Lit c0 :: tail.

Lemma sub_steps_enough : forall n m s,
  (String.length s <= n)%nat -> (String.length s <= m)%nat ->
  sub_steps n pat repl s = sub_steps m pat repl s.
Proof.
  induction n as [|n IH]; intros m s Hn Hm.
  - destruct s; simpl in Hn; [|lia]. destruct m; reflexivity.
  - destruct m as [|m]; [destruct s; simpl in Hm; [reflexivity | lia]|].
    cbn [sub_steps]. destruct s as [|c s]; [reflexivity|].
    destruct (match_here pat (String c s)) as [[caps r]|] eqn:E.
    + apply match_lit_shorter in E. simpl in *.
      rewrite (IH m r) by lia. reflexivity.
    + simpl in *. rewrite (IH m s) by lia. reflexivity.
Qed.

Lemma sub_cons c s :
  sub pat repl (String c s) =
  match match_here pat (String c s) with
  | Some (_, r) => repl +:+ sub pat repl r
  | None => String c (sub pat repl s)
  end.
Proof.
  unfold sub. cbn [String.length sub_steps].
  destruct (match_here pat (String c s)) as [[caps r]|] eqn:E.
  - apply match_lit_shorter in E. simpl in E.
    rewrite (sub_steps_enough (String.length s) (String.length r)) by lia.
    reflexivity.
  - reflexivity.
Qed.

Lemma findall_steps_enough : forall n m s,
  (String.length s <= n)%nat -> (String.length s <= m)%nat ->
  findall_steps n pat s = findall_steps m pat s.
Proof.
  induction n as [|n IH]; intros m s Hn Hm.
  - destruct s; simpl in Hn; [|lia]. destruct m; reflexivity.
  - destruct m as [|m]; [destruct s; simpl in Hm; [reflexivity | lia]|].
    cbn [findall_steps]. destruct s as [|c s]; [reflexivity|].
    destruct (match_here pat (String c s)) as [[caps r]|] eqn:E.
    + apply match_lit_shorter in E. simpl in *.
      rewrite (IH m r) by lia. reflexivity.
    + simpl in *. rewrite (IH m s) by lia. reflexivity.
Qed.

Lemma findall_cons c s :
  findall pat (String c s) =
  match match_here pat (String c s) with
  | Some (caps, r) => caps :: findall pat r
  | None => findall pat s
  end.
Proof.
  unfold findall. cbn [String.length findall_steps].
  destruct (match_here pat (String c s)) as [[caps r]|] eqn:E.
  - apply match_lit_shorter in E. simpl in E.
    rewrite (findall_steps_enough (String.length s) (String.length r)) by lia.
    reflexivity.
  - reflexivity.
Qed.

(** No match can begin inside a text that lacks the first character. *)
Lemma findall_skip u t :
  contains c0 u = false -> findall pat (u +:+ t) = findall pat t.
Proof.
  induction u as [|c u IH]; simpl; intros H; [reflexivity|].
  apply orb_false_elim in H as [Hc Hu].
  rewrite findall_cons. simpl. rewrite Hc. auto.
Qed.

Hypothesis repl_head : exists r, repl = String c0 r.
Hypothesis tail_fresh : forallb (rejects c0) tail = true.

Lemma sub_sim s : sim c0 s (sub pat repl s).
Proof.
  induction s as [|c s IH]; [constructor|].
  rewrite sub_cons.
  destruct (match_here pat (String c s)) as [[caps r]|] eqn:E.
  - apply match_lit_head in E as ->. destruct repl_head as [r' ->].
    simpl. constructor.
  - by constructor.
Qed.

Lemma span_sim cls s t :
  cls c0 = false -> sim c0 s t ->
  exists a b b', span cls s = (a, b) /\ span cls t = (a, b') /\ sim c0 b b'.
Proof.
  intros Hc H. induction H as [|s t|c s t H IH]; simpl.
  - exists "", "", "". repeat split; constructor.
  - rewrite Hc. exists "", (String c0 s), (String c0 t).
    repeat split; constructor.
  - destruct (cls c) eqn:E.
    + destruct IH as (a & b & b' & -> & -> & Hs).
      exists (String c a), b, b'. auto.
    + exists "", (String c s), (String c t). repeat split. by constructor.
Qed.

Lemma match_sim tl : forallb (rejects c0) tl = true -> forall s t,
  sim c0 s t ->
  match match_here tl s, match_here tl t with
  | None, None => True
  | Some (caps, r), Some (caps', r') => caps = caps' /\ sim c0 r r'
  | _, _ => False
  end.
Proof.
  induction tl as [|[c|one cls] tl IH]; intros Hf s t Hs; simpl in *.
  - auto.
  - apply andb_prop in Hf as [Hc Hf]. apply negb_true_iff in Hc.
    inversion Hs; subst.
    + trivial.
    + by rewrite Hc.
    + destruct (Ascii.eqb c c1); [|trivial].
      specialize (IH Hf _ _ H).
      destruct (match_here tl s0) as [[? ?]|], (match_here tl t0) as [[? ?]|];
        try done. destruct IH as [-> ?]. auto.
  - apply andb_prop in Hf as [Hc Hf]. apply negb_true_iff in Hc.
    destruct (span_sim cls s t Hc Hs) as (a & b & b' & -> & -> & Hb).
    specialize (IH Hf _ _ Hb).
    destruct one, a; try done;
      destruct (match_here tl b) as [[? ?]|], (match_here tl b') as [[? ?]|];
      try done; destruct IH as [-> ?]; auto.
Qed.

(** Substituting further to the right creates no match to the left. *)
Lemma match_none_sub c s :
  match_here pat (String c s) = None ->
  match_here pat (String c (sub pat repl s)) = None.
Proof.
  simpl. destruct (Ascii.eqb c0 c); [|done].
  pose proof (match_sim tail tail_fresh _ _ (sub_sim s)) as H.
  destruct (match_here tail s) as [[? ?]|],
           (match_here tail (sub pat repl s)) as [[? ?]|]; done.
Qed.

Variable ok : string -> Prop.
Variable rcaps : list string.
Hypothesis ok_rest : forall s caps r, match_here pat s = Some (caps, r) -> ok r.
Hypothesis ok_sim : forall r r', sim c0 r r' -> ok r -> ok r'.
Hypothesis repl_match : forall t, ok t ->
  match_here pat (repl +:+ t) = Some (rcaps, t).

Lemma findall_repl t : ok t ->
  findall pat (repl +:+ t) = rcaps :: findall pat t.
Proof.
  intros Ht. pose proof (repl_match t Ht) as H.
  destruct repl_head as [r' Hr].
  assert (repl +:+ t = String c0 (r' +:+ t)) as Hrt by (by rewrite Hr).
  rewrite Hrt at 1. rewrite findall_cons, <- Hrt, H. reflexivity.
Qed.

Lemma sub_repl t : ok t ->
  sub pat repl (repl +:+ t) = repl +:+ sub pat repl t.
Proof.
  intros Ht. pose proof (repl_match t Ht) as H.
  destruct repl_head as [r' Hr].
  assert (repl +:+ t = String c0 (r' +:+ t)) as Hrt by (by rewrite Hr).
  rewrite Hrt at 1. rewrite sub_cons, <- Hrt, H. reflexivity.
Qed.

(** Every match is replaced, and the replacements are the only matches
    of the result. *)
Theorem findall_sub s :
  findall pat (sub pat repl s) = (fun _ => rcaps) <$> findall pat s.
Proof.
  remember (String.length s) as n eqn:Hn.
  revert s Hn. induction n as [n IH] using lt_wf_ind. intros s Hn.
  destruct s as [|c s]; [reflexivity|].
  rewrite sub_cons, (findall_cons c s).
  destruct (match_here pat (String c s)) as [[caps r]|] eqn:E.
  - rewrite findall_repl.
    + pose proof (match_lit_shorter _ _ _ _ _ E) as Hl.
      rewrite (IH (String.length r)); [reflexivity | lia | reflexivity].
    + eapply ok_sim; [apply sub_sim | eapply ok_rest, E].
  - rewrite findall_cons, (match_none_sub _ _ E).
    apply (IH (String.length s)); [simpl in Hn; lia | reflexivity].
Qed.

(** A second pass changes nothing. *)
Theorem sub_idempotent s :
  sub pat repl (sub pat repl s) = sub pat repl s.
Proof.
  remember (String.length s) as n eqn:Hn.
  revert s Hn. induction n as [n IH] using lt_wf_ind. intros s Hn.
  destruct s as [|c s]; [reflexivity|].
  rewrite (sub_cons c s).
  destruct (match_here pat (String c s)) as [[caps r]|] eqn:E.
  - rewrite sub_repl.
    + pose proof (match_lit_shorter _ _ _ _ _ E) as Hl.
      rewrite (IH (String.length r)); [reflexivity | lia | reflexivity].
    + eapply ok_sim; [apply sub_sim | eapply ok_rest, E].
  - rewrite sub_cons, (match_none_sub _ _ E).
    f_equal. apply (IH (String.length s)); [simpl in Hn; lia | reflexivity].
Qed.

End Scan.


(** A text without a literal the pattern needs, followed by a character
    the whole pattern refuses, contains no beginning of a match. *)
Lemma span_blocked cls c u t :
  cls c = false ->
  exists a u', u = a +:+ u' /\ span cls (u +:+ String c t) = (a, u' +:+ String c t).
Proof.
  intros Hc. induction u as [|x u IH]; simpl.
  - rewrite Hc. by exists "", "".
  - destruct (cls x) eqn:E.
    + destruct IH as (a & u' & -> & ->). by exists (String x a), u'.
    + by exists "", (String x u).
Qed.

Lemma contains_append d a b :
  contains d (a +:+ b) = contains d a || contains d b.
Proof.
  unfold contains. induction a as [|x a IH]; simpl; [reflexivity|].
  by rewrite IH, orb_assoc.
Qed.

Lemma match_blocked d c t pat : forall u,
  In (Lit d) pat -> contains d u = false ->
  forallb (rejects c) pat = true ->
  match_here pat (u +:+ String c t) = None.
Proof.
  induction pat as [|[a|one cls] pat IH]; intros u Hin Hu Hrej; simpl in *.
  - done.
  - apply andb_prop in Hrej as [Ha Hrej]. apply negb_true_iff in Ha.
    destruct u as [|x u]; simpl.
    + by rewrite Ha.
    + destruct (Ascii.eqb a x) eqn:E; [|reflexivity].
      apply Ascii.eqb_eq in E as ->.
      unfold contains in Hu. simpl in Hu.
      apply orb_false_elim in Hu as [Hx Hu].
      destruct Hin as [Hd|Hin].
      * inversion Hd; subst. by rewrite Ascii.eqb_refl in Hx.
      * by rewrite (IH u Hin Hu Hrej).
  - apply andb_prop in Hrej as [Hc Hrej]. apply negb_true_iff in Hc.
    destruct Hin as [Hd|Hin]; [discriminate|].
    destruct (span_blocked cls c u t Hc) as (a & u' & -> & ->).
    rewrite contains_append in Hu. apply orb_false_elim in Hu as [_ Hu].
    rewrite (IH u' Hin Hu Hrej). by destruct one, a.
Qed.

Lemma findall_blocked c0 tail d c t : forall u,
  In (Lit d) (Lit c0 :: tail) -> contains d u = false ->
  forallb (rejects c) (Lit c0 :: tail) = true ->
  findall (Lit c0 :: tail) (u +:+ String c t)
  = findall (Lit c0 :: tail) (String c t).
Proof.
  induction u as [|x u IH]; intros Hin Hu Hrej; [reflexivity|].
  change (String x u +:+ String c t) with (String x (u +:+ String c t)).
  rewrite findall_cons.
  change (String x (u +:+ String c t)) with (String x u +:+ String c t).
  rewrite (match_blocked d c t _ (String x u) Hin Hu Hrej).
  apply IH; auto. unfold contains in *. simpl in Hu.
  by apply orb_false_elim in Hu as [_ ?].
Qed.

Lemma findall_none c0 tail c s :
  match_here (Lit c0 :: tail) (String c s) = None ->
  findall (Lit c0 :: tail) (String c s) = findall (Lit c0 :: tail) s.
Proof. intros H. by rewrite findall_cons, H. Qed.

Lemma findall_some c0 tail c s caps r :
  match_here (Lit c0 :: tail) (String c s) = Some (caps, r) ->
  findall (Lit c0 :: tail) (String c s) = caps :: findall (Lit c0 :: tail) r.
Proof. intros H. by rewrite findall_cons, H. Qed.

Lemma digit_not_space c : re_digit c = true -> is_space c = false.
Proof.
  unfold re_digit, is_space. intros H.
  apply andb_prop in H as [H1 H2].
  apply Nat.leb_le in H1. apply Nat.leb_le in H2.
  repeat match goal with
         | |- context [(?a <=? ?b)%nat] => destruct (Nat.leb_spec a b)
         | |- context [(?a =? ?b)%nat] => destruct (Nat.eqb_spec a b)
         end; simpl; try reflexivity; lia.
Qed.

(** A text that begins with a decimal numeral. *)
Lemma span_digits_fmt (n : Z) t :
  (0 <= n)%Z ->
  match t with String c _ => re_digit c = false | EmptyString => True end ->
  span re_digit (fmt_int n +:+ t) = (fmt_int n, t).
Proof. intros Hn Ht. apply span_append; [apply fmt_int_digits |]; done. Qed.

Lemma fmt_int_stops_space (n : Z) t :
  (0 <= n)%Z ->
  match fmt_int n +:+ t with
  | String c _ => is_space c = false
  | EmptyString => True
  end.
Proof.
  intros Hn. destruct (fmt_int_digits n Hn) as [Hne Hd].
  destruct (fmt_int n) as [|c s]; [done|]. simpl in *.
  apply andb_prop in Hd as [Hc _]. by apply digit_not_space.
Qed.

Lemma match_lit c pat s :
  match_here (Lit c :: pat) (String c s) =
  match match_here pat s with
  | Some (caps, r) => Some (String c EmptyString :: caps, r)
  | None => None
  end.
Proof. simpl. by rewrite Ascii.eqb_refl. Qed.

Lemma match_rep one cls pat s a b :
  span cls s = (a, b) -> (one = true -> a <> EmptyString) ->
  match_here (Rep one cls :: pat) s =
  match match_here pat b with
  | Some (caps, r) => Some (a :: caps, r)
  | None => None
  end.
Proof.
  intros Hs Ha. simpl. rewrite Hs. destruct one, a; try reflexivity.
  by destruct Ha.
Qed.

(** *** The [listen] pattern *)

Lemma listen_repl_match (n : Z) t :
  (0 <= n)%Z ->
  match_here listen_re (("listen " +:+ fmt_int n +:+ ";") +:+ t)
  = Some (listen_caps n, t).
Proof.
  intros Hn. rewrite !append_assoc.
  destruct (fmt_int_digits n Hn) as [Hne _].
  change listen_re with
    (Lit "l" :: Lit "i" :: Lit "s" :: Lit "t" :: Lit "e" :: Lit "n"
       :: Rep true is_space :: Rep true re_digit :: Lit ";" :: []).
  change ("listen " +:+ fmt_int n +:+ ";" +:+ t) with
    (String "l" (String "i" (String "s" (String "t" (String "e" (String "n"
       (" " +:+ fmt_int n +:+ String ";" t))))))).
  rewrite !match_lit.
  rewrite (match_rep true is_space _ _ " " (fmt_int n +:+ String ";" t));
    [| apply span_append; [reflexivity | by apply fmt_int_stops_space] | done].
  rewrite (match_rep true re_digit _ _ (fmt_int n) (String ";" t));
    [| by apply span_digits_fmt | done].
  rewrite match_lit. reflexivity.
Qed.

Lemma listen_ports_sub (n : Z) s :
  (0 <= n)%Z ->
  listen_ports (sub listen_re ("listen " +:+ fmt_int n +:+ ";") s)
  = (fun _ => fmt_int n) <$> listen_ports s.
Proof.
  intros Hn. unfold listen_ports.
  change listen_re with (Lit "l" :: tl listen_re).
  rewrite (findall_sub "l" (tl listen_re) ("listen " +:+ fmt_int n +:+ ";")
             (ex_intro _ ("isten " +:+ fmt_int n +:+ ";") eq_refl) eq_refl
             (fun _ => True) (listen_caps n)); auto.
  - rewrite <- !list_fmap_compose. reflexivity.
  - intros t _. apply (listen_repl_match n t Hn).
Qed.

(** *** The [port] pattern *)

Lemma match_last_rep one cls pat : forall s caps r,
  match_here (pat ++ [Rep one cls])%list s = Some (caps, r) ->
  match r with String c _ => cls c = false | EmptyString => True end.
Proof.
  induction pat as [|[a|o1 c1] pat IH]; intros s caps r; simpl.
  - destruct (span cls s) as [a b] eqn:E. apply span_spec in E as (_ & _ & Hb).
    destruct one, a; try discriminate; intros H; by inversion H; subst.
  - destruct s as [|x s]; [discriminate|]. destruct (Ascii.eqb a x); [|discriminate].
    destruct (match_here (pat ++ [Rep one cls])%list s) as [[? ?]|] eqn:E; [|discriminate].
    intros H; inversion H; subst. eapply IH, E.
  - destruct (span c1 s) as [a b].
    destruct (match_here (pat ++ [Rep one cls])%list b) as [[? ?]|] eqn:E.
    + destruct o1, a; try discriminate; intros H; inversion H; subst; eapply IH, E.
    + destruct o1, a; discriminate.
Qed.

Lemma port_rest_stops s caps r :
  match_here port_re s = Some (caps, r) -> stops_digit r.
Proof.
  change port_re with
    ((lits "port" ++ [Rep false is_space; Lit "="; Rep false is_space])
       ++ [Rep true re_digit])%list.
  apply match_last_rep.
Qed.

Lemma stops_digit_sim r r' : sim "p" r r' -> stops_digit r -> stops_digit r'.
Proof. intros H. destruct H; simpl; auto. Qed.

Lemma port_repl_match (n : Z) t :
  (0 <= n)%Z -> stops_digit t ->
  match_here port_re (("port = " +:+ fmt_int n) +:+ t) = Some (port_caps n, t).
Proof.
  intros Hn Ht. rewrite !append_assoc.
  destruct (fmt_int_digits n Hn) as [Hne _].
  change port_re with
    (Lit "p" :: Lit "o" :: Lit "r" :: Lit "t" :: Rep false is_space
       :: Lit "=" :: Rep false is_space :: Rep true re_digit :: []).
  change ("port = " +:+ fmt_int n +:+ t) with
    (String "p" (String "o" (String "r" (String "t"
       (" " +:+ String "=" (" " +:+ fmt_int n +:+ t)))))).
  rewrite !match_lit.
  rewrite (match_rep false is_space _ _ " " (String "=" (" " +:+ fmt_int n +:+ t)));
    [| by apply span_append | done].
  rewrite match_lit.
  rewrite (match_rep false is_space _ _ " " (fmt_int n +:+ t));
    [| apply span_append; [reflexivity | by apply fmt_int_stops_space] | done].
  rewrite (match_rep true re_digit _ _ (fmt_int n) t);
    [| by apply span_digits_fmt | done].
  reflexivity.
Qed.

Lemma port_values_sub (n : Z) s :
  (0 <= n)%Z ->
  port_values (sub port_re ("port = " +:+ fmt_int n) s)
  = (fun _ => fmt_int n) <$> port_values s.
Proof.
  intros Hn. unfold port_values.
  change port_re with (Lit "p" :: tl port_re).
  rewrite (findall_sub "p" (tl port_re) ("port = " +:+ fmt_int n)
             (ex_intro _ ("ort = " +:+ fmt_int n) eq_refl) eq_refl
             stops_digit (port_caps n)).
  - rewrite <- !list_fmap_compose. reflexivity.
  - apply port_rest_stops.
  - apply stops_digit_sim.
  - intros t Ht. apply (port_repl_match n t Hn Ht).
Qed.

Lemma port_sub_twice (n : Z) s :
  (0 <= n)%Z ->
  sub port_re ("port = " +:+ fmt_int n)
      (sub port_re ("port = " +:+ fmt_int n) s)
  = sub port_re ("port = " +:+ fmt_int n) s.
Proof.
  intros Hn. change port_re with (Lit "p" :: tl port_re).
  apply (sub_idempotent "p" (tl port_re) ("port = " +:+ fmt_int n)
           (ex_intro _ ("ort = " +:+ fmt_int n) eq_refl) eq_refl
           stops_digit (port_caps n)).
  - apply port_rest_stops.
  - apply stops_digit_sim.
  - intros t Ht. apply (port_repl_match n t Hn Ht).
Qed.


(** *** The generated configuration files *)

Lemma listen_line_match (n : Z) t :
  (0 <= n)%Z ->
  match_here (Lit "l" :: tl listen_re)
    (String "l" (String "i" (String "s" (String "t" (String "e" (String "n"
       (String " " (fmt_int n +:+ String ";" t))))))))
  = Some (listen_caps n, t).
Proof.
  intros Hn. rewrite <- (listen_repl_match n t Hn), !append_assoc. reflexivity.
Qed.

Lemma port_line_match (n : Z) c t :
  (0 <= n)%Z -> re_digit c = false ->
  match_here (Lit "p" :: tl port_re)
    (String "p" (String "o" (String "r" (String "t" (String "="
       (fmt_int n +:+ String c t))))))
  = Some (["p"; "o"; "r"; "t"; ""; "="; ""; fmt_int n], String c t).
Proof.
  intros Hn Hc.
  change (Lit "p" :: tl port_re) with
    (Lit "p" :: Lit "o" :: Lit "r" :: Lit "t" :: Rep false is_space
       :: Lit "=" :: Rep false is_space :: Rep true re_digit :: []).
  destruct (fmt_int_digits n Hn) as [Hne _].
  rewrite !match_lit.
  rewrite (match_rep false is_space _ _ "" (String "=" (fmt_int n +:+ String c t)));
    [| reflexivity | done].
  rewrite match_lit.
  rewrite (match_rep false is_space _ _ "" (fmt_int n +:+ String c t));
    [| apply (span_append is_space ""); [reflexivity | by apply fmt_int_stops_space]
     | done].
  rewrite (match_rep true re_digit _ _ (fmt_int n) (String c t));
    [| by apply span_digits_fmt | done].
  reflexivity.
Qed.

Ltac scan_literal :=
  repeat (rewrite findall_none by reflexivity).

Lemma nginx_config_ports root (port : Z) :
  (0 <= port)%Z -> contains ";" root = false ->
  listen_ports (nginx_config_content root port) = [fmt_int port].
Proof.
  intros Hp Hroot. unfold listen_ports, nginx_config_content.
  change listen_re with (Lit "l" :: tl listen_re).
  cbn [String.append]. scan_literal.
  erewrite findall_some by (by apply listen_line_match).
  scan_literal.
  rewrite (findall_blocked "l" (tl listen_re) ";" "/" _ root);
    [| cbn; tauto | done | reflexivity].
  scan_literal.
  rewrite (findall_blocked "l" (tl listen_re) ";" "/" _ root);
    [| cbn; tauto | done | reflexivity].
  scan_literal.
  reflexivity.
Qed.

Lemma my_cnf_ports base (port : Z) :
  (0 <= port)%Z -> contains "=" base = false ->
  port_values (my_cnf_content (base +:+ "/mariadb") port)
  = [fmt_int port; fmt_int port].
Proof.
  intros Hp Hbase. unfold port_values, my_cnf_content.
  change port_re with (Lit "p" :: tl port_re).
  rewrite !append_assoc. cbn [String.append].
  repeat first
    [ rewrite findall_none by reflexivity
    | erewrite findall_some by (by apply port_line_match)
    | rewrite (findall_blocked "p" (tl port_re) "=" "/" _ base);
        [| cbn; tauto | done | reflexivity] ].
  reflexivity.
Qed.

End RegexFacts.

(** * Facts about the file tree *)

Module FSFacts.
Import FS.

Lemma locate_nil n t cur : locate n t cur [] = Some cur.
Proof. by destruct n. Qed.

Lemma locate_cons n t cur c rest :
  locate n t cur (c :: rest) =
  match t !! (cur ++ [c])%list with
  | Some (Symlink tg) =>
      match n with
      | O => None
      | S n' => locate n' t [] (tg ++ rest)%list
      end
  | Some Dir => locate n t (cur ++ [c])%list rest
  | Some (File _) | None =>
      match rest with
      | [] => Some (cur ++ [c])%list
      | _ => None
      end
  end.
Proof. by destruct n. Qed.

Lemma snoc_not_nil {A} (l : list A) x : (l ++ [x])%list <> [].
Proof. by destruct l. Qed.

Lemma node_at_snoc t cur c : node_at t (cur ++ [c])%list = t !! (cur ++ [c])%list.
Proof. unfold node_at. by destruct cur. Qed.

Lemma node_at_insert_ne t q x p :
  p <> q -> node_at (<[q := x]> t) p = node_at t p.
Proof. intros H. destruct p; [done|]. simpl. by rewrite lookup_insert_ne. Qed.

(** Writing a file where there was a file or nothing changes no
    resolution. *)
Lemma locate_insert_file t q c :
  match t !! q with Some (File _) | None => True | _ => False end ->
  forall n cur rest, locate n (<[q := File c]> t) cur rest = locate n t cur rest.
Proof.
  intros Hq.
  assert (forall k, (exists d, <[q := File c]> t !! k = Some (File d) /\
                       match t !! k with Some (File _) | None => True | _ => False end)
                    \/ <[q := File c]> t !! k = t !! k) as Hk.
  { intros k. destruct (decide (k = q)) as [->|Hne].
    - left. exists c. by rewrite lookup_insert_eq.
    - right. by rewrite lookup_insert_ne. }
  induction n as [|n IHn]; intros cur rest; revert cur;
    induction rest as [|x rest IH]; intros cur;
    rewrite ?locate_nil, ?locate_cons; try reflexivity.
  - destruct (Hk (cur ++ [x])%list) as [(d & Hd & Ht)| He].
    + rewrite Hd. by destruct (t !! (cur ++ [x])%list) as [[]|].
    + rewrite He. destruct (t !! (cur ++ [x])%list) as [[]|]; auto.
  - destruct (Hk (cur ++ [x])%list) as [(d & Hd & Ht)| He].
    + rewrite Hd. by destruct (t !! (cur ++ [x])%list) as [[]|].
    + rewrite He. destruct (t !! (cur ++ [x])%list) as [[]|]; auto.
Qed.

(** A new entry where there was none leaves every existing entry where
    it was. *)
Lemma locate_insert_vacant t q x :
  t !! q = None ->
  forall n cur rest r nd,
    locate n t cur rest = Some r -> node_at t r = Some nd ->
    locate n (<[q := x]> t) cur rest = Some r.
Proof.
  intros Hq. induction n as [|n IHn]; intros cur rest; revert cur;
    induction rest as [|c rest IH]; intros cur r nd;
    rewrite ?locate_nil, ?locate_cons; try done.
  - destruct (t !! (cur ++ [c])%list) as [nd'|] eqn:E.
    + assert ((cur ++ [c])%list <> q) as Hne by congruence.
      rewrite lookup_insert_ne by done. rewrite E.
      destruct nd'; eauto.
    + destruct rest; [|done]. intros H; inversion H; subst.
      rewrite node_at_snoc. congruence.
  - destruct (t !! (cur ++ [c])%list) as [nd'|] eqn:E.
    + assert ((cur ++ [c])%list <> q) as Hne by congruence.
      rewrite lookup_insert_ne by done. rewrite E.
      destruct nd'; eauto.
    + destruct rest; [|done]. intros H; inversion H; subst.
      rewrite node_at_snoc. congruence.
Qed.

Lemma stat_insert_vacant t q x p nd :
  t !! q = None -> stat t p = Some nd -> stat (<[q := x]> t) p = Some nd.
Proof.
  unfold stat, realpath. intros Hq H.
  destruct (locate max_links t [] p) as [r|] eqn:E; [|done]. simpl in H.
  rewrite (locate_insert_vacant t q x Hq _ _ _ _ _ E H). simpl.
  destruct r as [|r0 r]; [done|]. simpl in *.
  rewrite lookup_insert_ne; [done | congruence].
Qed.

Lemma is_dir_stat t p : is_dir t p = true <-> stat t p = Some Dir.
Proof.
  unfold is_dir. destruct (stat t p) as [[]|]; split; congruence.
Qed.

Lemma path_exists_stat t p : path_exists t p = true <-> is_Some (stat t p).
Proof.
  unfold path_exists. destruct (stat t p); split; intros H; done.
Qed.

Lemma read_file_stat t p c : read_file t p = Some c <-> stat t p = Some (File c).
Proof.
  unfold read_file, stat. destruct (realpath t p) as [q|]; simpl; [|done].
  destruct (node_at t q) as [[]|]; split; congruence.
Qed.

(** Directories survive the writing of a file. *)
Lemma is_dir_write_file t p c t' d :
  write_file t p c = Some t' -> is_dir t d = true -> is_dir t' d = true.
Proof.
  unfold write_file. destruct (realpath t p) as [q|] eqn:Eq; simpl; [|done].
  intros Hw. rewrite !is_dir_stat. unfold stat, realpath.
  assert (match t !! q with Some (File _) | None => True | _ => False end
          /\ t' = <[q := File c]> t /\ node_at t q <> Some Dir) as (Hq & -> & Hnd).
  { destruct q as [|q0 q]; simpl in *; [done|].
    destruct (t !! (q0 :: q)) as [[]|]; inversion Hw; done. }
  rewrite locate_insert_file by done.
  destruct (locate max_links t [] d) as [r|]; simpl; [|done].
  intros Hr. rewrite node_at_insert_ne; [done|]. congruence.
Qed.

(** What was written is what is read. *)
Lemma read_write_file t p c t' :
  write_file t p c = Some t' -> read_file t' p = Some c.
Proof.
  unfold write_file, read_file. destruct (realpath t p) as [q|] eqn:Eq; simpl; [|done].
  intros Hw.
  assert (match t !! q with Some (File _) | None => True | _ => False end
          /\ t' = <[q := File c]> t /\ q <> []) as (Hq & -> & Hnil).
  { destruct q as [|q0 q]; simpl in *; [done|].
    destruct (t !! (q0 :: q)) as [[]|]; inversion Hw; done. }
  unfold realpath in *. rewrite locate_insert_file by done. rewrite Eq. simpl.
  destruct q; [done|]. simpl. by rewrite lookup_insert_eq.
Qed.

(** A file that can be read can be rewritten. *)
Lemma write_file_readable t p c c' :
  read_file t p = Some c -> is_Some (write_file t p c').
Proof.
  unfold write_file, read_file. destruct (realpath t p) as [q|]; simpl; [|done].
  destruct (node_at t q) as [[]|]; done.
Qed.

Lemma stat_mkdir1 t p t' x nd :
  mkdir1 t p = Some t' -> stat t x = Some nd -> stat t' x = Some nd.
Proof.
  unfold mkdir1. destruct (is_dir t p); [congruence|].
  destruct (lpath t p) as [q|]; simpl; [|done].
  destruct (node_at t q) eqn:E; [done|]. intros H; inversion H; subst.
  apply stat_insert_vacant. destruct q; simpl in E; congruence.
Qed.

Lemma stat_mkdir_p t p t' x nd :
  mkdir_p t p = Some t' -> stat t x = Some nd -> stat t' x = Some nd.
Proof.
  unfold mkdir_p. generalize (prefixes p) as l. intros l. revert t.
  induction l as [|d l IH]; simpl; intros t.
  - congruence.
  - destruct (mkdir1 t d) as [t1|] eqn:E; simpl.
    + intros H Hs. eapply IH; [exact H|]. eapply stat_mkdir1; eauto.
    + intros H. exfalso. clear -H. induction l; simpl in *; [done|auto].
Qed.

Lemma split_last_snoc p c : split_last (p ++ [c])%list = Some (p, c).
Proof. induction p as [|x p IH]; simpl; [done|]. by rewrite IH. Qed.

Lemma name_snoc p c : name (p ++ [c])%list = c.
Proof. unfold name. by rewrite split_last_snoc. Qed.

Lemma split_last_Some p d c : split_last p = Some (d, c) -> p = (d ++ [c])%list.
Proof.
  revert d c. induction p as [|x p IH]; simpl; intros d c; [done|].
  destruct (split_last p) as [[d' c']|] eqn:E.
  - intros H; inversion H; subst. by rewrite (IH _ _ eq_refl).
  - intros H; inversion H; subst. destruct p as [|y p]; [done|].
    simpl in E. by destruct (split_last p) as [[]|].
Qed.

(** The entry a path names carries the path's last component. *)
Lemma lpath_name t p q :
  p <> [] -> lpath t p = Some q -> name q = name p.
Proof.
  unfold lpath. intros Hp. destruct (split_last p) as [[d c]|] eqn:E.
  - apply split_last_Some in E as ->.
    destruct (realpath t d) as [r|]; simpl; [|done].
    destruct (node_at t r) as [[]|]; try done.
    intros H; inversion H; subst. by rewrite !name_snoc.
  - destruct p; [done|]. simpl in E. by destruct (split_last p) as [[]|].
Qed.

Lemma unlink_frame t p t' k :
  p <> [] -> unlink t p = Some t' -> name k <> name p -> t' !! k = t !! k.
Proof.
  unfold unlink. intros Hp. destruct (lpath t p) as [q|] eqn:E; simpl; [|done].
  apply lpath_name in E; [|done].
  destruct (node_at t q) as [[]|]; try done;
    intros H Hk; inversion H; subst; apply lookup_delete_ne; congruence.
Qed.

Lemma symlink_to_frame t p tg t' k :
  p <> [] -> symlink_to t p tg = Some t' -> name k <> name p -> t' !! k = t !! k.
Proof.
  unfold symlink_to. intros Hp. destruct (lpath t p) as [q|] eqn:E; simpl; [|done].
  apply lpath_name in E; [|done].
  destruct (node_at t q) as [[]|]; try done;
    intros H Hk; inversion H; subst; apply lookup_insert_ne; congruence.
Qed.

End FSFacts.

Module EnvFacts.

Lemma existing_spec w ps p :
  p ∈ existing w ps <-> p ∈ ps /\ FS.path_exists (fs w) p = true.
Proof.
  unfold existing. rewrite !list_elem_of_In, List.filter_In. tauto.
Qed.

Lemma existing_app w ps qs :
  existing w (ps ++ qs) = (existing w ps ++ existing w qs)%list.
Proof. unfold existing. apply List.filter_app. Qed.

Lemma existing_sublist w ps : sublist (existing w ps) ps.
Proof.
  unfold existing. induction ps as [|p ps IH]; simpl; [constructor|].
  destruct (FS.path_exists (fs w) p); by constructor.
Qed.

Lemma fallback_lookup w :
  let env := get_fallback_environment w in
  env !! "LD_LIBRARY_PATH" =
    Some (match environ w !! "LD_LIBRARY_PATH" with
          | Some old => join_paths (existing w (lib_paths w)) +:+ ":" +:+ old
          | None => join_paths (existing w (lib_paths w))
          end)
  /\ env !! "PATH" =
    Some (match environ w !! "PATH" with
          | Some old => join_paths (existing w (bin_paths w)) +:+ ":" +:+ old
          | None => join_paths (existing w (bin_paths w))
          end)
  /\ env !! "WEBSTACK_HOME" = Some (FS.path_str (stack_dir w))
  /\ env !! "PKG_CONFIG_PATH"
     = Some (FS.path_str (deps_dir w ++ ["lib"; "pkgconfig"])%list).
Proof.
  unfold get_fallback_environment. cbv zeta.
  repeat split.
  - rewrite !lookup_insert_ne by done.
    destruct (environ w !! "LD_LIBRARY_PATH") eqn:E.
    + destruct (_ !! "PATH"); rewrite lookup_insert_ne by done;
        by rewrite lookup_insert_eq.
    + destruct (_ !! "PATH"); rewrite lookup_insert_ne by done;
        by rewrite lookup_insert_eq.
  - rewrite !lookup_insert_ne by done.
    destruct (environ w !! "LD_LIBRARY_PATH") eqn:E;
      rewrite lookup_insert_ne by done; rewrite E || idtac;
      destruct (environ w !! "PATH") eqn:E'; by rewrite lookup_insert_eq.
  - rewrite lookup_insert_ne by done. by rewrite lookup_insert_eq.
  - by rewrite lookup_insert_eq.
Qed.

(** *** The entries of the search paths *)

Lemma contains_concat c sep l :
  Text.contains c sep = false ->
  Text.contains c (String.concat sep l) = existsb (Text.contains c) l.
Proof.
  intros Hs. induction l as [|x l IH]; [done|].
  destruct l as [|y l]; simpl in *; [by rewrite orb_false_r|].
  rewrite !RegexFacts.contains_append, Hs, IH. simpl. done.
Qed.

Lemma contains_path_str c p :
  c <> "/"%char ->
  Text.contains c (FS.path_str p) = existsb (Text.contains c) p.
Proof.
  intros Hc. apply Ascii.eqb_neq in Hc.
  assert (Text.contains c "/" = false) as Hs
    by (unfold Text.contains; simpl; by rewrite Hc).
  unfold FS.path_str.
  by rewrite RegexFacts.contains_append, contains_concat, Hs.
Qed.

Lemma split_on_join (l : list path) :
  Forall (fun p => Text.contains ":" (FS.path_str p) = false) l ->
  Text.split_on ":" (join_paths l)
  = match l with [] => [""] | _ => FS.path_str <$> l end.
Proof.
  unfold join_paths. induction 1 as [|p l Hp Hl IH]; [done|].
  destruct l as [|q l]; [by apply TextFacts.split_on_free|].
  cbn [fmap list_fmap String.concat] in *.
  change (FS.path_str p +:+ ":" +:+ ?x) with (FS.path_str p +:+ String ":" x).
  rewrite TextFacts.split_on_app, IH, TextFacts.split_on_free by done. done.
Qed.

Lemma candidates_colon_free w :
  Text.contains ":" (FS.path_str (stack_dir w)) = false ->
  Forall (fun p => Text.contains ":" (FS.path_str p) = false)
         (lib_paths w ++ bin_paths w).
Proof.
  rewrite contains_path_str by done. intros H.
  unfold lib_paths, bin_paths, deps_dir.
  repeat constructor; rewrite contains_path_str by done;
    rewrite ?existsb_app, ?H; reflexivity.
Qed.

Lemma existing_colon_free w paths :
  Forall (fun p => Text.contains ":" (FS.path_str p) = false) paths ->
  Forall (fun p => Text.contains ":" (FS.path_str p) = false) (existing w paths).
Proof.
  rewrite !Forall_forall. intros H p Hp. apply H.
  by apply existing_spec in Hp as [Hp _].
Qed.

Lemma holds_prepended_join (l : list path) (old : option string) :
  Forall (fun p => Text.contains ":" (FS.path_str p) = false) l ->
  holds_prepended (match old with
                   | Some o => join_paths l +:+ ":" +:+ o
                   | None => join_paths l
                   end) l old.
Proof.
  intros H. unfold holds_prepended, search_path_entries.
  destruct l as [|p l]; [by destruct old|].
  destruct old as [o|].
  - change (?j +:+ ":" +:+ o) with (j +:+ String ":" o).
    by rewrite TextFacts.split_on_app, split_on_join.
  - by rewrite split_on_join, app_nil_r.
Qed.

Lemma parse_env_lines_lookup lines : forall (env : gmap string string) key,
  is_Some (foldl (fun env line =>
             if Text.contains "=" line
             then (let '(key, value) := Text.split1 "=" line in <[key := value]> env)
             else env) env lines !! key)
  <-> is_Some (env !! key)
      \/ exists line, line ∈ lines /\ Text.contains "=" line = true
                      /\ (Text.split1 "=" line).1 = key.
Proof.
  induction lines as [|l lines IH]; intros env key; simpl.
  - split; [auto | intros [H|(line & H & _)]; [done | by apply elem_of_nil in H]].
  - rewrite IH. clear IH. split.
    + intros [H|(line & Hin & Hc & Hk)].
      * destruct (Text.contains "=" l) eqn:Hc; [|auto].
        destruct (Text.split1 "=" l) as [k v] eqn:Hs.
        destruct (decide (k = key)) as [->|Hne].
        -- right. exists l. rewrite Hs. split; [constructor | auto].
        -- rewrite lookup_insert_ne in H by done. auto.
      * right. exists line. split; [by constructor | auto].
    + intros [H|(line & Hin & Hc & Hk)].
      * left. destruct (Text.contains "=" l); [|done].
        destruct (Text.split1 "=" l) as [k v].
        destruct (decide (k = key)) as [->|Hne].
        -- rewrite lookup_insert_eq. by eexists.
        -- by rewrite lookup_insert_ne.
      * apply elem_of_cons in Hin as [->|Hin].
        -- left. rewrite Hc. destruct (Text.split1 "=" l) as [k v].
           simpl in Hk. subst. rewrite lookup_insert_eq. by eexists.
        -- right. exists line. auto.
Qed.

Lemma parse_env_output_lookup out env key :
  is_Some (parse_env_output out env !! key)
  <-> is_Some (env !! key) \/ defines out key.
Proof. apply parse_env_lines_lookup. Qed.

End EnvFacts.

(** * Reasoning about the monad *)

Module Run.

Lemma bind_ret {A B} (m : M A) (f : A -> M B) w a w' :
  m w = (Ret a, w') -> (m ≫= f) w = f a w'.
Proof. unfold mbind, M_bind. by intros ->. Qed.

Lemma bind_raise {A B} (m : M A) (f : A -> M B) w e w' :
  m w = (Raise e, w') -> (m ≫= f) w = (Raise e, w').
Proof. unfold mbind, M_bind. by intros ->. Qed.

Section Keeps.
Context (R : world -> world -> Prop) `{!Reflexive R} `{!Transitive R}.

Lemma keeps_ret {A} (a : A) : keeps R (mret a).
Proof. intros w. simpl. reflexivity. Qed.

Lemma keeps_get : keeps R get_world.
Proof. intros w. simpl. reflexivity. Qed.

Lemma keeps_raise {A} e : keeps R (@raise A e).
Proof. intros w. simpl. reflexivity. Qed.

Lemma keeps_bind {A B} (m : M A) (f : A -> M B) :
  keeps R m -> (forall a, keeps R (f a)) -> keeps R (m ≫= f).
Proof.
  intros Hm Hf w. unfold mbind, M_bind. specialize (Hm w).
  destruct (m w) as [[a|e] w1]; simpl in *; [|done].
  etrans; [exact Hm | apply Hf].
Qed.

Lemma keeps_try {A} caught (body : M A) handler :
  keeps R body -> (forall e, keeps R (handler e)) ->
  keeps R (try_except caught body handler).
Proof.
  intros Hm Hf w. unfold try_except. specialize (Hm w).
  destruct (body w) as [[a|e] w1]; simpl in *; [done|].
  destruct (caught e); [|done]. etrans; [exact Hm | apply Hf].
Qed.

Lemma keeps_modify f : (forall w, R w (f w)) -> keeps R (modify f).
Proof. intros H w. apply H. Qed.

Lemma keeps_log message :
  (forall l w, R w (set_applog l w)) -> keeps R (log_message message).
Proof.
  intros H w. unfold log_message. destruct (FS.is_dir _ _); simpl; [apply H | reflexivity].
Qed.

Lemma keeps_fs_update op msg :
  (forall w t, op (fs w) = Some t -> R w (set_fs t w)) ->
  keeps R (fs_update op msg).
Proof.
  intros H w. unfold fs_update. destruct (op (fs w)) eqn:E; simpl;
    [by apply H | reflexivity].
Qed.

Lemma keeps_fs_read p : keeps R (fs_read p).
Proof. intros w. unfold fs_read. destruct (FS.read_file _ _); simpl; reflexivity. Qed.

Lemma keeps_fs_iterdir p : keeps R (fs_iterdir p).
Proof. intros w. unfold fs_iterdir. destruct (FS.iterdir _ _); simpl; reflexivity. Qed.

Lemma keeps_subprocess_run cmd check o : keeps R (subprocess_run cmd check o).
Proof.
  intros w. unfold subprocess_run. destruct o; simpl; [|reflexivity].
  destruct (check && _); simpl; reflexivity.
Qed.

Lemma keeps_py_int text : keeps R (py_int text).
Proof. intros w. unfold py_int. destruct (h_int _ _); simpl; reflexivity. Qed.

Lemma keeps_popen argv :
  (forall l w, R w (set_spawned l w)) -> keeps R (popen argv).
Proof.
  intros H w. unfold popen. destruct (h_popen _ _); simpl; [reflexivity | apply H].
Qed.

Lemma keeps_os_kill pid :
  (forall l w, R w (set_signals l w)) -> keeps R (os_kill pid).
Proof.
  intros H w. unfold os_kill. destruct (h_kill _ _); simpl; [reflexivity | apply H].
Qed.

End Keeps.

#[global] Instance same_refl {B} (proj : world -> B) : Reflexive (same proj).
Proof. by intros w. Qed.
#[global] Instance same_trans {B} (proj : world -> B) : Transitive (same proj).
Proof. unfold same. intros w1 w2 w3 H1 H2. congruence. Qed.

#[global] Instance stays_writable_refl : Reflexive stays_writable.
Proof. by intros w. Qed.
#[global] Instance stays_writable_trans : Transitive stays_writable.
Proof.
  unfold stays_writable. intros w1 w2 w3 [H1 H1'] [H2 H2']. split; [congruence | auto].
Qed.

(** Decompose a [keeps] goal along the structure of the program. *)
Ltac keeps_step side :=
  lazymatch goal with
  | |- keeps _ (mbind _ _) => apply keeps_bind; try apply _; [|intros ?]
  | |- keeps _ (mret _) => apply keeps_ret; apply _
  | |- keeps _ get_world => apply keeps_get; apply _
  | |- keeps _ (raise _) => apply keeps_raise; apply _
  | |- keeps _ (try_except _ _ _) => apply keeps_try; try apply _; [|intros ?]
  | |- keeps _ (log_message _) => apply keeps_log; try apply _; side
  | |- keeps _ (modify _) => apply keeps_modify; side
  | |- keeps _ (set_widgets _) => apply keeps_modify; side
  | |- keeps _ (message_box _) => apply keeps_modify; side
  | |- keeps _ (note_call _) => apply keeps_modify; side
  | |- keeps _ (single_shot _ _) => apply keeps_modify; side
  | |- keeps _ (fs_read _) => apply keeps_fs_read; apply _
  | |- keeps _ (fs_iterdir _) => apply keeps_fs_iterdir; apply _
  | |- keeps _ (subprocess_run _ _ _) => apply keeps_subprocess_run; apply _
  | |- keeps _ (py_int _) => apply keeps_py_int; apply _
  | |- keeps _ (popen _) => apply keeps_popen; try apply _; side
  | |- keeps _ (os_kill _) => apply keeps_os_kill; try apply _; side
  | |- keeps _ (fs_update _ _) => apply keeps_fs_update; try apply _; side
  | |- keeps _ (if ?b then _ else _) => destruct b
  | |- keeps _ (match ?x with _ => _ end) => destruct x
  end.

Ltac keeps_field := intros; try reflexivity; try done.

End Run.

Module ManagerFacts.
Import Run.

Lemma set_applog_id w : set_applog (applog w) w = w.
Proof. by destruct w. Qed.

Lemma set_gui_id w : set_gui (gui w) w = w.
Proof. by destruct w. Qed.

Lemma log_message_ok message w :
  log_writable w ->
  log_message message w
  = (Ret tt, set_applog (applog w ++ [log_entry w message]) w).
Proof. unfold log_writable, log_message. by intros ->. Qed.

(** *** Environment resolution *)

Lemma get_environment_keeps R `{!Reflexive R} `{!Transitive R} :
  (forall l w, R w (set_applog l w)) -> keeps R get_environment.
Proof.
  intros H. unfold get_environment.
  repeat keeps_step ltac:(auto).
Qed.

(** It touches nothing but the audit log, where it leaves at most one
    entry; with a writable log it fails only if the shell cannot start. *)
Lemma get_environment_run w :
  exists r l,
    get_environment w = (r, set_applog l w)
    /\ (l = applog w \/ exists m, l = (applog w ++ [log_entry w m])%list)
    /\ (log_writable w ->
        (exists env m, r = Ret env /\ l = (applog w ++ [log_entry w m])%list)
        \/ (exists msg, r = Raise (OSError msg) /\ l = applog w /\ ~ env_resolves w)).
Proof.
  unfold get_environment, env_resolves, log_writable, log_message, mbind, M_bind,
    get_world, try_except, subprocess_run, raise, mret, M_ret. simpl.
  destruct (FS.path_exists (fs w) (stack_dir w ++ ["env.sh"])) eqn:Esh.
  - destruct (h_source_env (host w)) as [code out err|msg] eqn:Eh; simpl.
    + destruct (negb (code =? 0)%Z) eqn:Ec; simpl.
      * destruct (FS.is_dir (fs w) (stack_dir w)) eqn:Ed; simpl.
        -- eexists _, _. split; [reflexivity|]. split; [eauto|]. intros _. left. eauto.
        -- eexists _, (applog w). rewrite set_applog_id.
           split; [reflexivity|]. split; [auto|]. done.
      * destruct (FS.is_dir (fs w) (stack_dir w)) eqn:Ed; simpl.
        -- eexists _, _. split; [reflexivity|]. split; [eauto|]. intros _. left. eauto.
        -- eexists _, (applog w). rewrite set_applog_id.
           split; [reflexivity|]. split; [auto|]. done.
    + eexists _, (applog w). rewrite set_applog_id.
      split; [reflexivity|]. split; [auto|]. intros _. right.
      eexists. split; [reflexivity|]. split; [reflexivity|].
      intros [?|(?&?&?&?)]; congruence.
  - destruct (FS.is_dir (fs w) (stack_dir w)) eqn:Ed; simpl.
    + eexists _, _. split; [reflexivity|]. split; [eauto|]. intros _. left. eauto.
    + eexists _, (applog w). rewrite set_applog_id.
      split; [reflexivity|]. split; [auto|]. done.
Qed.

(** Its outcome does not depend on the log or on the widgets. *)
Lemma get_environment_irrelevant g l w :
  (get_environment (set_gui g (set_applog l w))).1 = (get_environment w).1.
Proof.
  unfold get_environment, log_message, mbind, M_bind,
    get_world, try_except, subprocess_run, raise, mret, M_ret. simpl.
  destruct (FS.path_exists (fs w) (stack_dir w ++ ["env.sh"])) eqn:Esh.
  - destruct (h_source_env (host w)) as [code out err|msg] eqn:Eh; simpl; [|done].
    destruct (negb (code =? 0)%Z) eqn:Ec; simpl;
      destruct (FS.is_dir (fs w) (stack_dir w)) eqn:Ed; simpl; reflexivity.
  - simpl. destruct (FS.is_dir (fs w) (stack_dir w)) eqn:Ed; simpl; reflexivity.
Qed.


Lemma same_inputs_sym w1 w2 : same_inputs w1 w2 -> same_inputs w2 w1.
Proof. unfold same_inputs. intros (?&?&?&?). auto. Qed.

Lemma get_environment_inputs w1 w2 :
  same_inputs w1 w2 -> (get_environment w1).1 = (get_environment w2).1.
Proof.
  intros (Hs & Hf & He & Hh).
  unfold get_environment, log_message, mbind, M_bind,
    get_world, try_except, subprocess_run, raise, mret, M_ret,
    get_fallback_environment, existing, lib_paths, bin_paths, deps_dir.
  simpl. rewrite Hs, Hf, He, Hh.
  destruct (FS.path_exists (fs w2) (stack_dir w2 ++ ["env.sh"])) eqn:Esh; simpl.
  - destruct (h_source_env (host w2)) as [code out err|msg] eqn:Eh; simpl; [|done].
    destruct (negb (code =? 0)%Z) eqn:Ec; simpl; rewrite ?Hs, ?Hf, ?He;
      destruct (FS.is_dir (fs w2) (stack_dir w2)) eqn:Ed; simpl;
      rewrite ?Hs, ?Hf, ?He; reflexivity.
  - rewrite ?Hs, ?Hf, ?He.
    destruct (FS.is_dir (fs w2) (stack_dir w2)) eqn:Ed; simpl;
      rewrite ?Hs, ?Hf, ?He; reflexivity.
Qed.

(** *** The database probe *)

Lemma check_mysql_status_run w :
  exists b l,
    check_mysql_status w = (Ret b, set_applog l w)
    /\ (l = applog w \/ exists m, l = (applog w ++ [log_entry w m])%list)
    /\ (FS.path_exists (fs w) (mysql_socket w) = false -> l = applog w /\ b = false).
Proof.
  unfold check_mysql_status, mysql_socket, mbind, M_bind, get_world, try_except,
    mret, M_ret. simpl.
  destruct (FS.path_exists (fs w) (stack_dir w ++ ["mariadb"; "mariadb.sock"])) eqn:Es;
    simpl.
  - destruct (get_environment_run w) as (r & l & E & Hl & _). rewrite E.
    destruct r as [env|e]; simpl.
    + destruct (FS.path_exists (fs w)
                  (stack_dir w ++ ["mariadb"; "bin"; "mariadb-admin"])); simpl.
      * unfold subprocess_run. destruct (h_admin_ping (host w)); simpl;
          eexists _, l; (split; [reflexivity|]); split; auto; done.
      * eexists _, l. split; [reflexivity|]. split; auto; done.
    + eexists _, l. split; [reflexivity|]. split; auto; done.
  - exists false, (applog w). rewrite set_applog_id. auto.
Qed.

Lemma check_mysql_status_inputs w1 w2 :
  same_inputs w1 w2 -> (check_mysql_status w1).1 = (check_mysql_status w2).1.
Proof.
  intros Hi. pose proof (get_environment_inputs w1 w2 Hi) as He.
  destruct Hi as (Hs & Hf & _ & Hh).
  unfold check_mysql_status, mbind, M_bind, get_world, try_except, mret, M_ret.
  simpl. rewrite Hs, Hf.
  destruct (FS.path_exists (fs w2) (stack_dir w2 ++ ["mariadb"; "mariadb.sock"]))
    eqn:Es; simpl; [|done].
  destruct (get_environment_run w1) as (r1 & l1 & E1 & _).
  destruct (get_environment_run w2) as (r2 & l2 & E2 & _).
  rewrite E1, E2 in He. simpl in He. subst r2. rewrite E1, E2.
  destruct r1 as [env|e]; simpl; [|done]. rewrite Hs, Hf, Hh.
  destruct (FS.path_exists (fs w2)
              (stack_dir w2 ++ ["mariadb"; "bin"; "mariadb-admin"])); simpl; [|done].
  unfold subprocess_run. destruct (h_admin_ping (host w2)); simpl; done.
Qed.


(** *** The status timer *)

Lemma check_stack_health_run w :
  (exists h, check_stack_health w = (Ret tt, set_gui (set_stack_health h (gui w)) w))
  \/ (exists e, check_stack_health w = (Raise e, w)).
Proof.
  unfold check_stack_health, mbind, M_bind, get_world, mret, M_ret, set_widgets,
    modify, fs_iterdir. simpl.
  destruct (FS.path_exists (fs w) (stack_dir w)); simpl; [|eauto].
  destruct (FS.path_exists (fs w) (stack_dir w ++ ["php"])); simpl.
  - destruct (FS.iterdir (fs w) (stack_dir w ++ ["php"])); simpl; [|eauto].
    left. repeat case_match; eauto.
  - left. repeat case_match; eauto.
Qed.

Lemma check_stack_health_inputs w1 w2 :
  same_inputs w1 w2 ->
  (check_stack_health w1).1 = (check_stack_health w2).1
  /\ (forall g1 g2,
        (check_stack_health w1).2 = set_gui g1 w1 ->
        (check_stack_health w2).2 = set_gui g2 w2 ->
        (check_stack_health w1).1 <> Ret tt \/
        stack_health g1 = stack_health g2 \/ True).
Proof.
  intros (Hs & Hf & _ & _). split; [|auto].
  destruct w1 as [sd t ? ? ? ? ? ? ? ? ? ?], w2 as [sd' t' ? ? ? ? ? ? ? ? ? ?];
    simpl in Hs, Hf; subst sd' t'.
  unfold check_stack_health, mbind, M_bind, get_world, mret, M_ret, set_widgets,
    modify, fs_iterdir. simpl.
  destruct (FS.path_exists t sd); simpl; [|done].
  destruct (FS.path_exists t (sd ++ ["php"])); simpl.
  - destruct (FS.iterdir t (sd ++ ["php"])); simpl; [|done].
    repeat match goal with
           | |- context [if ?c then _ else _] => destruct c; simpl
           end; done.
  - repeat match goal with
           | |- context [if ?c then _ else _] => destruct c; simpl
           end; done.
Qed.

Lemma update_status_inputs w1 w2 :
  same_inputs w1 w2 ->
  (update_status w1).1 = (update_status w2).1
  /\ match (update_status w1).1 with
     | Ret _ => status_labels (gui (update_status w1).2)
                = status_labels (gui (update_status w2).2)
     | Raise _ => gui (update_status w1).2 = gui w1
                  /\ gui (update_status w2).2 = gui w2
     end.
Proof.
  intros Hi. destruct (check_stack_health_inputs w1 w2 Hi) as [Hc _].
  destruct Hi as (Hs & Hf & He & Hh).
  unfold update_status.
  destruct (check_stack_health_run w1) as [[h1 E1]|[e1 E1]];
    destruct (check_stack_health_run w2) as [[h2 E2]|[e2 E2]];
    rewrite E1, E2 in Hc; simpl in Hc; try discriminate;
    [ rewrite (bind_ret check_stack_health _ w1 _ _ E1),
              (bind_ret check_stack_health _ w2 _ _ E2)
    | rewrite (bind_raise check_stack_health _ w1 _ _ E1),
              (bind_raise check_stack_health _ w2 _ _ E2);
      inversion Hc; subst; simpl; by destruct w1, w2 ].
  destruct w1, w2; simpl in Hs, Hf, He, Hh; subst.
  unfold mbind, M_bind, get_world, mret, M_ret, set_widgets, modify. simpl.
  repeat match goal with
    | |- context [FS.path_exists ?t ?p] => destruct (FS.path_exists t p); simpl
    | |- context [FS.realpath ?t ?p] => destruct (FS.realpath t p); simpl
    end;
    match goal with
    | |- context [(let (_, _) := check_mysql_status ?x in _).1
                  = (let (_, _) := check_mysql_status ?y in _).1] =>
        let H := fresh "H" in
        assert ((check_mysql_status x).1 = (check_mysql_status y).1) as H
          by (apply check_mysql_status_inputs; unfold same_inputs; simpl; auto);
        destruct (check_mysql_status_run x) as (b1 & l1 & Ex & _);
        destruct (check_mysql_status_run y) as (b2 & l2 & Ey & _);
        rewrite Ex, Ey in H |- *; simpl in H; inversion H; subst;
        destruct b2; simpl; auto
    end.
Qed.


Ltac keeps_prog side :=
  first [ apply get_environment_keeps; [apply _ | apply _ | side]
        | keeps_step side ].

Lemma check_mysql_status_keeps R `{!Reflexive R} `{!Transitive R} :
  (forall l w, R w (set_applog l w)) -> keeps R check_mysql_status.
Proof.
  intros H. unfold check_mysql_status. repeat keeps_prog ltac:(auto).
Qed.

Lemma update_status_keeps R `{!Reflexive R} `{!Transitive R} :
  (forall l w, R w (set_applog l w)) -> (forall g w, R w (set_gui g w)) ->
  keeps R update_status.
Proof.
  intros H1 H2. unfold update_status, check_stack_health.
  repeat first [ apply check_mysql_status_keeps; [apply _ | apply _ | auto]
               | keeps_prog ltac:(auto) ].
Qed.

Lemma update_status_same_inputs w : same_inputs (update_status w).2 w.
Proof.
  repeat split.
  - by apply (update_status_keeps (same stack_dir)).
  - by apply (update_status_keeps (same fs)).
  - by apply (update_status_keeps (same environ)).
  - by apply (update_status_keeps (same host)).
Qed.

Lemma update_status_log w :
  exists l, applog (update_status w).2 = (applog w ++ l)%list
            /\ (List.length l <= 1)%nat
            /\ (FS.path_exists (fs w) (mysql_socket w) = false -> l = []).
Proof.
  unfold update_status.
  destruct (check_stack_health_run w) as [[h E]|[e E]].
  2: { rewrite (bind_raise check_stack_health _ w _ _ E). exists []. simpl.
       rewrite app_nil_r. auto. }
  rewrite (bind_ret check_stack_health _ w _ _ E).
  destruct w. unfold mysql_socket.
  unfold mbind, M_bind, get_world, mret, M_ret, set_widgets, modify. simpl.
  repeat match goal with
    | |- context [if FS.path_exists ?t ?p then _ else _] =>
        destruct (FS.path_exists t p); simpl
    | |- context [match FS.realpath ?t ?p with _ => _ end] =>
        destruct (FS.realpath t p); simpl
    end;
    match goal with
    | |- context [check_mysql_status ?x] =>
        destruct (check_mysql_status_run x) as (bb & ll & Ex & Hl & Hs);
        rewrite Ex; unfold mysql_socket in Hs; simpl in *;
        destruct Hl as [->|[mm ->]];
        [ exists []; rewrite app_nil_r; destruct bb; simpl; auto
        | exists [log_entry x mm]; destruct bb; simpl;
          (split; [reflexivity|]); (split; [lia|]);
          intros Hn; destruct (Hs Hn) as [Hc _];
          apply (f_equal (@List.length string)) in Hc; rewrite length_app in Hc; simpl in Hc; lia ]
    end.
Qed.


Lemma after_probes_same_inputs n : forall w, same_inputs (after_probes n w) w.
Proof.
  induction n as [|n IH]; intros w; simpl; [done|].
  destruct (IH (update_status w).2) as (?&?&?&?).
  destruct (update_status_same_inputs w) as (?&?&?&?).
  repeat split; congruence.
Qed.

Lemma after_probes_keeps {B} (proj : world -> B) n :
  (forall l w, proj (set_applog l w) = proj w) ->
  (forall g w, proj (set_gui g w) = proj w) ->
  forall w, proj (after_probes n w) = proj w.
Proof.
  intros H1 H2. induction n as [|n IH]; intros w; simpl; [done|].
  rewrite IH. by apply (update_status_keeps (same proj)).
Qed.

Lemma after_probes_log n : forall w,
  exists l, applog (after_probes n w) = (applog w ++ l)%list
            /\ (List.length l <= n)%nat
            /\ (FS.path_exists (fs w) (mysql_socket w) = false -> l = []).
Proof.
  induction n as [|n IH]; intros w; simpl.
  - exists []. rewrite app_nil_r. auto.
  - destruct (IH (update_status w).2) as (l2 & E2 & Hl2 & Hs2).
    destruct (update_status_log w) as (l1 & E1 & Hl1 & Hs1).
    destruct (update_status_same_inputs w) as (Hsd & Hfs & _).
    exists (l1 ++ l2)%list. rewrite E2, E1, <- app_assoc, length_app.
    split; [done|]. split; [lia|].
    intros Hn. rewrite Hs1 by done. rewrite Hs2; [done|].
    unfold mysql_socket. by rewrite Hsd, Hfs.
Qed.

Lemma update_status_repeat n : forall w,
  let w1 := (update_status w).2 in
  let wn := after_probes n w1 in
  (update_status wn).1 = (update_status w).1
  /\ status_labels (gui (update_status wn).2) = status_labels (gui w1).
Proof.
  assert (forall w, let w1 := (update_status w).2 in
            (update_status w1).1 = (update_status w).1
            /\ status_labels (gui (update_status w1).2) = status_labels (gui w1))
    as Hstep.
  { intros w w1.
    destruct (update_status_inputs w1 w (update_status_same_inputs w)) as [Ho Hl].
    split; [done|]. destruct (update_status w1).1; [done | by destruct Hl as [-> _]]. }
  induction n as [|n IH]; intros w; simpl; [apply Hstep|].
  destruct (IH (update_status w).2) as [Ho Hl].
  destruct (Hstep w) as [Ho' Hl']. simpl in *. split; congruence.
Qed.


(** *** Stopping *)

Ltac unfold_run :=
  unfold kill_from_pid_file in *;
  unfold note_call, message_box, single_shot, set_widgets, fs_read, py_int,
    os_kill, popen, subprocess_run, log_message, fs_update in *;
  unfold mbind, M_bind, mret, M_ret, get_world, modify, raise, try_except,
    any_exception in *.


Lemma log_entry_same w w' message :
  now w' = now w -> host w' = host w -> log_entry w' message = log_entry w message.
Proof. unfold log_entry. by intros -> ->. Qed.



Lemma stop_service_keeps R `{!Reflexive R} `{!Transitive R} s :
  (forall l w, R w (set_applog l w)) -> (forall l w, R w (set_signals l w)) ->
  (forall l w, R w (set_dialogs l w)) -> (forall l w, R w (set_calls l w)) ->
  keeps R (stop_service s).
Proof.
  intros H1 H2 H3 H4. unfold stop_service, kill_from_pid_file.
  repeat keeps_prog ltac:(auto).
Qed.

(** Without the administrative client the database is sent nothing. *)
Lemma stop_mysql_no_admin w :
  FS.path_exists (fs w) (stack_dir w ++ ["mariadb"; "bin"; "mariadb-admin"]) = false ->
  signals (stop_service Mysql w).2 = signals w
  /\ (log_writable w ->
      (stop_service Mysql w).1 = Ret tt
      /\ (env_resolves w -> exists m,
            applog (stop_service Mysql w).2 =
            (applog w ++
               [log_entry w m;
                log_entry w "MySQL admin not found, cannot stop gracefully";
                log_entry w "Stopped mysql service"])%list)).
Proof.
  intros Ha.
  assert (exists r w', stop_service Mysql w = (r, w') /\ signals w' = signals w
            /\ (log_writable w -> r = Ret tt
                /\ (env_resolves w -> exists m,
                      applog w' =
                      (applog w ++
                         [log_entry w m;
                          log_entry w "MySQL admin not found, cannot stop gracefully";
                          log_entry w "Stopped mysql service"])%list))) as H.
  { unfold stop_service.
    unfold mbind at 1. unfold M_bind at 1. unfold note_call, modify at 1.
    set (w0 := set_calls _ w).
    assert (log_writable w -> log_writable w0) as Hw0 by done.
    assert (env_resolves w -> env_resolves w0) as Hr0 by done.
    destruct (get_environment_run w0) as (r & l & E & Hl' & Hl).
    unfold try_except. destruct r as [env|e].
    - rewrite (bind_ret get_environment _ w0 _ _ E).
      unfold_run; simpl. rewrite Ha. simpl.
      destruct (FS.is_dir (fs w) (stack_dir w)) eqn:Hd; simpl;
        rewrite ?Hd; simpl; rewrite ?Hd; simpl.
      + eexists _, _. split; [reflexivity|]. simpl. split; [reflexivity|].
        intros _. split; [reflexivity|]. intros Hr.
        destruct (Hl Hd) as [(env' & m & _ & ->)|(msg & ? & _)]; [|done].
        exists m. simpl. rewrite <- !app_assoc. reflexivity.
      + eexists _, _. split; [reflexivity|]. simpl. split; [reflexivity|].
        unfold log_writable. congruence.
    - rewrite (bind_raise get_environment _ w0 _ _ E).
      unfold_run; simpl.
      destruct (FS.is_dir (fs w) (stack_dir w)) eqn:Hd; simpl;
        rewrite ?Hd; simpl; rewrite ?Hd; simpl.
      + eexists _, _. split; [reflexivity|]. simpl. split; [reflexivity|].
        intros _. split; [reflexivity|]. intros Hr.
        destruct (Hl Hd) as [(env' & m & ? & _)|(msg & _ & _ & Hne)]; [done|].
        by destruct Hne; apply Hr0.
      + eexists _, _. split; [reflexivity|]. simpl. split; [reflexivity|].
        unfold log_writable. congruence. }
  destruct H as (r & w' & E & Hs & Hl). rewrite E. simpl. auto.
Qed.


(** *** Switching the PHP version *)

#[global] Instance current_frame_refl : Reflexive current_frame.
Proof. by intros w. Qed.
#[global] Instance current_frame_trans : Transitive current_frame.
Proof.
  intros w1 w2 w3 (Hs1 & H1 & L1) (Hs2 & H2 & L2).
  split; [congruence|]. split.
  - intros k Hk. rewrite H2, H1; [done | done |].
    intros Hq. apply Hk. by apply L1.
  - intros q Hq. by apply L1, L2.
Qed.





#[global] Instance current_frame_at_refl root : Reflexive (current_frame_at root).
Proof. by intros w _. Qed.
#[global] Instance current_frame_at_trans root : Transitive (current_frame_at root).
Proof.
  intros w1 w2 w3 H1 H2 Hs. specialize (H1 Hs).
  etrans; [exact H1|]. apply H2. destruct H1 as [-> _]. exact Hs.
Qed.







(** *** Starting *)

Lemma stays_writable_log l w : stays_writable w (set_applog l w).
Proof. by split. Qed.

Lemma stays_writable_mkdir_p w p t :
  FS.mkdir_p (fs w) p = Some t -> stays_writable w (set_fs t w).
Proof.
  intros H. split; [done|]. unfold log_writable. simpl.
  rewrite !FSFacts.is_dir_stat. by apply FSFacts.stat_mkdir_p with p.
Qed.

Lemma stays_writable_write_file w p c t :
  FS.write_file (fs w) p c = Some t -> stays_writable w (set_fs t w).
Proof.
  intros H. split; [done|]. unfold log_writable. simpl.
  by apply FSFacts.is_dir_write_file with p c.
Qed.

Lemma start_service_run s w :
  log_writable w ->
  exists w',
    start_service s w = (Ret tt, w')
    /\ calls w' = (calls w ++ [(now w, StartCall s)])%list
    /\ timers w' = timers w /\ now w' = now w /\ host w' = host w
    /\ stack_dir w' = stack_dir w /\ log_writable w'.
Proof.
  intros Hw. unfold start_service.
  unfold mbind at 1. unfold M_bind at 1. unfold note_call, modify at 1.
  set (w0 := set_calls _ w).
  match goal with
  | |- context [try_except _ ?body ?handler] =>
      set (b := body); set (h := handler)
  end.
  assert (forall R, Reflexive R -> Transitive R ->
            (forall l w, R w (set_applog l w)) ->
            (forall l w, R w (set_spawned l w)) ->
            (forall l w, R w (set_dialogs l w)) ->
            (forall w p t, FS.mkdir_p (fs w) p = Some t -> R w (set_fs t w)) ->
            (forall w p c t, FS.write_file (fs w) p c = Some t -> R w (set_fs t w)) ->
            keeps R b /\ forall e, keeps R (h e)) as Hk.
  { intros R ? ? H1 H2 H3 H4 H5. unfold b, h. split; [|intros e].
    - destruct s; repeat keeps_prog ltac:(intros; simpl in *; eauto).
    - repeat keeps_prog ltac:(intros; simpl in *; eauto). }
  assert (forall {B} (proj : world -> B),
            (forall l w, proj (set_applog l w) = proj w) ->
            (forall l w, proj (set_spawned l w) = proj w) ->
            (forall l w, proj (set_dialogs l w) = proj w) ->
            (forall t w, proj (set_fs t w) = proj w) ->
            proj (try_except any_exception b h w0).2 = proj w0) as Hsame.
  { intros B proj H1 H2 H3 H4.
    destruct (Hk (same proj) _ _) as [Hb Hh]; unfold same; auto.
    apply (keeps_try (same proj)); auto. }
  destruct (Hk stays_writable _ _) as [Hb Hh];
    [ apply stays_writable_log | done | done
    | apply stays_writable_mkdir_p | apply stays_writable_write_file |].
  assert (stays_writable w0 (try_except any_exception b h w0).2) as [Hsd Hlw]
    by (apply (keeps_try stays_writable); auto).
  assert ((try_except any_exception b h w0).1 = Ret tt) as Hret.
  { unfold try_except. pose proof (Hb w0) as [_ Hb0].
    destruct (b w0) as [[[]|e] w1]; [done|]. simpl in *.
    unfold h. unfold_run. simpl.
    unfold log_writable in Hb0. rewrite (Hb0 Hw). reflexivity. }
  pose proof (Hsame _ calls) as Hc. pose proof (Hsame _ timers) as Ht.
  pose proof (Hsame _ now) as Hn. pose proof (Hsame _ host) as Hh'.
  destruct (try_except any_exception b h w0) as [r w'] eqn:E. simpl in *.
  subst r. exists w'. split; [reflexivity|].
  repeat split; auto.
Qed.


Lemma load_environment_run w :
  log_writable w -> env_resolves w ->
  exists env w',
    load_environment w = (Ret env, w')
    /\ calls w' = calls w /\ timers w' = timers w /\ now w' = now w
    /\ host w' = host w /\ stack_dir w' = stack_dir w /\ fs w' = fs w.
Proof.
  intros Hw Hr. unfold load_environment.
  destruct (get_environment_run w) as (r & l & E & _ & Hl).
  destruct (Hl Hw) as [(env & m & -> & ->)|(msg & _ & _ & Hne)]; [|done].
  rewrite (bind_ret get_environment _ w _ _ E).
  unfold log_writable in Hw. unfold_run. simpl. rewrite Hw.
  eexists _, _. split; [reflexivity|]. simpl. auto 10.
Qed.

Lemma start_all_services_run w :
  log_writable w -> (auto_load_env (gui w) = true -> env_resolves w) ->
  exists w1,
    start_all_services w = (Ret tt, w1)
    /\ calls w1 = (calls w ++ [(now w, StartCall Mysql)])%list
    /\ timers w1 = (timers w ++ [(now w + 2000, CbStartService Php);
                                 (now w + 4000, CbStartService Nginx)])%list
    /\ now w1 = now w /\ log_writable w1.
Proof.
  intros Hw Hr. unfold start_all_services.
  rewrite (bind_ret _ _ _ _ _ (log_message_ok _ w Hw)).
  set (wa := set_applog _ w).
  rewrite (bind_ret get_world _ wa wa wa eq_refl).
  assert (log_writable wa) as Hwa by exact Hw.
  assert (exists wb, (if auto_load_env (gui wa)
                      then load_environment ≫= (fun _ => mret tt)
                      else mret tt) wa = (Ret tt, wb)
                     /\ calls wb = calls w /\ timers wb = timers w
                     /\ now wb = now w /\ log_writable wb) as (wb & Eb & Hb).
  { change (gui wa) with (gui w). destruct (auto_load_env (gui w)) eqn:Ea.
    - destruct (load_environment_run wa Hwa) as (env & wb & E & H1 & H2 & H3 & H4 & H5 & H6).
      { by apply Hr. }
      rewrite (bind_ret load_environment _ wa _ _ E).
      exists wb. split; [reflexivity|]. repeat split; auto.
      unfold log_writable. by rewrite H5, H6.
    - exists wa. split; [reflexivity|]. auto. }
  rewrite (bind_ret _ _ wa _ _ Eb).
  destruct Hb as (Hc & Ht & Hn & Hwb).
  destruct (start_service_run Mysql wb Hwb) as (wc & Ec & Hc' & Ht' & Hn' & _ & _ & Hwc).
  rewrite (bind_ret _ _ wb _ _ Ec).
  unfold single_shot, modify, mbind, M_bind. simpl.
  eexists. split; [reflexivity|]. simpl.
  rewrite Hc', Ht', Hn', Hc, Ht, Hn. repeat split; auto.
  by rewrite <- app_assoc.
Qed.

Lemma start_requests_app l1 l2 :
  start_requests (l1 ++ l2) = (start_requests l1 ++ start_requests l2)%list.
Proof. unfold start_requests. apply omap_app. Qed.

(** *** The timers *)

Lemma keeps_for_each {A S} R `{!Reflexive R} `{!Transitive R}
    (body : S -> A -> M S) (l : list A) :
  (forall s x, x ∈ l -> keeps R (body s x)) ->
  forall s, keeps R (for_each body l s).
Proof.
  induction l as [|x l IH]; intros Hb s; simpl.
  - by apply keeps_ret.
  - apply keeps_bind; try apply _.
    + apply Hb. by left.
    + intros s'. apply IH. intros s0 y Hy. apply Hb. by right.
Qed.

Ltac keeps_loop side :=
  first [ apply keeps_for_each; [apply _ | apply _ | intros ? ? ?]
        | keeps_prog side ].

Lemma start_service_keeps R `{!Reflexive R} `{!Transitive R} s :
  (forall l w, R w (set_applog l w)) -> (forall l w, R w (set_spawned l w)) ->
  (forall l w, R w (set_dialogs l w)) -> (forall l w, R w (set_calls l w)) ->
  (forall t w, R w (set_fs t w)) ->
  keeps R (start_service s).
Proof.
  intros H1 H2 H3 H4 H5. unfold start_service.
  destruct s; repeat keeps_prog ltac:(intros; simpl in *; eauto).
Qed.

Lemma clean_logs_keeps dir_size R `{!Reflexive R} `{!Transitive R} :
  (forall l w, R w (set_applog l w)) -> (forall l w, R w (set_dialogs l w)) ->
  (forall t w, R w (set_fs t w)) ->
  keeps R (clean_logs dir_size).
Proof.
  intros H1 H2 H3. unfold clean_logs.
  repeat keeps_loop ltac:(try solve [intros; simpl in *; eauto]).
Qed.

Lemma clean_temp_files_keeps R `{!Reflexive R} `{!Transitive R} :
  (forall l w, R w (set_applog l w)) -> (forall t w, R w (set_fs t w)) ->
  keeps R clean_temp_files.
Proof.
  intros H1 H2. unfold clean_temp_files.
  repeat keeps_loop ltac:(try solve [intros; simpl in *; eauto]).
Qed.

Lemma load_environment_keeps R `{!Reflexive R} `{!Transitive R} :
  (forall l w, R w (set_applog l w)) -> (forall g w, R w (set_gui g w)) ->
  keeps R load_environment.
Proof.
  intros H1 H2. unfold load_environment.
  repeat keeps_prog ltac:(try solve [intros; simpl in *; eauto]).
Qed.

Lemma start_service_calls s w :
  calls (start_service s w).2 = (calls w ++ [(now w, StartCall s)])%list.
Proof.
  unfold start_service. unfold mbind at 1. unfold M_bind at 1.
  unfold note_call, modify at 1.
  set (w0 := set_calls _ w). set (m := try_except _ _ _).
  assert (keeps (same calls) m) as Hk.
  { unfold m. destruct s; repeat keeps_prog ltac:(try done). }
  apply (Hk w0).
Qed.

Lemma start_service_same {B} (proj : world -> B) s w :
  (forall l w, proj (set_applog l w) = proj w) ->
  (forall l w, proj (set_spawned l w) = proj w) ->
  (forall l w, proj (set_dialogs l w) = proj w) ->
  (forall l w, proj (set_calls l w) = proj w) ->
  (forall t w, proj (set_fs t w) = proj w) ->
  proj (start_service s w).2 = proj w.
Proof.
  intros. by apply (start_service_keeps (same proj)).
Qed.

(** What [start_all_services] leaves, whether it returns or raises. *)
Lemma start_all_services_cases w :
  now (start_all_services w).2 = now w
  /\ match (start_all_services w).1 with
     | Ret _ =>
         calls (start_all_services w).2 = (calls w ++ [(now w, StartCall Mysql)])%list
         /\ timers (start_all_services w).2
            = (timers w ++ [(now w + 2000, CbStartService Php);
                            (now w + 4000, CbStartService Nginx)])%list
     | Raise _ =>
         calls (start_all_services w).2 = calls w
         /\ timers (start_all_services w).2 = timers w
     end.
Proof.
  enough (forall res, res = start_all_services w ->
            now res.2 = now w
            /\ match res.1 with
               | Ret _ =>
                   calls res.2 = (calls w ++ [(now w, StartCall Mysql)])%list
                   /\ timers res.2
                      = (timers w ++ [(now w + 2000, CbStartService Php);
                                      (now w + 4000, CbStartService Nginx)])%list
               | Raise _ => calls res.2 = calls w /\ timers res.2 = timers w
               end) as H by exact (H _ eq_refl).
  intros res. unfold start_all_services.
  unfold mbind at 1. unfold M_bind at 1. unfold log_message at 1.
  destruct (FS.is_dir (fs w) (stack_dir w)) eqn:Hw; [|by intros ->].
  set (wa := set_applog _ w).
  rewrite (bind_ret get_world _ wa wa wa eq_refl).
  unfold mbind at 1. unfold M_bind at 1.
  assert (exists r wb,
            (if auto_load_env (gui wa)
             then load_environment ≫= (fun _ => mret tt)
             else mret tt) wa = (r, wb)
            /\ calls wb = calls w /\ timers wb = timers w /\ now wb = now w
            /\ log_writable wb)
    as (r & wb & -> & Hc & Ht & Hn & Hwb).
  { destruct (auto_load_env (gui wa)).
    - assert (forall {B} (proj : world -> B),
                (forall l w, proj (set_applog l w) = proj w) ->
                (forall g w, proj (set_gui g w) = proj w) ->
                proj ((load_environment ≫= (fun _ => mret tt)) wa).2 = proj wa) as Hs.
      { intros B proj H1 H2. apply (keeps_bind (same proj)).
        - by apply load_environment_keeps; try apply _.
        - intros ?. apply keeps_ret. apply _. }
      pose proof (Hs _ calls) as H1. pose proof (Hs _ timers) as H2.
      pose proof (Hs _ now) as H3. pose proof (Hs _ fs) as H4.
      pose proof (Hs _ stack_dir) as H5.
      destruct ((load_environment ≫= (fun _ => mret tt)) wa) as [r wb].
      exists r, wb. split; [done|]. simpl in *.
      rewrite H1, H2, H3 by done. repeat split.
      unfold log_writable. rewrite H4, H5 by done. exact Hw.
    - exists (Ret tt), wa. repeat split. exact Hw. }
  destruct r as [[]|e]; [|by intros ->].
  unfold mbind at 1. unfold M_bind at 1.
  destruct (start_service_run Mysql wb Hwb) as (wc & -> & Hc' & Ht' & Hn' & _).
  unfold single_shot, modify, mbind, M_bind. intros ->. simpl.
  rewrite Hc', Ht', Hn', Hc, Ht, Hn. repeat split.
  by rewrite <- app_assoc.
Qed.

(** The timer picked is a pending one, none is due earlier, and the
    others stay pending. *)
Lemma pick_timer_spec l : forall best before after m rest,
  pick_timer best before after l = (m, rest) ->
  (m :: rest) ≡ₚ (before ++ best :: after ++ l)%list
  /\ (Forall (fun x => best.1 <= x.1)%nat (before ++ after) ->
      Forall (fun x => m.1 <= x.1)%nat (m :: rest)).
Proof.
  induction l as [|t l IH]; intros best before after m rest; simpl.
  - intros H; inversion H; subst. rewrite app_nil_r. split.
    + by rewrite Permutation_middle.
    + intros Hf. constructor; [lia | done].
  - destruct (t.1 <? best.1)%nat eqn:E.
    + apply Nat.ltb_lt in E. intros H. apply IH in H as [Hp Hf]. split.
      * rewrite Hp. rewrite <- !app_assoc. simpl.
        by apply Permutation_app_head.
      * intros Hb. apply Hf. rewrite app_nil_r.
        rewrite Forall_app in Hb. destruct Hb as [Hb1 Hb2].
        rewrite Forall_app, Forall_cons. repeat split.
        -- eapply Forall_impl; [exact Hb1|]. simpl. intros; lia.
        -- lia.
        -- eapply Forall_impl; [exact Hb2|]. simpl. intros; lia.
    + apply Nat.ltb_ge in E. intros H. apply IH in H as [Hp Hf]. split.
      * rewrite Hp. by rewrite <- !app_assoc.
      * intros Hb. apply Hf. rewrite app_assoc, Forall_app, Forall_singleton.
        split; [done | lia].
Qed.

Lemma pick_timer_first t l m rest :
  pick_timer t [] [] l = (m, rest) ->
  (m :: rest) ≡ₚ (t :: l) /\ Forall (fun x => m.1 <= x.1)%nat (t :: l).
Proof.
  intros H. apply pick_timer_spec in H as [Hp Hf]. simpl in Hp.
  split; [done|]. rewrite <- Hp. by apply Hf.
Qed.

(** What a callback leaves of the clock, the requests and the timers. *)
Lemma run_callback_effect dir_size cb w :
  let w' := (run_callback dir_size cb w).2 in
  now w' = now w
  /\ match cb with
     | CbStartService s =>
         calls w' = (calls w ++ [(now w, StartCall s)])%list /\ timers w' = timers w
     | CbStartAllServices =>
         (exists c, calls w' = (calls w ++ c)%list)
         /\ (timers w' = timers w
             \/ timers w' = (timers w ++ [(now w + 2000, CbStartService Php);
                                          (now w + 4000, CbStartService Nginx)])%list)
     | _ => calls w' = calls w /\ timers w' = timers w
     end.
Proof.
  destruct cb as [s| | |]; cbn [run_callback].
  - split; [by apply start_service_same|].
    split; [apply start_service_calls | by apply start_service_same].
  - destruct (start_all_services_cases w) as [Hn H]. split; [exact Hn|].
    destruct (start_all_services w).1; destruct H as [-> ->].
    + split; [by eexists | by right].
    + split; [exists []; by rewrite app_nil_r | by left].
  - repeat split; by apply (clean_logs_keeps dir_size (same _)).
  - repeat split; by apply (clean_temp_files_keeps (same _)).
Qed.

Lemma run_callback_grows dir_size cb w :
  let w' := (run_callback dir_size cb w).2 in
  now w' = now w
  /\ (exists c, calls w' = (calls w ++ c)%list)
  /\ (exists l, timers w' = (timers w ++ l)%list)
  /\ (rounds_needed w' <= rounds_needed w + (if is_start_all (0, cb) then 2 else 0))%nat.
Proof.
  intros w'. destruct (run_callback_effect dir_size cb w) as [Hn H].
  fold w' in Hn, H. split; [exact Hn|]. unfold rounds_needed.
  destruct cb as [s| | |]; simpl in *.
  - destruct H as [-> ->]. split; [by eexists|]. split; [|lia].
    exists []. by rewrite app_nil_r.
  - destruct H as [Hc [-> | ->]]; (split; [exact Hc|]).
    + split; [exists []; by rewrite app_nil_r | lia].
    + split; [by eexists|]. rewrite List.filter_app, !length_app. simpl. lia.
  - destruct H as [-> ->]. split; [exists []; by rewrite app_nil_r|].
    split; [|lia]. exists []. by rewrite app_nil_r.
  - destruct H as [-> ->]. split; [exists []; by rewrite app_nil_r|].
    split; [|lia]. exists []. by rewrite app_nil_r.
Qed.

(** One round of the loop. *)
Lemma run_timers_cons dir_size lag lags w t l m rest :
  timers w = t :: l -> pick_timer t [] [] l = (m, rest) ->
  let time := (Nat.max (now w) m.1 + lag)%nat in
  let w' := (run_callback dir_size m.2 (set_now time (set_timers rest w))).2 in
  run_timers dir_size (lag :: lags) w
  = ((time, m) :: (run_timers dir_size lags w').1, (run_timers dir_size lags w').2).
Proof.
  intros Ht Hp. cbn [run_timers]. rewrite Ht, Hp. destruct m as [due cb].
  cbn [fst snd]. by destruct (run_timers dir_size lags _).
Qed.

Lemma run_timers_done dir_size lags w :
  timers w = [] -> run_timers dir_size lags w = ([], w).
Proof. intros H. destruct lags; simpl; [done|]. by rewrite H. Qed.

Lemma filter_length_perm {A} (f : A -> bool) l1 l2 :
  l1 ≡ₚ l2 -> List.length (List.filter f l1) = List.length (List.filter f l2).
Proof.
  induction 1 as [|x l1 l2 _ IH|x y l|l1 l2 l3 _ IH1 _ IH2]; simpl;
    try destruct (f x); try destruct (f y); simpl; congruence.
Qed.

(** No timer fires before it is due, nor before the loop is entered. *)
Lemma run_timers_times dir_size lags : forall w f,
  f ∈ (run_timers dir_size lags w).1 -> (now w <= f.1 /\ f.2.1 <= f.1)%nat.
Proof.
  induction lags as [|lag lags IH]; intros w f; [simpl; by rewrite elem_of_nil|].
  destruct (timers w) as [|t l] eqn:Ht;
    [rewrite run_timers_done by done; simpl; by rewrite elem_of_nil|].
  destruct (pick_timer t [] [] l) as [m rest] eqn:Hp.
  rewrite (run_timers_cons _ _ _ _ _ _ _ _ Ht Hp). cbn [fst].
  rewrite elem_of_cons. intros [-> | Hf].
  - simpl. lia.
  - apply IH in Hf.
    destruct (run_callback_grows dir_size m.2
                (set_now (Nat.max (now w) m.1 + lag) (set_timers rest w))) as [Hn _].
    rewrite Hn in Hf. simpl in Hf. lia.
Qed.

(** The firings are recorded in the order of their times. *)
Lemma run_timers_sorted dir_size lags : forall w l1 x l2 y,
  (run_timers dir_size lags w).1 = (l1 ++ x :: l2)%list -> y ∈ l1 -> (y.1 <= x.1)%nat.
Proof.
  induction lags as [|lag lags IH]; intros w l1 x l2 y; [simpl; by destruct l1|].
  destruct (timers w) as [|t l] eqn:Ht;
    [rewrite run_timers_done by done; simpl; by destruct l1|].
  destruct (pick_timer t [] [] l) as [m rest] eqn:Hp.
  rewrite (run_timers_cons _ _ _ _ _ _ _ _ Ht Hp). cbn [fst].
  destruct l1 as [|z l1]; [by rewrite elem_of_nil|].
  simpl. intros H; inversion H as [[Hz Hl]]. rewrite elem_of_cons. intros [-> | Hy].
  - assert (x ∈ (run_timers dir_size lags
                   (run_callback dir_size m.2
                      (set_now (Nat.max (now w) m.1 + lag) (set_timers rest w))).2).1)
      as Hx by (rewrite Hl; apply elem_of_app; right; by left).
    apply run_timers_times in Hx as [Hx _].
    destruct (run_callback_grows dir_size m.2
                (set_now (Nat.max (now w) m.1 + lag) (set_timers rest w))) as [Hn _].
    rewrite Hn in Hx. simpl in *. lia.
  - eapply IH; [exact Hl | exact Hy].
Qed.

(** A timer does not fire while one due earlier is pending. *)
Lemma run_timers_order dir_size a b lags : forall w l1 t2 l2,
  (a.1 < b.1)%nat -> a ∈ timers w ->
  (run_timers dir_size lags w).1 = (l1 ++ (t2, b) :: l2)%list ->
  exists t1, (t1, a) ∈ l1.
Proof.
  induction lags as [|lag lags IH]; intros w l1 t2 l2 Hab Ha; [simpl; by destruct l1|].
  destruct (timers w) as [|t l] eqn:Ht; [by apply elem_of_nil in Ha|].
  destruct (pick_timer t [] [] l) as [m rest] eqn:Hp.
  rewrite (run_timers_cons _ _ _ _ _ _ _ _ Ht Hp). cbn [fst].
  destruct (pick_timer_first _ _ _ _ Hp) as [Hperm Hmin].
  assert (m.1 <= a.1)%nat as Hma by (rewrite Forall_forall in Hmin; by apply Hmin).
  destruct l1 as [|z l1]; simpl; intros H; inversion H as [[Hz Hl]].
  - subst m. lia.
  - rewrite <- Hperm in Ha. apply elem_of_cons in Ha as [->|Hr].
    + eexists. by left.
    + destruct (run_callback_grows dir_size m.2
                  (set_now (Nat.max (now w) m.1 + lag) (set_timers rest w)))
        as (_ & _ & [l' Hl'] & _).
      assert (a ∈ timers (run_callback dir_size m.2
                (set_now (Nat.max (now w) m.1 + lag) (set_timers rest w))).2) as Ha'.
      { rewrite Hl'. apply elem_of_app. left. exact Hr. }
      destruct (IH _ l1 t2 l2 Hab Ha' Hl) as [t1 Ht1].
      exists t1. by right.
Qed.

(** The requests of the firings are in the record of requests, in the
    order of the firings. *)
Lemma run_timers_calls dir_size lags : forall w,
  exists c,
    calls (run_timers dir_size lags w).2 = (calls w ++ c)%list
    /\ sublist (start_calls_of (run_timers dir_size lags w).1) c.
Proof.
  induction lags as [|lag lags IH]; intros w;
    [exists []; simpl; by rewrite app_nil_r|].
  destruct (timers w) as [|t l] eqn:Ht;
    [rewrite run_timers_done by done; exists []; simpl; by rewrite app_nil_r|].
  destruct (pick_timer t [] [] l) as [m rest] eqn:Hp.
  rewrite (run_timers_cons _ _ _ _ _ _ _ _ Ht Hp). cbn [fst snd].
  set (time := (Nat.max (now w) m.1 + lag)%nat).
  set (w1 := set_now time (set_timers rest w)).
  destruct (IH (run_callback dir_size m.2 w1).2) as (c & -> & Hs).
  destruct (run_callback_effect dir_size m.2 w1) as [_ H].
  destruct m as [due cb]. unfold start_calls_of. cbn [omap list_omap fst snd] in *.
  fold (start_calls_of (run_timers dir_size lags (run_callback dir_size cb w1).2).1).
  destruct cb as [s| | |]; cbn [fst snd] in *.
  - destruct H as [-> _]. exists ((time, StartCall s) :: c).
    split; [by rewrite <- app_assoc|]. by constructor.
  - destruct H as [[c0 ->] _]. exists (c0 ++ c)%list.
    split; [by rewrite <- app_assoc|]. by apply sublist_inserts_l.
  - destruct H as [-> _]. by exists c.
  - destruct H as [-> _]. by exists c.
Qed.

(** Every pending timer fires, given rounds enough. *)
Lemma run_timers_fires dir_size lags : forall w x,
  x ∈ timers w -> (rounds_needed w <= List.length lags)%nat ->
  exists t, (t, x) ∈ (run_timers dir_size lags w).1.
Proof.
  induction lags as [|lag lags IH]; intros w x Hx Hn.
  { unfold rounds_needed in Hn. destruct (timers w); [by apply elem_of_nil in Hx|].
    simpl in Hn. lia. }
  destruct (timers w) as [|t l] eqn:Ht; [by apply elem_of_nil in Hx|].
  destruct (pick_timer t [] [] l) as [m rest] eqn:Hp.
  rewrite (run_timers_cons _ _ _ _ _ _ _ _ Ht Hp). cbn [fst].
  destruct (pick_timer_first _ _ _ _ Hp) as [Hperm _].
  rewrite <- Hperm in Hx. apply elem_of_cons in Hx as [->|Hr]; [eexists; by left|].
  set (w1 := set_now (Nat.max (now w) m.1 + lag) (set_timers rest w)).
  destruct (run_callback_grows dir_size m.2 w1) as (_ & _ & [l' Hl'] & Hrn).
  destruct (IH (run_callback dir_size m.2 w1).2 x) as [t' Ht'].
  - rewrite Hl'. apply elem_of_app. by left.
  - assert (rounds_needed w1 + (if is_start_all (0, m.2) then 2 else 0) + 1
            <= rounds_needed w)%nat; [|simpl in *; lia].
    unfold rounds_needed, w1. simpl. rewrite Ht.
    assert (List.length (t :: l) = S (List.length rest)) as ->
      by (rewrite <- Hperm; done).
    assert (List.length (List.filter is_start_all (t :: l))
            = List.length (List.filter is_start_all (m :: rest))) as ->.
    { apply filter_length_perm. by symmetry. }
    simpl. change (is_start_all (0%nat, m.2)) with (is_start_all m).
    destruct (is_start_all m); simpl; lia.
  - exists t'. by right.
Qed.


(** *** Configuration files *)

Lemma read_file_exists t p c :
  FS.read_file t p = Some c -> FS.path_exists t p = true.
Proof.
  rewrite FSFacts.read_file_stat, FSFacts.path_exists_stat. by intros ->.
Qed.

Lemma update_nginx_port_step w (port : Z) :
  (0 <= port)%Z ->
  (FS.path_exists (fs w) (nginx_conf w) = false ->
   Text.contains ";" (FS.path_str (stack_dir w)) = false) ->
  (update_nginx_port port w).1 = Ret tt ->
  let w1 := (update_nginx_port port w).2 in
  stack_dir w1 = stack_dir w /\ log_writable w1
  /\ exists c1,
       FS.read_file (fs w1) (nginx_conf w) = Some c1
       /\ ((FS.path_exists (fs w) (nginx_conf w) = false
            /\ Regex.listen_ports c1 = [Text.fmt_int port])
           \/ (exists c, FS.read_file (fs w) (nginx_conf w) = Some c
                 /\ Regex.listen_ports c1
                    = (fun _ => Text.fmt_int port) <$> Regex.listen_ports c)).
Proof.
  intros Hp Hroot. unfold update_nginx_port, create_nginx_config.
  unfold_run. simpl.
  destruct (FS.path_exists (fs w) (nginx_conf w)) eqn:Ex; simpl.
  - destruct (FS.read_file (fs w) (nginx_conf w)) as [c|] eqn:Er; simpl; [|done].
    destruct (FS.write_file (fs w) (nginx_conf w) _) as [t|] eqn:Ew; simpl; [|done].
    destruct (FS.is_dir t (stack_dir w)) eqn:Ed; simpl; [|done].
    intros _. split; [done|]. split; [exact Ed|].
    eexists. split; [by apply (FSFacts.read_write_file _ _ _ _ Ew)|].
    right. exists c. split; [done|].
    by apply RegexFacts.listen_ports_sub.
  - destruct (FS.mkdir_p (fs w) _) as [t1|] eqn:Em; simpl; [|done].
    destruct (FS.write_file t1 (nginx_conf w) _) as [t|] eqn:Ew; simpl; [|done].
    destruct (FS.is_dir t (stack_dir w)) eqn:Ed; simpl; [|done].
    intros _. split; [done|]. split; [exact Ed|].
    eexists. split; [by apply (FSFacts.read_write_file _ _ _ _ Ew)|].
    left. split; [done|]. apply RegexFacts.nginx_config_ports; auto.
Qed.

Lemma update_nginx_port_completes w (port : Z) c :
  log_writable w -> FS.read_file (fs w) (nginx_conf w) = Some c ->
  (update_nginx_port port w).1 = Ret tt.
Proof.
  intros Hw Hr. unfold update_nginx_port. unfold_run. simpl.
  rewrite (read_file_exists _ _ _ Hr). simpl. rewrite Hr. simpl.
  match goal with
  | |- context [FS.write_file ?t0 ?p ?x] =>
      destruct (FSFacts.write_file_readable t0 p c x Hr) as [t Ew]; rewrite Ew
  end. simpl.
  unfold log_writable in Hw.
  by rewrite (FSFacts.is_dir_write_file _ _ _ _ _ Ew Hw).
Qed.


Lemma concat_snoc (p : path) c :
  p <> [] -> String.concat "/" (p ++ [c])%list = String.concat "/" p +:+ "/" +:+ c.
Proof.
  induction p as [|x p IH]; [done|]. intros _.
  destruct p as [|y p]; [reflexivity|].
  change (String.concat "/" ((x :: y :: p) ++ [c])%list)
    with (x +:+ "/" +:+ String.concat "/" ((y :: p) ++ [c])%list).
  rewrite IH by done.
  change (String.concat "/" (x :: y :: p))
    with (x +:+ "/" +:+ String.concat "/" (y :: p)).
  by rewrite !TextFacts.append_assoc.
Qed.

Lemma path_str_snoc w c :
  FS.path_str (stack_dir w ++ [c])%list = root_prefix w +:+ "/" +:+ c.
Proof.
  unfold root_prefix, FS.path_str. destruct (stack_dir w) as [|x p] eqn:E.
  - reflexivity.
  - rewrite concat_snoc by done. by rewrite !TextFacts.append_assoc.
Qed.

Lemma root_prefix_contains w c :
  Text.contains c (FS.path_str (stack_dir w)) = false ->
  Text.contains c (root_prefix w) = false.
Proof. unfold root_prefix. by destruct (stack_dir w). Qed.

Lemma read_file_mkdir_p t p t' x c :
  FS.mkdir_p t p = Some t' -> FS.read_file t x = Some c -> FS.read_file t' x = Some c.
Proof.
  rewrite !FSFacts.read_file_stat. apply FSFacts.stat_mkdir_p.
Qed.

Lemma write_file_refused t p c :
  FS.write_file t p c = None -> FS.read_file t p = None.
Proof.
  intros Hw. destruct (FS.read_file t p) as [c0|] eqn:Er; [|done].
  destruct (FSFacts.write_file_readable t p c0 c Er) as [t' Ht]. congruence.
Qed.

(** What [fix_mysql_socket] leaves behind: the tree as it was, when the
    configuration could not be written (there was none to read then), and
    otherwise a configuration that reads back as the template. *)
Lemma fix_mysql_socket_result w :
  let w' := (fix_mysql_socket w).2 in
  stack_dir w' = stack_dir w
  /\ ((fs w' = fs w /\ FS.read_file (fs w) (mysql_cnf w) = None)
      \/ FS.read_file (fs w') (mysql_cnf w)
         = Some (my_cnf_content (FS.path_str (stack_dir w ++ ["mariadb"])%list)
                                (mysql_port (gui w)))).
Proof.
  unfold fix_mysql_socket, mysql_cnf. unfold_run. simpl.
  rewrite <- !app_assoc. simpl.
  destruct (FS.write_file (fs w) _ _) as [t|] eqn:Ew; simpl.
  - pose proof (FSFacts.read_write_file _ _ _ _ Ew) as Hr.
    destruct (FS.is_dir t (stack_dir w)) eqn:Ed; simpl;
      [|rewrite ?Ed; simpl; split; [done|by right]].
    destruct (FS.mkdir_p t _) as [t1|] eqn:E1; simpl;
      [|rewrite ?Ed; simpl; split; [done|by right]].
    pose proof (read_file_mkdir_p _ _ _ _ _ E1 Hr) as Hr1.
    destruct (FS.mkdir_p t1 _) as [t2|] eqn:E2; simpl;
      [|destruct (FS.is_dir t1 (stack_dir w)); simpl; split; done || by right].
    pose proof (read_file_mkdir_p _ _ _ _ _ E2 Hr1) as Hr2.
    destruct (FS.mkdir_p t2 _) as [t3|] eqn:E3; simpl;
      [|destruct (FS.is_dir t2 (stack_dir w)); simpl; split; done || by right].
    pose proof (read_file_mkdir_p _ _ _ _ _ E3 Hr2) as Hr3.
    split; [done|by right].
  - apply write_file_refused in Ew.
    destruct (FS.is_dir (fs w) (stack_dir w)); simpl; split; done || by left.
Qed.

Lemma update_mysql_port_result w (port : Z) :
  (0 <= port)%Z ->
  let w' := (update_mysql_port port w).2 in
  (FS.path_exists (fs w) (mysql_cnf w) = false /\ w' = (fix_mysql_socket w).2)
  \/ (FS.path_exists (fs w) (mysql_cnf w) = true
      /\ ((fs w' = fs w /\ FS.read_file (fs w) (mysql_cnf w) = None)
          \/ exists c c',
               FS.read_file (fs w) (mysql_cnf w) = Some c
               /\ FS.read_file (fs w') (mysql_cnf w) = Some c'
               /\ Regex.port_values c'
                  = (fun _ => Text.fmt_int port) <$> Regex.port_values c)).
Proof.
  intros Hp. cbv zeta. remember (update_mysql_port port w) as r eqn:Hr.
  unfold update_mysql_port in Hr.
  unfold mbind at 1 in Hr. unfold M_bind at 1 in Hr. unfold get_world at 1 in Hr.
  cbv beta iota in Hr.
  destruct (FS.path_exists (fs w) (mysql_cnf w)) eqn:Ex;
    cbv beta iota delta [negb] in Hr; [right|left; by subst r].
  split; [done|]. subst r. unfold_run. simpl.
  destruct (FS.read_file (fs w) (mysql_cnf w)) as [c|] eqn:Er; simpl; [|by left].
  destruct (FS.write_file (fs w) (mysql_cnf w) _) as [t|] eqn:Ew; simpl;
    [|apply write_file_refused in Ew; congruence].
  right. exists c.
  exists (Regex.sub Regex.port_re ("port = " +:+ Text.fmt_int port)
            (Regex.sub Regex.port_re ("port = " +:+ Text.fmt_int port) c)).
  split; [done|]. split.
  - destruct (FS.is_dir t (stack_dir w)); simpl;
      exact (FSFacts.read_write_file _ _ _ _ Ew).
  - rewrite RegexFacts.port_sub_twice by done.
    by apply RegexFacts.port_values_sub.
Qed.

Lemma update_mysql_port_completes w (port : Z) c :
  log_writable w -> FS.read_file (fs w) (mysql_cnf w) = Some c ->
  (update_mysql_port port w).1 = Ret tt
  /\ exists c', FS.read_file (fs (update_mysql_port port w).2) (mysql_cnf w) = Some c'.
Proof.
  intros Hw Hr. unfold update_mysql_port. unfold_run. simpl.
  rewrite (read_file_exists _ _ _ Hr). simpl. rewrite Hr. simpl.
  match goal with
  | |- context [FS.write_file ?t0 ?p ?x] =>
      destruct (FSFacts.write_file_readable t0 p c x Hr) as [t Ew]; rewrite Ew
  end. simpl.
  unfold log_writable in Hw.
  rewrite (FSFacts.is_dir_write_file _ _ _ _ _ Ew Hw). simpl.
  split; [done|]. eexists. apply (FSFacts.read_write_file _ _ _ _ Ew).
Qed.

Lemma ports_agree_const (v : string) (l : list string) c :
  Regex.port_values c = (fun _ => v) <$> l -> ports_agree c.
Proof.
  intros H x y. rewrite H, !list_elem_of_fmap.
  by intros (? & -> & _) (? & -> & _).
Qed.


(** *** PHP versions *)

Lemma remove_dots_digits s :
  Text.forallb_str Text.is_digit_char (Text.remove_char "." s) = digits_and_dots s.
Proof.
  unfold digits_and_dots. induction s as [|c s IH]; [done|].
  cbn [Text.forallb_str Text.remove_char].
  destruct (Ascii.eqb_spec "." c) as [<-|Hc].
  - by rewrite IH, orb_true_r.
  - cbn [Text.forallb_str]. by rewrite IH, orb_false_r.
Qed.

Lemma remove_dots_some_digit s :
  Text.existsb_str Text.is_digit_char (Text.remove_char "." s)
  = Text.existsb_str Text.is_digit_char s.
Proof.
  induction s as [|c s IH]; [done|].
  cbn [Text.existsb_str Text.remove_char].
  destruct (Ascii.eqb_spec "." c) as [<-|Hc].
  - by rewrite IH.
  - cbn [Text.existsb_str]. by rewrite IH.
Qed.

Lemma isdigit_spec s :
  Text.isdigit s
  = Text.forallb_str Text.is_digit_char s && Text.existsb_str Text.is_digit_char s.
Proof.
  destruct s as [|c s]; [done|]. unfold Text.isdigit.
  cbn [Text.forallb_str Text.existsb_str].
  destruct (Text.is_digit_char c); simpl; [by rewrite andb_true_r|done].
Qed.

Lemma looks_like_version_spec name :
  looks_like_version name = true
  <-> digits_and_dots name = true
      /\ Text.existsb_str Text.is_digit_char name = true
      /\ (String.length name <= 4)%nat.
Proof.
  unfold looks_like_version.
  rewrite isdigit_spec, remove_dots_digits, remove_dots_some_digit.
  rewrite !andb_true_iff, Nat.leb_le. tauto.
Qed.


Lemma installed_versions_spec w items v :
  v ∈ installed_versions w items
  <-> v ∈ items
      /\ FS.is_dir (fs w) (php_dir w ++ [v])%list = true
      /\ looks_like_version v = true
      /\ FS.path_exists (fs w) (php_dir w ++ [v; "bin"; "php"])%list = true.
Proof.
  unfold installed_versions, php_dir.
  rewrite !list_elem_of_In, filter_In, <- !app_assoc. simpl.
  destruct (FS.is_dir _ _), (looks_like_version v), (FS.path_exists _ _);
    simpl; intuition discriminate.
Qed.

Lemma installed_versions_gui g w items :
  installed_versions (set_gui g w) items = installed_versions w items.
Proof. reflexivity. Qed.

Lemma unlink_sub t p t' k x :
  FS.unlink t p = Some t' -> t' !! k = Some x -> t !! k = Some x.
Proof.
  unfold FS.unlink. destruct (FS.lpath t p) as [q|]; simpl; [|done].
  destruct (FS.node_at t q) as [[]|]; try done;
    intros H; inversion H; subst; rewrite lookup_delete_Some; tauto.
Qed.

Lemma rmtree_sub t p t' k x :
  FS.rmtree t p = Some t' -> t' !! k = Some x -> t !! k = Some x.
Proof.
  unfold FS.rmtree. destruct (FS.lpath t p) as [q|]; simpl; [|done].
  destruct q as [|c q]; [done|]. unfold FS.node_at.
  destruct (t !! (c :: q)) as [[]|]; try done.
  intros H; inversion H; subst. rewrite map_lookup_filter_Some. tauto.
Qed.

Lemma symlink_to_new t p tg t' k x :
  FS.symlink_to t p tg = Some t' -> t' !! k = Some x ->
  t !! k = Some x \/ x = Symlink tg.
Proof.
  unfold FS.symlink_to. destruct (FS.lpath t p) as [q|]; simpl; [|done].
  destruct (FS.node_at t q) as [[]|]; try done.
  intros H; inversion H; subst. rewrite lookup_insert_Some.
  intros [[_ <-]|[_ Hk]]; auto.
Qed.

#[global] Instance links_from_refl target : Reflexive (links_from target).
Proof. intros w k tg H. by left. Qed.
#[global] Instance links_from_trans target : Transitive (links_from target).
Proof.
  intros w1 w2 w3 H1 H2 k tg H. destruct (H2 k tg H) as [H' | ->]; [|by right].
  by apply H1.
Qed.

(** [fix_php_symlinks] makes no link but one to the first version its
    scan has found. *)
Lemma fix_php_symlinks_links w k tg :
  fs (fix_php_symlinks w).2 !! k = Some (Symlink tg) ->
  fs w !! k = Some (Symlink tg)
  \/ exists items v,
       FS.iterdir (fs w) (php_dir w) = Some items
       /\ head (installed_versions w items) = Some v
       /\ tg = (php_dir w ++ [v])%list.
Proof.
  unfold fix_php_symlinks, php_dir.
  unfold mbind at 1. unfold M_bind at 1. unfold get_world at 1. cbv beta iota.
  destruct (FS.path_exists (fs w) (stack_dir w ++ ["php"])%list);
    cbv beta iota delta [negb]; [|by left].
  unfold mbind at 1. unfold M_bind at 1. unfold fs_iterdir at 1.
  destruct (FS.iterdir (fs w) (stack_dir w ++ ["php"])%list) as [items|];
    cbv beta iota; [|by left].
  destruct (installed_versions w items) as [|v rest] eqn:Ev; [by left|].
  match goal with
  | |- fs (?m w).2 !! k = _ -> _ =>
      assert (keeps (links_from (stack_dir w ++ ["php"] ++ [v])%list) m) as Hk
  end.
  { repeat keeps_step ltac:(try (intros; intros ? ? ?; by left)).
    - intros w0 t Hu k0 tg0 H. left. simpl in H. by apply (unlink_sub _ _ _ _ _ Hu).
    - intros w0 t Hu k0 tg0 H. left. simpl in H. by apply (rmtree_sub _ _ _ _ _ Hu).
    - intros w0 t Hu k0 tg0 H. simpl in H.
      destruct (symlink_to_new _ _ _ _ _ _ Hu H) as [H'|H']; [by left|right].
      inversion H'. by rewrite <- app_assoc. }
  intros H. destruct (Hk w k tg H) as [H' | ->]; [by left|right].
  exists items, v. rewrite Ev. split; [done|]. split; [done|].
  by rewrite <- app_assoc.
Qed.

(** What [populate_php_versions] lists: the versions its scan has found,
    or, when it has found none, the name of whatever [current] resolves
    to. *)
Lemma populate_php_versions_combo w v :
  v ∈ php_version_combo (gui (populate_php_versions w).2) ->
  (exists items,
     FS.iterdir (fs w) (php_dir w) = Some items
     /\ v ∈ installed_versions w items)
  \/ (FS.is_symlink (fs w) (php_dir w ++ ["current"])%list = true
      /\ exists q, FS.realpath (fs w) (php_dir w ++ ["current"])%list = Some q
                   /\ v = FS.name q).
Proof.
  unfold populate_php_versions, php_dir. unfold_run. simpl.
  rewrite <- !app_assoc. simpl.
  destruct (FS.path_exists (fs w) (stack_dir w ++ ["php"])%list); simpl.
  - unfold fs_iterdir. simpl.
    destruct (FS.iterdir (fs w) (stack_dir w ++ ["php"])%list) as [items|]; simpl;
      [|by rewrite elem_of_nil].
    rewrite installed_versions_gui.
    destruct (installed_versions w items) as [|v0 rest] eqn:Ev; simpl.
    + destruct (FS.path_exists _ _); simpl; [|by rewrite elem_of_nil].
      destruct (FS.is_symlink _ _) eqn:El; simpl; [|by rewrite elem_of_nil].
      destruct (FS.realpath _ _) as [q|] eqn:Eq; simpl; [|by rewrite elem_of_nil].
      rewrite list_elem_of_singleton. intros ->. right. split; [done|]. by exists q.
    + intros H. left. exists items. by rewrite Ev.
  - destruct (FS.path_exists _ _); simpl; [|by rewrite elem_of_nil].
    destruct (FS.is_symlink _ _) eqn:El; simpl; [|by rewrite elem_of_nil].
    destruct (FS.realpath _ _) as [q|] eqn:Eq; simpl; [|by rewrite elem_of_nil].
    rewrite list_elem_of_singleton. intros ->. right. split; [done|]. by exists q.
Qed.

End ManagerFacts.

Import ManagerFacts.

(** * The claims *)

(** C2 (as amended).  The status probe (the pass of the status timer over
    the three services, and the database probe on its own) is repeatable
    and reads the file tree without changing it: however many further
    rounds run, the outcome and the three status labels are those of the
    first round, the database probe answers the same, and the file tree,
    the signals sent and the processes spawned are as before.  The one file
    it does write is the audit log: at most one entry per round, and none
    while the database socket file is absent. *)
Theorem status_probe_repeatable (w : world) (n : nat) :
  let w1 := (update_status w).2 in
  let wn := after_probes n w1 in
  (update_status wn).1 = (update_status w).1
  /\ status_labels (gui (update_status wn).2) = status_labels (gui w1)
  /\ (check_mysql_status wn).1 = (check_mysql_status w).1
  /\ fs wn = fs w /\ signals wn = signals w /\ spawned wn = spawned w
  /\ (exists l, applog wn = (applog w ++ l)%list /\ (List.length l <= S n)%nat)
  /\ (FS.path_exists (fs w) (mysql_socket w) = false -> applog wn = applog w).
Proof.
  intros w1 wn.
  destruct (update_status_repeat n w) as [Ho Hl].
  pose proof (after_probes_same_inputs (S n) w) as Hi. simpl in Hi. fold w1 wn in Hi.
  destruct (after_probes_log (S n) w) as (l & El & Hlen & Hs). simpl in El.
  fold w1 wn in El.
  repeat split.
  - exact Ho.
  - exact Hl.
  - by apply check_mysql_status_inputs.
  - apply Hi.
  - apply (after_probes_keeps signals (S n)); done.
  - apply (after_probes_keeps spawned (S n)); done.
  - by exists l.
  - intros Hn. rewrite El, (Hs Hn). apply app_nil_r.
Qed.

Lemma status_probe_repeatable_witness :
  FS.path_exists (fs Examples.idle) (mysql_socket Examples.idle) = false
  /\ applog (after_probes 3 (update_status Examples.idle).2) = applog Examples.idle.
Proof.
  split; [vm_compute; reflexivity|].
  apply (status_probe_repeatable Examples.idle 3). vm_compute. reflexivity.
Defined.

(** C2, as stated, fails: with the database socket file present, one pass
    of the probe leaves a new entry in the audit log. *)
Lemma status_probe_writes_audit_log :
  applog Examples.with_socket = []
  /\ applog (check_mysql_status Examples.with_socket).2
     = ["[2024-01-01 00:00:00] env.sh not found, using fallback environment
"]
  /\ applog (update_status Examples.with_socket).2
     = ["[2024-01-01 00:00:00] env.sh not found, using fallback environment
"].
Proof. vm_compute. repeat split. Qed.




(** C10.  With the administrative client [mariadb-admin] absent from disk,
    stopping the database sends no signal at all, whether or not a PID file
    exists, starts no process and changes no file; it only writes to the
    audit log and returns: after the resolver's entry come "MySQL admin not
    found, cannot stop gracefully" and "Stopped mysql service". *)
Theorem stop_mysql_without_admin_client (w : world) :
  FS.path_exists (fs w) (stack_dir w ++ ["mariadb"; "bin"; "mariadb-admin"]) = false ->
  let w' := (stop_service Mysql w).2 in
  signals w' = signals w /\ spawned w' = spawned w /\ fs w' = fs w
  /\ (log_writable w ->
      (stop_service Mysql w).1 = Ret tt
      /\ (env_resolves w -> exists m,
            applog w' =
            (applog w ++
               [log_entry w m;
                log_entry w "MySQL admin not found, cannot stop gracefully";
                log_entry w "Stopped mysql service"])%list)).
Proof.
  intros Ha w'. destruct (stop_mysql_no_admin w Ha) as [Hs Hl].
  repeat split.
  - exact Hs.
  - by apply (stop_service_keeps (same spawned)).
  - by apply (stop_service_keeps (same fs)).
  - by apply Hl.
  - by apply Hl.
Qed.

Lemma stop_mysql_without_admin_client_witness :
  FS.path_exists (fs Examples.with_mysql_pid)
    (stack_dir Examples.with_mysql_pid ++ ["mariadb"; "mariadb.pid"]) = true
  /\ signals (stop_service Mysql Examples.with_mysql_pid).2
     = signals Examples.with_mysql_pid.
Proof.
  split; [vm_compute; reflexivity|].
  apply (stop_mysql_without_admin_client Examples.with_mysql_pid).
  vm_compute. reflexivity.
Defined.



(** Where the PHP directory is reached through directories only, the entry
    of the [current] indirection is [<root>/php/current] as written. *)
Lemma current_link_entry :
  FS.lpath (fs Examples.with_php) (current_link Examples.with_php)
  = Some (Examples.root ++ ["php"; "current"])%list.
Proof. vm_compute. reflexivity. Qed.


(** C7 (as amended).  An invocation of [start_all_services] either
    raises before any start is requested, and then no timer is armed
    (this is what happens where the audit log cannot be opened); or it
    returns, having requested the start of the database at once and armed
    two timers from that same instant, of 2000 ms for the script runtime
    and of 4000 ms for the gateway.  Whatever else is pending and however
    late the event loop of [run_timers] gets to its timers, the gateway's
    timer does not fire before the script runtime's has, the script
    runtime's fires no earlier than 2000 ms and the gateway's no earlier
    than 4000 ms after the request for the database; and given rounds
    enough both fire, so that the three requests are on record in that
    order.  The call returns where the audit log is writable and
    environment resolution returns if it is asked for. *)
Theorem start_all_order (dir_size : Z) (lags : list nat) (w : world) :
  let r := start_all_services w in
  let php := ((now w + 2000)%nat, CbStartService Php) in
  let nginx := ((now w + 4000)%nat, CbStartService Nginx) in
  let loop := run_timers dir_size lags r.2 in
  match r.1 with
  | Raise _ => calls r.2 = calls w /\ timers r.2 = timers w
  | Ret _ =>
      calls r.2 = (calls w ++ [(now w, StartCall Mysql)])%list
      /\ timers r.2 = (timers w ++ [php; nginx])%list
      /\ (forall l1 t2 l2,
            loop.1 = (l1 ++ (t2, nginx) :: l2)%list ->
            exists t1,
              (t1, php) ∈ l1
              /\ (now w + 2000 <= t1 <= t2)%nat /\ (now w + 4000 <= t2)%nat)
      /\ ((rounds_needed r.2 <= List.length lags)%nat ->
          exists l1 t1 l2 t2 l3 c,
            loop.1 = (l1 ++ (t1, php) :: l2 ++ (t2, nginx) :: l3)%list
            /\ calls loop.2 = (calls w ++ (now w, StartCall Mysql) :: c)%list
            /\ sublist [(t1, StartCall Php); (t2, StartCall Nginx)] c
            /\ (now w + 2000 <= t1 <= t2)%nat /\ (now w + 4000 <= t2)%nat)
  end
  /\ (log_writable w -> (auto_load_env (gui w) = true -> env_resolves w) ->
      r.1 = Ret tt).
Proof.
  intros r php nginx loop. split.
  2: { intros Hw Hr. destruct (start_all_services_run w Hw Hr) as (w1 & E & _).
       unfold r. by rewrite E. }
  destruct (start_all_services_cases w) as [Hn H]. fold r in Hn, H.
  destruct (r.1) as [[]|e]; [|exact H]. destruct H as [Hc Ht].
  split; [exact Hc|]. split; [exact Ht|].
  assert (forall l1 t2 l2,
            loop.1 = (l1 ++ (t2, nginx) :: l2)%list ->
            exists t1,
              (t1, php) ∈ l1
              /\ (now w + 2000 <= t1 <= t2)%nat /\ (now w + 4000 <= t2)%nat) as Hord.
  { intros l1 t2 l2 El.
    destruct (run_timers_order dir_size php nginx lags r.2 l1 t2 l2) as [t1 H1].
    - simpl. lia.
    - rewrite Ht. apply elem_of_app. right. by left.
    - exact El.
    - exists t1. split; [exact H1|].
      pose proof (run_timers_sorted dir_size lags r.2 l1 (t2, nginx) l2 (t1, php) El H1)
        as Hle.
      assert ((t1, php) ∈ loop.1) as Hin1
        by (rewrite El; apply elem_of_app; by left).
      assert ((t2, nginx) ∈ loop.1) as Hin2
        by (rewrite El; apply elem_of_app; right; by left).
      apply run_timers_times in Hin1 as [_ Hd1].
      apply run_timers_times in Hin2 as [_ Hd2].
      simpl in *. lia. }
  split; [exact Hord|].
  intros Hrounds.
  destruct (run_timers_fires dir_size lags r.2 nginx) as [t2 Hin2]; [|exact Hrounds|].
  { rewrite Ht. apply elem_of_app. right. right. by left. }
  apply list_elem_of_split in Hin2 as (l1' & l3 & El).
  destruct (Hord l1' t2 l3 El) as (t1 & Hin1 & Hb1 & Hb2).
  apply list_elem_of_split in Hin1 as (l1 & l2 & ->).
  destruct (run_timers_calls dir_size lags r.2) as (c & Ec & Hs).
  exists l1, t1, l2, t2, l3, c.
  unfold loop in *.
  split; [by rewrite El, <- app_assoc|].
  split; [rewrite Ec, Hc, <- app_assoc; reflexivity|].
  split; [|done].
  etrans; [|exact Hs]. rewrite El, <- app_assoc. cbn [app].
  unfold start_calls_of. rewrite omap_app. cbn [omap list_omap fst snd].
  rewrite omap_app. cbn [omap list_omap fst snd].
  apply sublist_inserts_l. apply sublist_skip. apply sublist_inserts_l.
  apply sublist_skip. apply sublist_nil_l.
Qed.

Lemma start_all_order_witness :
  (start_all_services Examples.autoload).1 = Ret tt
  /\ exists l1 t1 l2 t2 l3 c,
       (run_timers 4096 [1500; 0] (start_all_services Examples.autoload).2).1
       = (l1 ++ (t1, ((now Examples.autoload + 2000)%nat, CbStartService Php))
             :: l2 ++ (t2, ((now Examples.autoload + 4000)%nat, CbStartService Nginx))
             :: l3)%list
       /\ calls (run_timers 4096 [1500; 0] (start_all_services Examples.autoload).2).2
          = (calls Examples.autoload
               ++ (now Examples.autoload, StartCall Mysql) :: c)%list
       /\ sublist [(t1, StartCall Php); (t2, StartCall Nginx)] c
       /\ (now Examples.autoload + 2000 <= t1 <= t2)%nat
       /\ (now Examples.autoload + 4000 <= t2)%nat.
Proof.
  pose proof (start_all_order 4096 [1500; 0] Examples.autoload) as [H Hret].
  assert ((start_all_services Examples.autoload).1 = Ret tt) as E.
  { apply Hret.
    - vm_compute. reflexivity.
    - intros _. right. vm_compute. eauto. }
  split; [exact E|].
  cbv zeta in H. rewrite E in H. destruct H as (_ & _ & _ & Hl).
  apply Hl. vm_compute. lia.
Defined.

(** C7, as stated, fails: both timers are armed from one instant, so when
    the loop gets to the first of them 1500 ms late, the start of the
    gateway follows that of the script runtime by 500 ms, not by the
    2000 ms between the two intervals. *)
Lemma late_timer_shortens_gap :
  (run_timers 4096 [1500; 0] (start_all_services Examples.idle).2).1
  = [(3500, (2000, CbStartService Php)); (4000, (4000, CbStartService Nginx))]%nat
  /\ start_requests
       (calls (run_timers 4096 [1500; 0] (start_all_services Examples.idle).2).2)
     = [(0, Mysql); (3500, Php); (4000, Nginx)]%nat
  /\ (4000 - 3500 < 2000)%nat.
Proof.
  split; [vm_compute; reflexivity|]. split; [vm_compute; reflexivity|]. lia.
Qed.

(** C5.  Round trip of the gateway port.  Let the port [P] lie in
    [1024, 65535] and let the gateway configuration file be absent or hold
    exactly one [listen] directive.  When [update_nginx_port P] completes,
    the file reads back with exactly one [listen] directive, and its value
    is the decimal numeral of [P]; a further call with a port [P2] then
    completes as well and leaves, again, exactly one directive, now with
    the value [P2].  (A [listen] directive is what the program's own
    pattern recognises; where the file is generated from the template, the
    stack root is taken to have no semicolon in its name.) *)
Theorem gateway_port_round_trip (w : world) (P P2 : Z) :
  (1024 <= P <= 65535)%Z -> (1024 <= P2 <= 65535)%Z ->
  (FS.path_exists (fs w) (nginx_conf w) = false
   /\ Text.contains ";" (FS.path_str (stack_dir w)) = false
   \/ exists c, FS.read_file (fs w) (nginx_conf w) = Some c
                /\ List.length (Regex.listen_ports c) = 1%nat) ->
  (update_nginx_port P w).1 = Ret tt ->
  (exists c1,
     FS.read_file (fs (update_nginx_port P w).2) (nginx_conf w) = Some c1
     /\ Regex.listen_ports c1 = [Text.fmt_int P])
  /\ Text.parse_int (Text.fmt_int P) = Some P
  /\ (update_nginx_port P2 (update_nginx_port P w).2).1 = Ret tt
  /\ (exists c2,
        FS.read_file (fs (update_nginx_port P2 (update_nginx_port P w).2).2)
                     (nginx_conf w) = Some c2
        /\ Regex.listen_ports c2 = [Text.fmt_int P2])
  /\ Text.parse_int (Text.fmt_int P2) = Some P2.
Proof.
  intros HP HP2 Hpre Hret.
  assert (Hsemi : FS.path_exists (fs w) (nginx_conf w) = false ->
                  Text.contains ";" (FS.path_str (stack_dir w)) = false).
  { intros Hn. destruct Hpre as [[_ H]|(c & Hc & _)]; [exact H|].
    by rewrite (read_file_exists _ _ _ Hc) in Hn. }
  destruct (update_nginx_port_step w P ltac:(lia) Hsemi Hret)
    as (Hs & Hw1 & c1 & Hr1 & Hc1).
  set (w1 := (update_nginx_port P w).2) in *.
  assert (Hone : Regex.listen_ports c1 = [Text.fmt_int P]).
  { destruct Hc1 as [[_ H]|(c & Hc & H)]; [exact H|].
    destruct Hpre as [[Hn _]|(c' & Hc' & Hlen)].
    - by rewrite (read_file_exists _ _ _ Hc) in Hn.
    - rewrite Hc in Hc'. injection Hc' as <-. rewrite H.
      destruct (Regex.listen_ports c) as [|x [|y l]]; simpl in Hlen; try lia.
      reflexivity. }
  assert (Hconf : nginx_conf w1 = nginx_conf w) by (unfold nginx_conf; by rewrite Hs).
  assert (Hret2 : (update_nginx_port P2 w1).1 = Ret tt).
  { apply (update_nginx_port_completes w1 P2 c1 Hw1). by rewrite Hconf. }
  split; [by exists c1|]. split; [apply TextFacts.parse_fmt_int; lia|].
  split; [exact Hret2|]. split; [|apply TextFacts.parse_fmt_int; lia].
  destruct (update_nginx_port_step w1 P2 ltac:(lia)) as (_ & _ & c2 & Hr2 & Hc2);
    [|exact Hret2|].
  { intros Hn. rewrite Hconf in Hn. by rewrite (read_file_exists _ _ _ Hr1) in Hn. }
  rewrite Hconf in Hr2, Hc2. exists c2. split; [exact Hr2|].
  destruct Hc2 as [[Hn _]|(c & Hc & H)].
  - by rewrite (read_file_exists _ _ _ Hr1) in Hn.
  - rewrite Hr1 in Hc. injection Hc as <-. by rewrite H, Hone.
Qed.

Lemma gateway_port_round_trip_witness :
  ((exists c1,
      FS.read_file (fs (update_nginx_port 8080 Examples.idle).2)
                   (nginx_conf Examples.idle) = Some c1
      /\ Regex.listen_ports c1 = [Text.fmt_int 8080])
   /\ Text.parse_int (Text.fmt_int 8080) = Some 8080%Z
   /\ (update_nginx_port 9090 (update_nginx_port 8080 Examples.idle).2).1 = Ret tt
   /\ (exists c2,
         FS.read_file
           (fs (update_nginx_port 9090 (update_nginx_port 8080 Examples.idle).2).2)
           (nginx_conf Examples.idle) = Some c2
         /\ Regex.listen_ports c2 = [Text.fmt_int 9090])
   /\ Text.parse_int (Text.fmt_int 9090) = Some 9090%Z)
  /\ ((exists c1,
         FS.read_file (fs (update_nginx_port 8080 Examples.with_nginx_conf).2)
                      (nginx_conf Examples.with_nginx_conf) = Some c1
         /\ Regex.listen_ports c1 = [Text.fmt_int 8080])
      /\ Text.parse_int (Text.fmt_int 8080) = Some 8080%Z
      /\ (update_nginx_port 9090
            (update_nginx_port 8080 Examples.with_nginx_conf).2).1 = Ret tt
      /\ (exists c2,
            FS.read_file
              (fs (update_nginx_port 9090
                     (update_nginx_port 8080 Examples.with_nginx_conf).2).2)
              (nginx_conf Examples.with_nginx_conf) = Some c2
            /\ Regex.listen_ports c2 = [Text.fmt_int 9090])
      /\ Text.parse_int (Text.fmt_int 9090) = Some 9090%Z).
Proof.
  split.
  - apply (gateway_port_round_trip Examples.idle 8080 9090); [lia|lia| |].
    + left. vm_compute. split; reflexivity.
    + vm_compute. reflexivity.
  - apply (gateway_port_round_trip Examples.with_nginx_conf 8080 9090); [lia|lia| |].
    + right. eexists. split; [vm_compute; reflexivity|]. vm_compute. reflexivity.
    + vm_compute. reflexivity.
Defined.

(** C8.  The port directives of the database configuration agree after a
    mutation.  Whatever [update_mysql_port P] does, a configuration file
    that reads back afterwards has one value in all its port directives:
    the numeral of [P] in each directive the file had before, and the
    port shown in the port field, in the [client] and the [mysqld] section
    alike, where the file was regenerated.  After [fix_mysql_socket] the
    file, if it reads back, has exactly those two directives, both with
    the port shown in the port field.  And where the file could be read
    before and the audit log is writable, [update_mysql_port] completes and
    the file reads back.  (A port directive is what the program's own
    pattern recognises; the stack root is taken to have no equals sign in
    its name, the ports to be non-negative.) *)
Theorem database_ports_agree (w : world) (P : Z) :
  (0 <= P)%Z -> (0 <= mysql_port (gui w))%Z ->
  Text.contains "=" (FS.path_str (stack_dir w)) = false ->
  (forall c',
     FS.read_file (fs (update_mysql_port P w).2) (mysql_cnf w) = Some c' ->
     ports_agree c'
     /\ (forall c, FS.read_file (fs w) (mysql_cnf w) = Some c ->
           Regex.port_values c' = (fun _ => Text.fmt_int P) <$> Regex.port_values c)
     /\ (FS.path_exists (fs w) (mysql_cnf w) = false ->
           Regex.port_values c'
           = [Text.fmt_int (mysql_port (gui w)); Text.fmt_int (mysql_port (gui w))]))
  /\ (forall c',
        FS.read_file (fs (fix_mysql_socket w).2) (mysql_cnf w) = Some c' ->
        ports_agree c'
        /\ Regex.port_values c'
           = [Text.fmt_int (mysql_port (gui w)); Text.fmt_int (mysql_port (gui w))])
  /\ (forall c,
        log_writable w -> FS.read_file (fs w) (mysql_cnf w) = Some c ->
        (update_mysql_port P w).1 = Ret tt
        /\ exists c', FS.read_file (fs (update_mysql_port P w).2) (mysql_cnf w)
                      = Some c').
Proof.
  intros HP Hcp Hroot.
  assert (Hfix : forall c',
    FS.read_file (fs (fix_mysql_socket w).2) (mysql_cnf w) = Some c' ->
    Regex.port_values c'
    = [Text.fmt_int (mysql_port (gui w)); Text.fmt_int (mysql_port (gui w))]).
  { intros c' Hr. destruct (fix_mysql_socket_result w) as [_ [[Hfs Hn]|Ht]].
    - rewrite Hfs in Hr. congruence.
    - rewrite Ht in Hr. injection Hr as <-. rewrite path_str_snoc.
      apply RegexFacts.my_cnf_ports; [done|by apply root_prefix_contains]. }
  assert (Hpair : forall c' (v : string), Regex.port_values c' = [v; v] -> ports_agree c').
  { intros c' v H. apply (ports_agree_const v [v; v] c'). by rewrite H. }
  split; [|split].
  - intros c' Hr.
    destruct (update_mysql_port_result w P HP) as [[Hn Hw]|[Hy [[Hfs Hnone]|(c & c1 & Hc & Hc1 & Hv)]]].
    + rewrite Hw in Hr. pose proof (Hfix c' Hr) as Hv.
      split; [by apply (Hpair _ _ Hv)|]. split; [|done].
      intros c Hc. by rewrite (read_file_exists _ _ _ Hc) in Hn.
    + rewrite Hfs in Hr. congruence.
    + rewrite Hc1 in Hr. injection Hr as <-.
      split; [by apply (ports_agree_const _ _ _ Hv)|]. split.
      * intros c0 Hc0. rewrite Hc in Hc0. by injection Hc0 as <-.
      * intros Hn. congruence.
  - intros c' Hr. pose proof (Hfix c' Hr) as Hv.
    split; [by apply (Hpair _ _ Hv)|done].
  - intros c Hw Hc. by apply (update_mysql_port_completes w P c).
Qed.

Lemma database_ports_agree_witness :
  (forall c',
     FS.read_file (fs (update_mysql_port 3310 Examples.with_my_cnf).2)
                  (mysql_cnf Examples.with_my_cnf) = Some c' ->
     ports_agree c'
     /\ (forall c, FS.read_file (fs Examples.with_my_cnf)
                                (mysql_cnf Examples.with_my_cnf) = Some c ->
           Regex.port_values c'
           = (fun _ => Text.fmt_int 3310) <$> Regex.port_values c)
     /\ (FS.path_exists (fs Examples.with_my_cnf) (mysql_cnf Examples.with_my_cnf)
         = false ->
           Regex.port_values c'
           = [Text.fmt_int (mysql_port (gui Examples.with_my_cnf));
              Text.fmt_int (mysql_port (gui Examples.with_my_cnf))]))
  /\ (forall c',
        FS.read_file (fs (fix_mysql_socket Examples.with_my_cnf).2)
                     (mysql_cnf Examples.with_my_cnf) = Some c' ->
        ports_agree c'
        /\ Regex.port_values c'
           = [Text.fmt_int (mysql_port (gui Examples.with_my_cnf));
              Text.fmt_int (mysql_port (gui Examples.with_my_cnf))])
  /\ (forall c,
        log_writable Examples.with_my_cnf ->
        FS.read_file (fs Examples.with_my_cnf) (mysql_cnf Examples.with_my_cnf)
        = Some c ->
        (update_mysql_port 3310 Examples.with_my_cnf).1 = Ret tt
        /\ exists c', FS.read_file (fs (update_mysql_port 3310 Examples.with_my_cnf).2)
                                   (mysql_cnf Examples.with_my_cnf) = Some c').
Proof.
  apply (database_ports_agree Examples.with_my_cnf 3310).
  - lia.
  - vm_compute. discriminate.
  - vm_compute. reflexivity.
Defined.

(** On the sample configuration, whose sections disagree before the call,
    both directives carry the new port afterwards. *)
Lemma update_mysql_port_sample :
  Regex.port_values <$> FS.read_file (fs Examples.with_my_cnf)
                                     (mysql_cnf Examples.with_my_cnf)
  = Some ["3306"; "3307"]
  /\ (update_mysql_port 3310 Examples.with_my_cnf).1 = Ret tt
  /\ Regex.port_values <$>
       FS.read_file (fs (update_mysql_port 3310 Examples.with_my_cnf).2)
                    (mysql_cnf Examples.with_my_cnf)
     = Some ["3310"; "3310"]
  /\ Regex.port_values <$>
       FS.read_file (fs (fix_mysql_socket Examples.with_my_cnf).2)
                    (mysql_cnf Examples.with_my_cnf)
     = Some ["3306"; "3306"].
Proof. vm_compute. repeat split. Qed.

(** C9 (as amended).  The scan shared by [populate_php_versions] and
    [fix_php_symlinks] takes an entry of the PHP directory for an installed
    version only if it is a directory, its name is made of digits and dots,
    holds a digit and is at most 4 characters long, and its [bin/php]
    exists.  [fix_php_symlinks] makes no link but one to the first version
    found by the scan.  [populate_php_versions] lists the versions found by
    the scan, or else, through its fallback, the name of whatever the
    [current] link resolves to, which no test is applied to. *)
Theorem version_discovery (w : world) :
  (forall items v,
     v ∈ installed_versions w items ->
     v ∈ items
     /\ digits_and_dots v = true
     /\ Text.existsb_str Text.is_digit_char v = true
     /\ (String.length v <= 4)%nat
     /\ FS.is_dir (fs w) (php_dir w ++ [v])%list = true
     /\ FS.path_exists (fs w) (php_dir w ++ [v; "bin"; "php"])%list = true)
  /\ (forall k tg,
        fs (fix_php_symlinks w).2 !! k = Some (Symlink tg) ->
        fs w !! k = Some (Symlink tg)
        \/ exists items v,
             FS.iterdir (fs w) (php_dir w) = Some items
             /\ head (installed_versions w items) = Some v
             /\ tg = (php_dir w ++ [v])%list)
  /\ (forall v,
        v ∈ php_version_combo (gui (populate_php_versions w).2) ->
        (exists items,
           FS.iterdir (fs w) (php_dir w) = Some items
           /\ v ∈ installed_versions w items)
        \/ (FS.is_symlink (fs w) (php_dir w ++ ["current"])%list = true
            /\ exists q, FS.realpath (fs w) (php_dir w ++ ["current"])%list = Some q
                         /\ v = FS.name q)).
Proof.
  split; [|split].
  - intros items v Hv. apply installed_versions_spec in Hv as (Hi & Hd & Hl & Hb).
    apply looks_like_version_spec in Hl as (? & ? & ?). auto 10.
  - apply fix_php_symlinks_links.
  - apply populate_php_versions_combo.
Qed.

(** Where the only PHP directory is [8.3.10], with its binary, and
    [current] points to it, the scan rejects the name and
    [populate_php_versions] lists it all the same. *)
Lemma populate_lists_long_version :
  FS.path_exists (fs Examples.with_long_version)
    (php_dir Examples.with_long_version ++ ["8.3.10"; "bin"; "php"])%list = true
  /\ looks_like_version "8.3.10" = false
  /\ (populate_php_versions Examples.with_long_version).1 = Ret tt
  /\ php_version_combo (gui (populate_php_versions Examples.with_long_version).2)
     = ["8.3.10"].
Proof. vm_compute. repeat split. Qed.

(** C4 (as amended).  An environment returned by [get_environment] comes
    from one of two strategies.  From the fallback (no [env.sh], or
    sourcing it exited with an error) it is [get_fallback_environment], in
    which [WEBSTACK_HOME] is the stack root and [PKG_CONFIG_PATH] is
    [lib/pkgconfig] under the private deps tree.  From the primary strategy
    it is the inherited environment overlaid with the assignments printed
    by the sourced shell, and nothing is added to it: a variable, the two
    auxiliary ones included, is set exactly when it is inherited or
    [env.sh] makes the shell print it. *)
Theorem environment_auxiliary_variables (w : world) (env : gmap string string) :
  (get_environment w).1 = Ret env ->
  (FS.path_exists (fs w) (stack_dir w ++ ["env.sh"])%list = true
   /\ exists out err,
        h_source_env (host w) = Exited 0 out err
        /\ env = parse_env_output out (environ w)
        /\ forall key, is_Some (env !! key)
                       <-> is_Some (environ w !! key) \/ defines out key)
  \/ ((FS.path_exists (fs w) (stack_dir w ++ ["env.sh"])%list = false
       \/ exists code out err,
            h_source_env (host w) = Exited code out err /\ code <> 0%Z)
      /\ env = get_fallback_environment w
      /\ env !! "WEBSTACK_HOME" = Some (FS.path_str (stack_dir w))
      /\ env !! "PKG_CONFIG_PATH"
         = Some (FS.path_str (deps_dir w ++ ["lib"; "pkgconfig"])%list)).
Proof.
  destruct (EnvFacts.fallback_lookup w) as (_ & _ & Hh & Hp).
  unfold get_environment, log_message, mbind, M_bind,
    get_world, try_except, subprocess_run, raise, mret, M_ret. simpl.
  destruct (FS.path_exists (fs w) (stack_dir w ++ ["env.sh"])%list) eqn:Esh.
  - destruct (h_source_env (host w)) as [code out err|msg] eqn:Eh; simpl; [|done].
    destruct (Z.eqb_spec code 0) as [->|Hc]; simpl.
    + destruct (FS.is_dir (fs w) (stack_dir w)); simpl; [|done].
      intros H; inversion H; subst. left. split; [done|]. exists out, err.
      split; [done|]. split; [done|]. intros key.
      apply EnvFacts.parse_env_output_lookup.
    + destruct (FS.is_dir (fs w) (stack_dir w)); simpl; [|done].
      intros H; inversion H; subst. right. split; [right; eauto|]. auto.
  - destruct (FS.is_dir (fs w) (stack_dir w)); simpl; [|done].
    intros H; inversion H; subst. right. split; [by left|]. auto.
Qed.

Lemma environment_auxiliary_variables_witness :
  (FS.path_exists (fs Examples.idle) (stack_dir Examples.idle ++ ["env.sh"])%list = true
   /\ exists out err,
        h_source_env (host Examples.idle) = Exited 0 out err
        /\ get_fallback_environment Examples.idle
           = parse_env_output out (environ Examples.idle)
        /\ forall key, is_Some (get_fallback_environment Examples.idle !! key)
                       <-> is_Some (environ Examples.idle !! key) \/ defines out key)
  \/ ((FS.path_exists (fs Examples.idle) (stack_dir Examples.idle ++ ["env.sh"])%list
       = false
       \/ exists code out err,
            h_source_env (host Examples.idle) = Exited code out err /\ code <> 0%Z)
      /\ get_fallback_environment Examples.idle = get_fallback_environment Examples.idle
      /\ get_fallback_environment Examples.idle !! "WEBSTACK_HOME"
         = Some (FS.path_str (stack_dir Examples.idle))
      /\ get_fallback_environment Examples.idle !! "PKG_CONFIG_PATH"
         = Some (FS.path_str (deps_dir Examples.idle ++ ["lib"; "pkgconfig"])%list)).
Proof.
  apply (environment_auxiliary_variables Examples.idle
           (get_fallback_environment Examples.idle)).
  vm_compute. reflexivity.
Defined.

(** With an [env.sh] that exports nothing of the kind, and nothing
    inherited, the primary strategy returns an environment in which
    neither auxiliary variable is set. *)
Lemma primary_environment_lacks_auxiliaries :
  FS.path_exists (fs Examples.with_env_sh)
    (stack_dir Examples.with_env_sh ++ ["env.sh"])%list = true
  /\ exists env,
       (get_environment Examples.with_env_sh).1 = Ret env
       /\ env !! "FOO" = Some "bar"
       /\ env !! "WEBSTACK_HOME" = None
       /\ env !! "PKG_CONFIG_PATH" = None.
Proof.
  split; [vm_compute; reflexivity|].
  eexists. split; [vm_compute; reflexivity|]. vm_compute. repeat split.
Qed.

(** C6.  In the environment of the fallback resolver, [LD_LIBRARY_PATH]
    and [PATH] hold the existing candidate directories as their first
    entries, one entry each and a colon between them, and after them, a
    colon between, the inherited value of the variable where there is one
    (the stack root is taken to have no colon in its name, which would
    split an entry in two).  The directories held are exactly the
    candidates that exist, in the order of the candidate list, those of
    the private tree before those of the system. *)
Theorem fallback_search_paths (w : world) :
  (Text.contains ":" (FS.path_str (stack_dir w)) = false ->
   exists ld_library_path path,
     get_fallback_environment w !! "LD_LIBRARY_PATH" = Some ld_library_path
     /\ get_fallback_environment w !! "PATH" = Some path
     /\ holds_prepended ld_library_path (existing w (lib_paths w))
                        (environ w !! "LD_LIBRARY_PATH")
     /\ holds_prepended path (existing w (bin_paths w)) (environ w !! "PATH"))
  /\ (forall paths p,
        p ∈ existing w paths <-> p ∈ paths /\ FS.path_exists (fs w) p = true)
  /\ (forall paths, sublist (existing w paths) paths)
  /\ existing w (lib_paths w)
     = (existing w [(deps_dir w ++ ["lib"])%list; (deps_dir w ++ ["lib64"])%list]
        ++ existing w [["usr"; "lib"]; ["usr"; "lib64"]; ["lib"]; ["lib64"]])%list
  /\ existing w (bin_paths w)
     = (existing w [(deps_dir w ++ ["bin"])%list; (stack_dir w ++ ["bin"])%list]
        ++ existing w [["usr"; "bin"]; ["bin"]])%list.
Proof.
  destruct (EnvFacts.fallback_lookup w) as (Hl & Hb & _ & _).
  split.
  { intros Hc. apply EnvFacts.candidates_colon_free in Hc.
    apply Forall_app in Hc as [Hlib Hbin].
    eexists _, _. split; [exact Hl|]. split; [exact Hb|].
    split; apply EnvFacts.holds_prepended_join;
      by apply EnvFacts.existing_colon_free. }
  split; [intros paths p; apply EnvFacts.existing_spec|].
  split; [intros paths; apply EnvFacts.existing_sublist|].
  split; rewrite <- EnvFacts.existing_app; reflexivity.
Qed.

Lemma fallback_search_paths_witness :
  exists ld_library_path path,
    get_fallback_environment Examples.with_deps !! "LD_LIBRARY_PATH"
    = Some ld_library_path
    /\ get_fallback_environment Examples.with_deps !! "PATH" = Some path
    /\ holds_prepended ld_library_path
         (existing Examples.with_deps (lib_paths Examples.with_deps))
         (environ Examples.with_deps !! "LD_LIBRARY_PATH")
    /\ holds_prepended path
         (existing Examples.with_deps (bin_paths Examples.with_deps))
         (environ Examples.with_deps !! "PATH").
Proof.
  apply (fallback_search_paths Examples.with_deps). vm_compute. reflexivity.
Defined.

(** Scenario A of the specification: no [env.sh], the private [lib] and
    [bin] and the system [bin] exist; the private entry comes first. *)
Lemma fallback_private_bin_first :
  exists env,
    (get_environment Examples.with_deps).1 = Ret env
    /\ env !! "PATH" = Some "/home/dev/webstack/deps/bin:/usr/bin"
    /\ search_path_entries "/home/dev/webstack/deps/bin:/usr/bin"
       = ["/home/dev/webstack/deps/bin"; "/usr/bin"]
    /\ env !! "LD_LIBRARY_PATH" = Some "/home/dev/webstack/deps/lib".
Proof.
  eexists. split; [vm_compute; reflexivity|]. vm_compute. repeat split.
Qed.
